(** * Webboard synthesizer: voice engine, arpeggiator and gesture bridge

    A shallow embedding of [services/audioService.ts] (class [AudioService]),
    of the frequency table of [constants.ts] and of the gesture effect of
    [App.tsx], with the properties of the voice manager proved about it;
    and of the controls that drive the engine: the note handlers of
    [Keyboard.tsx], the cell editor of [ModMatrix.tsx], the pointer
    handlers of [XYPad.tsx] and [PitchWheel.tsx] and the XY pad update and
    page buttons of [App.tsx].

    Numbers.  A JavaScript [number] is modelled by a real number: ideal
    arithmetic, no rounding.  The frequency table holds the ideal values
    [440 * 2^(n/12)] where the code holds the doubles nearest to them, and
    what is proved of frequencies is proved of the ideal values.
    [Math.pow] is [Rpower], [Math.max] and [Math.min] are [Rmax] and [Rmin].
    Octaves, indices and timer handles are integers.  NaN arises in one
    place, where [playNote] indexes the table by a name that every object
    inherits, and is modelled there by how the call ends.

    Objects.  An object literal used as a table is the list of its own
    properties in insertion order; indexing it also finds the properties
    of [Object.prototype].

    Exceptions.  A method either returns or raises, and both leave a
    service: a call that raises has done what it did before the exception.
    The engine raises in three places: in [playNote] handed [undefined]
    by a tick whose index is past the end of the sequence, in [playNote]
    handed a name that objects inherit, and in the tick itself where there
    is no [window] to schedule the next tick on.

    Web Audio.  The rendering substrate is not modelled.  An [AudioParam] is
    the log of the automation calls issued on it, a node carries its
    parameters, its start and stop requests and the list of the places its
    output is connected to.  The calls are recorded as the engine issues
    them; of the argument checks of the Web Audio API only the TypeError
    on a frequency that is NaN is modelled. *)

From Stdlib Require Import Reals Lra Lia ZArith List String Ascii.
From stdpp Require Import base list strings pretty sorting.
Import ListNotations.

Local Open Scope string_scope.
Local Open Scope list_scope.

(** ** JavaScript strings: the note pattern and the octave shift *)

Module JS.

  (** The character class [A-G#] of the note pattern. *)
Definition isNoteChar (c : ascii) : bool :=
    let n := nat_of_ascii c in
    (Nat.leb 65 n && Nat.leb n 71) || Nat.eqb n 35.

  (** The character class \d (ASCII digits only, the pattern has no flag). *)
Definition isDigit (c : ascii) : bool :=
    let n := nat_of_ascii c in Nat.leb 48 n && Nat.leb n 57.

  (** The longest prefix of [s] made of characters of the class [p], and
      what follows it: a greedy [p*]. *)
Fixpoint span (p : ascii -> bool) (s : string) : string * string :=
    match s with
    | EmptyString => (EmptyString, EmptyString)
    | String c s' =>
        if p c then let '(a, b) := span p s' in (String c a, b)
        else (EmptyString, s)
    end.

  (** [/([A-G#]+)(\d+)/] tried at the first character of [s].  The two
      classes are disjoint, so giving back characters of the greedy first
      group never helps: the match succeeds exactly when the longest run of
      note characters is non-empty and is followed by a digit. *)
Definition matchHere (s : string) : option (string * string) :=
    let '(letters, rest) := span isNoteChar s in
    let '(digits, _) := span isDigit rest in
    match letters, digits with
    | String _ _, String _ _ => Some (letters, digits)
    | _, _ => None
    end.

  (** [note.match(/([A-G#]+)(\d+)/)]: the leftmost match, as its two
      capture groups; [None] is JavaScript's [null]. *)
Fixpoint noteMatch (s : string) : option (string * string) :=
    match matchHere s with
    | Some r => Some r
    | None =>
        match s with
        | EmptyString => None
        | String _ s' => noteMatch s'
        end
    end.

Definition digitValue (c : ascii) : Z := Z.of_nat (nat_of_ascii c) - 48.

Fixpoint parseDigits (acc : Z) (s : string) : Z :=
    match s with
    | EmptyString => acc
    | String c s' => parseDigits (10 * acc + digitValue c) s'
    end.

  (** [parseInt] on a non-empty string of decimal digits. *)
Definition parseInt (s : string) : Z := parseDigits 0 s.

  (** [String.prototype.startsWith]. *)
Definition startsWith (s p : string) : bool := String.prefix p s.

End JS.

(** The note name the frequency table is asked for: the first match of the
    note pattern with [settings.octave] added to its octave; a name the
    pattern does not match is looked up as it is.  (The octave is printed
    in decimal, which is what a template literal does for an integer below
    10^21.) *)
Definition shiftedNote (note : string) (octave : Z) : string :=
  match JS.noteMatch note with
  | Some (letters, digits) =>
      (letters ++ pretty (JS.parseInt digits + octave)%Z)%string
  | None => note
  end.

(** ** constants.ts: the equal-tempered frequency table *)

Definition NOTES : list string :=
  ["C"; "C#"; "D"; "D#"; "E"; "F"; "F#"; "G"; "G#"; "A"; "A#"; "B"].

(** The body of the inner loop of [generateFrequencies]. *)
Definition frequencyEntry (octave : Z) (i : nat) (note : string) : string * R :=
  let a4 := 440%R in
  let semiFromA4 := ((octave - 4) * 12 + (Z.of_nat i - 9))%Z in
  ((note ++ pretty octave)%string, (a4 * Rpower 2 (IZR semiFromA4 / 12))%R).

(** [generateFrequencies]: octaves 0 to 8, the twelve notes in each.  The
    object is kept as the list of its properties in insertion order; the
    values are the ideal ones, which the code rounds to doubles. *)
Definition generateFrequencies : list (string * R) :=
  concat ((fun octave => imap (frequencyEntry octave) NOTES) <$> seqZ 0 9).

Definition FREQUENCIES : list (string * R) := generateFrequencies.

(** The own property [key] of [obj]; [None] where it has none.  (It is
    also what [Map.prototype.get] gives, where [None] is [undefined].) *)
Fixpoint property {A : Type} (obj : list (string * A)) (key : string) : option A :=
  match obj with
  | [] => None
  | (k, v) :: obj' => if String.eqb k key then Some v else property obj' key
  end.

(** The names of the properties of [Object.prototype], which every object
    literal inherits. *)
Definition objectPrototype : list string :=
  ["constructor"; "__defineGetter__"; "__defineSetter__"; "hasOwnProperty";
   "__lookupGetter__"; "__lookupSetter__"; "isPrototypeOf"; "propertyIsEnumerable";
   "toString"; "valueOf"; "__proto__"; "toLocaleString"].

(** What [obj[key]] gives on an object literal: an own property, or a
    property of [Object.prototype] (a function, or the prototype itself
    under [__proto__]: an object either way, truthy, and [NaN] where a
    number is wanted), or [undefined]. *)
Inductive Indexed (A : Type) :=
| Own (v : A)
| Inherited
| Undefined.

Arguments Own {A} v.
Arguments Inherited {A}.
Arguments Undefined {A}.

Definition indexObject {A : Type} (obj : list (string * A)) (key : string) :
  Indexed A :=
  match property obj key with
  | Some v => Own v
  | None => if bool_decide (key ∈ objectPrototype) then Inherited else Undefined
  end.

(** Truthiness of a number that may be [undefined] or [null]. *)
Definition Rtruthy (x : R) : bool := if Req_dec_T x 0 then false else true.

Definition truthy (o : option R) : bool :=
  match o with
  | Some x => Rtruthy x
  | None => false
  end.

(** [a > b] on numbers. *)
Definition Rgtb (a b : R) : bool := if Rlt_dec b a then true else false.

(** ** types.ts *)

Inductive PatchCategory := Lead | Pad | Bass | Keys | Strings
  | User (* not in the type; the patch browser stores it through a cast *).

Inductive ModSource :=
  LFO | ENV | Gesture_L_H | Gesture_L_V | Gesture_R_H | Gesture_R_V | Gesture_Dist.

Inductive ModDestination := Cutoff | Resonance | Pitch | Gain | Reverb | Delay.

Inductive KeySlideTarget := Slide_Cutoff | Slide_Resonance | Slide_Pitch | Slide_Vibrato.

(** The string a [ModSource] is at run time. *)
Definition sourceName (s : ModSource) : string :=
  match s with
  | LFO => "LFO"
  | ENV => "ENV"
  | Gesture_L_H => "Gesture_L_H"
  | Gesture_L_V => "Gesture_L_V"
  | Gesture_R_H => "Gesture_R_H"
  | Gesture_R_V => "Gesture_R_V"
  | Gesture_Dist => "Gesture_Dist"
  end.

Record ModRoute := {
  source : ModSource;
  destination : ModDestination;
  amount : R
}.

Record HandGesture := {
  x : R;
  y : R;
  active : bool;
  gesture : string;
  isPincer : bool;
  isClosed : bool
}.

Record GestureState := {
  leftHand : HandGesture;
  rightHand : HandGesture;
  distance : R
}.

(** The fields of [SynthSettings] the engine and the gesture effect read or
    write; the presentation fields (patch name, theme, XY pad, visualizer
    mode, LFO depth) are left out. *)
Record SynthSettings := {
  patchCategory : PatchCategory;
  cutoff : R;
  resonance : R;
  reverb : R;
  attack : R;
  release : R;
  detune : R;
  lfoRate : R;
  delayTime : R;
  delayFeedback : R;
  arpEnabled : bool;
  arpRate : R;
  octave : Z;
  pitchBend : R;
  glide : R;
  monoMode : bool;
  modMatrix : list ModRoute;
  keySlideTarget : KeySlideTarget;
  gestureControlEnabled : bool;
  sustain : bool
}.


(** ** The Web Audio objects the engine drives *)

(** One automation call on an [AudioParam]; times are seconds on the audio
    clock. *)
Inductive AutoEvent :=
| SetValueAtTime (v t : R)
| LinearRampToValueAtTime (v t : R)
| ExponentialRampToValueAtTime (v t : R)
| SetTargetAtTime (v t timeConstant : R)
| CancelScheduledValues (t : R).

(** A parameter: what reading [.value] gives, and the calls issued on it,
    oldest first. *)
Record AudioParam := {
  value : R;
  automation : list AutoEvent
}.

Definition newParam (v : R) : AudioParam := {| value := v; automation := [] |}.

Definition call (e : AutoEvent) (p : AudioParam) : AudioParam :=
  {| value := value p; automation := automation p ++ [e] |}.

(** Where an output is connected: the input of a node of the same voice,
    one of its parameters, or the engine's main gain. *)
Inductive Port :=
| ToFilter
| ToNoteGain
| ToMainGain
| ToFilterFrequency
| ToFilterQ
| ToOsc1Frequency
| ToNoteGainGain
| ToLfoFrequency
| ToModGain (i : nat) (* the input of [modGains[i]] *).

Inductive OscillatorType := sine | square | sawtooth | triangle.

Record OscillatorNode := {
  osc_type : OscillatorType;
  osc_frequency : AudioParam;
  osc_detune : AudioParam;
  osc_start : option R;
  osc_stop : option R;
  osc_out : list Port
}.

Record ConstantSourceNode := {
  cs_offset : AudioParam;
  cs_start : option R;
  cs_stop : option R;
  cs_out : list Port
}.

Record GainNode := {
  gain_gain : AudioParam;
  gain_out : list Port
}.

Record BiquadFilterNode := {
  bq_frequency : AudioParam;
  bq_Q : AudioParam;
  bq_out : list Port
}.

Record DelayNode := { delay_delayTime : AudioParam }.

Inductive ContextState := suspended | running | closed.

Record AudioContext := {
  currentTime : R;
  state : ContextState;
  resumeCalls : nat (* how often [resume()] was asked for *)
}.

(** Nodes as [createOscillator], [createConstantSource], [createGain] and
    [createBiquadFilter] return them. *)
Definition createOscillator : OscillatorNode :=
  {| osc_type := sine; osc_frequency := newParam 440; osc_detune := newParam 0;
     osc_start := None; osc_stop := None; osc_out := [] |}.

Definition createConstantSource : ConstantSourceNode :=
  {| cs_offset := newParam 1; cs_start := None; cs_stop := None; cs_out := [] |}.

Definition createGain : GainNode := {| gain_gain := newParam 1; gain_out := [] |}.

Definition createBiquadFilter : BiquadFilterNode :=
  {| bq_frequency := newParam 350; bq_Q := newParam 1; bq_out := [] |}.

Module Osc.
Definition setType (ty : OscillatorType) (o : OscillatorNode) : OscillatorNode :=
    {| osc_type := ty; osc_frequency := osc_frequency o; osc_detune := osc_detune o;
       osc_start := osc_start o; osc_stop := osc_stop o; osc_out := osc_out o |}.
Definition frequency (e : AutoEvent) (o : OscillatorNode) : OscillatorNode :=
    {| osc_type := osc_type o; osc_frequency := call e (osc_frequency o);
       osc_detune := osc_detune o;
       osc_start := osc_start o; osc_stop := osc_stop o; osc_out := osc_out o |}.
Definition detune (e : AutoEvent) (o : OscillatorNode) : OscillatorNode :=
    {| osc_type := osc_type o; osc_frequency := osc_frequency o;
       osc_detune := call e (osc_detune o);
       osc_start := osc_start o; osc_stop := osc_stop o; osc_out := osc_out o |}.
Definition start (t : R) (o : OscillatorNode) : OscillatorNode :=
    {| osc_type := osc_type o; osc_frequency := osc_frequency o; osc_detune := osc_detune o;
       osc_start := Some t; osc_stop := osc_stop o; osc_out := osc_out o |}.
Definition stop (t : R) (o : OscillatorNode) : OscillatorNode :=
    {| osc_type := osc_type o; osc_frequency := osc_frequency o; osc_detune := osc_detune o;
       osc_start := osc_start o; osc_stop := Some t; osc_out := osc_out o |}.
Definition connect (p : Port) (o : OscillatorNode) : OscillatorNode :=
    {| osc_type := osc_type o; osc_frequency := osc_frequency o; osc_detune := osc_detune o;
       osc_start := osc_start o; osc_stop := osc_stop o; osc_out := osc_out o ++ [p] |}.
Definition disconnect (o : OscillatorNode) : OscillatorNode :=
    {| osc_type := osc_type o; osc_frequency := osc_frequency o; osc_detune := osc_detune o;
       osc_start := osc_start o; osc_stop := osc_stop o; osc_out := [] |}.
End Osc.

Module Const.
Definition offset (e : AutoEvent) (n : ConstantSourceNode) : ConstantSourceNode :=
    {| cs_offset := call e (cs_offset n); cs_start := cs_start n; cs_stop := cs_stop n;
       cs_out := cs_out n |}.
Definition start (t : R) (n : ConstantSourceNode) : ConstantSourceNode :=
    {| cs_offset := cs_offset n; cs_start := Some t; cs_stop := cs_stop n;
       cs_out := cs_out n |}.
Definition stop (t : R) (n : ConstantSourceNode) : ConstantSourceNode :=
    {| cs_offset := cs_offset n; cs_start := cs_start n; cs_stop := Some t;
       cs_out := cs_out n |}.
Definition connect (p : Port) (n : ConstantSourceNode) : ConstantSourceNode :=
    {| cs_offset := cs_offset n; cs_start := cs_start n; cs_stop := cs_stop n;
       cs_out := cs_out n ++ [p] |}.
Definition disconnect (n : ConstantSourceNode) : ConstantSourceNode :=
    {| cs_offset := cs_offset n; cs_start := cs_start n; cs_stop := cs_stop n;
       cs_out := [] |}.
End Const.

Module GainN.
Definition gain (e : AutoEvent) (n : GainNode) : GainNode :=
    {| gain_gain := call e (gain_gain n); gain_out := gain_out n |}.
Definition connect (p : Port) (n : GainNode) : GainNode :=
    {| gain_gain := gain_gain n; gain_out := gain_out n ++ [p] |}.
Definition disconnect (n : GainNode) : GainNode :=
    {| gain_gain := gain_gain n; gain_out := [] |}.
End GainN.

Module Biquad.
Definition frequency (e : AutoEvent) (n : BiquadFilterNode) : BiquadFilterNode :=
    {| bq_frequency := call e (bq_frequency n); bq_Q := bq_Q n; bq_out := bq_out n |}.
Definition Q (e : AutoEvent) (n : BiquadFilterNode) : BiquadFilterNode :=
    {| bq_frequency := bq_frequency n; bq_Q := call e (bq_Q n); bq_out := bq_out n |}.
Definition connect (p : Port) (n : BiquadFilterNode) : BiquadFilterNode :=
    {| bq_frequency := bq_frequency n; bq_Q := bq_Q n; bq_out := bq_out n ++ [p] |}.
End Biquad.

(** ** audioService.ts: the state of the engine *)

(** [interface ActiveOscillator]: one sounding voice. *)
Record ActiveOscillator := {
  osc1 : OscillatorNode;
  osc2 : OscillatorNode;
  gain : GainNode;
  filter : BiquadFilterNode;
  lfo : OscillatorNode;
  envSource : ConstantSourceNode;
  slideSource : ConstantSourceNode;
  modGains : list GainNode;
  baseFreq : R;
  released : bool
}.

(** In-place updates of one field of an entry. *)
Definition with_osc1 (f : OscillatorNode -> OscillatorNode) (e : ActiveOscillator) :
  ActiveOscillator :=
  {| osc1 := f (osc1 e); osc2 := osc2 e; gain := gain e; filter := filter e; lfo := lfo
     e; envSource := envSource e; slideSource := slideSource e; modGains := modGains e;
     baseFreq := baseFreq e; released := released e |}.

Definition with_osc2 (f : OscillatorNode -> OscillatorNode) (e : ActiveOscillator) :
  ActiveOscillator :=
  {| osc1 := osc1 e; osc2 := f (osc2 e); gain := gain e; filter := filter e; lfo := lfo
     e; envSource := envSource e; slideSource := slideSource e; modGains := modGains e;
     baseFreq := baseFreq e; released := released e |}.

Definition with_gain (f : GainNode -> GainNode) (e : ActiveOscillator) :
  ActiveOscillator :=
  {| osc1 := osc1 e; osc2 := osc2 e; gain := f (gain e); filter := filter e; lfo := lfo
     e; envSource := envSource e; slideSource := slideSource e; modGains := modGains e;
     baseFreq := baseFreq e; released := released e |}.

Definition with_filter (f : BiquadFilterNode -> BiquadFilterNode) (e : ActiveOscillator) :
  ActiveOscillator :=
  {| osc1 := osc1 e; osc2 := osc2 e; gain := gain e; filter := f (filter e); lfo := lfo
     e; envSource := envSource e; slideSource := slideSource e; modGains := modGains e;
     baseFreq := baseFreq e; released := released e |}.

Definition with_lfo (f : OscillatorNode -> OscillatorNode) (e : ActiveOscillator) :
  ActiveOscillator :=
  {| osc1 := osc1 e; osc2 := osc2 e; gain := gain e; filter := filter e; lfo := f (lfo
     e); envSource := envSource e; slideSource := slideSource e; modGains := modGains e;
     baseFreq := baseFreq e; released := released e |}.

Definition with_envSource (f : ConstantSourceNode -> ConstantSourceNode) (e : ActiveOscillator) :
  ActiveOscillator :=
  {| osc1 := osc1 e; osc2 := osc2 e; gain := gain e; filter := filter e; lfo := lfo e;
     envSource := f (envSource e); slideSource := slideSource e; modGains := modGains e;
     baseFreq := baseFreq e; released := released e |}.

Definition with_slideSource (f : ConstantSourceNode -> ConstantSourceNode) (e : ActiveOscillator) :
  ActiveOscillator :=
  {| osc1 := osc1 e; osc2 := osc2 e; gain := gain e; filter := filter e; lfo := lfo e;
     envSource := envSource e; slideSource := f (slideSource e); modGains := modGains e;
     baseFreq := baseFreq e; released := released e |}.

Definition with_modGains (f : list GainNode -> list GainNode) (e : ActiveOscillator) :
  ActiveOscillator :=
  {| osc1 := osc1 e; osc2 := osc2 e; gain := gain e; filter := filter e; lfo := lfo e;
     envSource := envSource e; slideSource := slideSource e; modGains := f (modGains e);
     baseFreq := baseFreq e; released := released e |}.

Definition with_baseFreq (f : R -> R) (e : ActiveOscillator) :
  ActiveOscillator :=
  {| osc1 := osc1 e; osc2 := osc2 e; gain := gain e; filter := filter e; lfo := lfo e;
     envSource := envSource e; slideSource := slideSource e; modGains := modGains e;
     baseFreq := f (baseFreq e); released := released e |}.

Definition with_released (f : bool -> bool) (e : ActiveOscillator) :
  ActiveOscillator :=
  {| osc1 := osc1 e; osc2 := osc2 e; gain := gain e; filter := filter e; lfo := lfo e;
     envSource := envSource e; slideSource := slideSource e; modGains := modGains e;
     baseFreq := baseFreq e; released := f (released e) |}.

(** A callback handed to [setTimeout], with what its closure captured. *)
Inductive Callback :=
| Teardown (note : string) (entry : nat)
    (* [stopNote]: disconnect the nodes of [entry], drop the map entry *)
| ArpNoteOff (note : option string) (settings : SynthSettings)
    (* [startArp]: [() => this.stopNote(note, settings)] *)
| ArpTick (settings : SynthSettings)
    (* [startArp]: the closure [tick] *).

Record Timer := {
  timer_id : nat;
  timer_delay : R (* milliseconds *);
  timer_callback : Callback
}.

(** [class AudioService].  Objects of type [ActiveOscillator] live in
    [heap], in allocation order, and are referred to by their index: the
    live-voice map and the teardown closures hold references, so that an
    update in place is seen through every reference and [===] on entries is
    equality of indices.  [activeOscillators] is the [Map] as the list of
    its entries in insertion order.  [timers] are the pending timeouts.
    The analyser and the reverb node take no part in what follows and are
    left out. *)
Record AudioService := {
  ctx : option AudioContext;
  mainGain : option GainNode;
  delayNode : option DelayNode;
  delayFeedbackNode : option GainNode;
  heap : list ActiveOscillator;
  activeOscillators : list (string * nat);
  arpTimer : option nat;
  activeNotesForArp : list string;
  currentArpIndex : nat;
  currentPitchBend : R;
  lastFrequency : option R;
  currentSustain : bool;
  timers : list Timer;
  nextTimerId : nat
}.

(** Assignments to one field of the service. *)
Definition set_ctx (v : option AudioContext) (s : AudioService) : AudioService :=
  {| ctx := v; mainGain := mainGain s; delayNode := delayNode s; delayFeedbackNode :=
     delayFeedbackNode s; heap := heap s; activeOscillators := activeOscillators s;
     arpTimer := arpTimer s; activeNotesForArp := activeNotesForArp s; currentArpIndex
     := currentArpIndex s; currentPitchBend := currentPitchBend s; lastFrequency :=
     lastFrequency s; currentSustain := currentSustain s; timers := timers s;
     nextTimerId := nextTimerId s |}.

Definition set_delayNode (v : option DelayNode) (s : AudioService) : AudioService :=
  {| ctx := ctx s; mainGain := mainGain s; delayNode := v; delayFeedbackNode :=
     delayFeedbackNode s; heap := heap s; activeOscillators := activeOscillators s;
     arpTimer := arpTimer s; activeNotesForArp := activeNotesForArp s; currentArpIndex
     := currentArpIndex s; currentPitchBend := currentPitchBend s; lastFrequency :=
     lastFrequency s; currentSustain := currentSustain s; timers := timers s;
     nextTimerId := nextTimerId s |}.

Definition set_delayFeedbackNode (v : option GainNode) (s : AudioService) : AudioService :=
  {| ctx := ctx s; mainGain := mainGain s; delayNode := delayNode s; delayFeedbackNode
     := v; heap := heap s; activeOscillators := activeOscillators s; arpTimer :=
     arpTimer s; activeNotesForArp := activeNotesForArp s; currentArpIndex :=
     currentArpIndex s; currentPitchBend := currentPitchBend s; lastFrequency :=
     lastFrequency s; currentSustain := currentSustain s; timers := timers s;
     nextTimerId := nextTimerId s |}.

Definition set_heap (v : list ActiveOscillator) (s : AudioService) : AudioService :=
  {| ctx := ctx s; mainGain := mainGain s; delayNode := delayNode s; delayFeedbackNode
     := delayFeedbackNode s; heap := v; activeOscillators := activeOscillators s;
     arpTimer := arpTimer s; activeNotesForArp := activeNotesForArp s; currentArpIndex
     := currentArpIndex s; currentPitchBend := currentPitchBend s; lastFrequency :=
     lastFrequency s; currentSustain := currentSustain s; timers := timers s;
     nextTimerId := nextTimerId s |}.

Definition set_activeOscillators (v : list (string * nat)) (s : AudioService) : AudioService :=
  {| ctx := ctx s; mainGain := mainGain s; delayNode := delayNode s; delayFeedbackNode
     := delayFeedbackNode s; heap := heap s; activeOscillators := v; arpTimer :=
     arpTimer s; activeNotesForArp := activeNotesForArp s; currentArpIndex :=
     currentArpIndex s; currentPitchBend := currentPitchBend s; lastFrequency :=
     lastFrequency s; currentSustain := currentSustain s; timers := timers s;
     nextTimerId := nextTimerId s |}.

Definition set_arpTimer (v : option nat) (s : AudioService) : AudioService :=
  {| ctx := ctx s; mainGain := mainGain s; delayNode := delayNode s; delayFeedbackNode
     := delayFeedbackNode s; heap := heap s; activeOscillators := activeOscillators s;
     arpTimer := v; activeNotesForArp := activeNotesForArp s; currentArpIndex :=
     currentArpIndex s; currentPitchBend := currentPitchBend s; lastFrequency :=
     lastFrequency s; currentSustain := currentSustain s; timers := timers s;
     nextTimerId := nextTimerId s |}.

Definition set_activeNotesForArp (v : list string) (s : AudioService) : AudioService :=
  {| ctx := ctx s; mainGain := mainGain s; delayNode := delayNode s; delayFeedbackNode
     := delayFeedbackNode s; heap := heap s; activeOscillators := activeOscillators s;
     arpTimer := arpTimer s; activeNotesForArp := v; currentArpIndex := currentArpIndex
     s; currentPitchBend := currentPitchBend s; lastFrequency := lastFrequency s;
     currentSustain := currentSustain s; timers := timers s; nextTimerId := nextTimerId
     s |}.

Definition set_currentArpIndex (v : nat) (s : AudioService) : AudioService :=
  {| ctx := ctx s; mainGain := mainGain s; delayNode := delayNode s; delayFeedbackNode
     := delayFeedbackNode s; heap := heap s; activeOscillators := activeOscillators s;
     arpTimer := arpTimer s; activeNotesForArp := activeNotesForArp s; currentArpIndex
     := v; currentPitchBend := currentPitchBend s; lastFrequency := lastFrequency s;
     currentSustain := currentSustain s; timers := timers s; nextTimerId := nextTimerId
     s |}.

Definition set_currentPitchBend (v : R) (s : AudioService) : AudioService :=
  {| ctx := ctx s; mainGain := mainGain s; delayNode := delayNode s; delayFeedbackNode
     := delayFeedbackNode s; heap := heap s; activeOscillators := activeOscillators s;
     arpTimer := arpTimer s; activeNotesForArp := activeNotesForArp s; currentArpIndex
     := currentArpIndex s; currentPitchBend := v; lastFrequency := lastFrequency s;
     currentSustain := currentSustain s; timers := timers s; nextTimerId := nextTimerId
     s |}.

Definition set_lastFrequency (v : option R) (s : AudioService) : AudioService :=
  {| ctx := ctx s; mainGain := mainGain s; delayNode := delayNode s; delayFeedbackNode
     := delayFeedbackNode s; heap := heap s; activeOscillators := activeOscillators s;
     arpTimer := arpTimer s; activeNotesForArp := activeNotesForArp s; currentArpIndex
     := currentArpIndex s; currentPitchBend := currentPitchBend s; lastFrequency := v;
     currentSustain := currentSustain s; timers := timers s; nextTimerId := nextTimerId
     s |}.

Definition set_currentSustain (v : bool) (s : AudioService) : AudioService :=
  {| ctx := ctx s; mainGain := mainGain s; delayNode := delayNode s; delayFeedbackNode
     := delayFeedbackNode s; heap := heap s; activeOscillators := activeOscillators s;
     arpTimer := arpTimer s; activeNotesForArp := activeNotesForArp s; currentArpIndex
     := currentArpIndex s; currentPitchBend := currentPitchBend s; lastFrequency :=
     lastFrequency s; currentSustain := v; timers := timers s; nextTimerId :=
     nextTimerId s |}.

Definition set_timers (v : list Timer) (s : AudioService) : AudioService :=
  {| ctx := ctx s; mainGain := mainGain s; delayNode := delayNode s; delayFeedbackNode
     := delayFeedbackNode s; heap := heap s; activeOscillators := activeOscillators s;
     arpTimer := arpTimer s; activeNotesForArp := activeNotesForArp s; currentArpIndex
     := currentArpIndex s; currentPitchBend := currentPitchBend s; lastFrequency :=
     lastFrequency s; currentSustain := currentSustain s; timers := v; nextTimerId :=
     nextTimerId s |}.

Definition set_nextTimerId (v : nat) (s : AudioService) : AudioService :=
  {| ctx := ctx s; mainGain := mainGain s; delayNode := delayNode s; delayFeedbackNode
     := delayFeedbackNode s; heap := heap s; activeOscillators := activeOscillators s;
     arpTimer := arpTimer s; activeNotesForArp := activeNotesForArp s; currentArpIndex
     := currentArpIndex s; currentPitchBend := currentPitchBend s; lastFrequency :=
     lastFrequency s; currentSustain := currentSustain s; timers := timers s;
     nextTimerId := v |}.

(** ** The JavaScript [Map] of live voices and the timer queue *)

Module Map.

Definition get {A : Type} (m : list (string * A)) (key : string) : option A :=
    property m key.

  (** [set]: an existing key keeps its place, a new key goes last. *)
Fixpoint set {A : Type} (m : list (string * A)) (key : string) (v : A) :
    list (string * A) :=
    match m with
    | [] => [(key, v)]
    | (k, w) :: m' =>
        if String.eqb k key then (key, v) :: m' else (k, w) :: set m' key v
    end.

Fixpoint delete {A : Type} (m : list (string * A)) (key : string) :
    list (string * A) :=
    match m with
    | [] => []
    | (k, w) :: m' =>
        if String.eqb k key then delete m' key else (k, w) :: delete m' key
    end.

Definition size {A : Type} (m : list (string * A)) : nat := length m.

  (** [m.entries().next().value]: the oldest entry. *)
Definition first {A : Type} (m : list (string * A)) : option (string * A) :=
    head m.

End Map.

(** An update in place of the entry object [id]. *)
Definition mutate (id : nat) (f : ActiveOscillator -> ActiveOscillator)
  (s : AudioService) : AudioService :=
  set_heap (alter f id (heap s)) s.

(** [this.activeOscillators.forEach(entry => ...)] for a callback that
    only updates the entry it is given. *)
Definition forEachEntry (f : ActiveOscillator -> ActiveOscillator)
  (s : AudioService) : AudioService :=
  fold_left (fun s '(_, id) => mutate id f s) (activeOscillators s) s.

(** [setTimeout]: the handle, and the service with the timer pending. *)
Definition setTimeout (cb : Callback) (ms : R) (s : AudioService) :
  nat * AudioService :=
  let id := nextTimerId s in
  (id,
   set_nextTimerId (S id)
     (set_timers
        (timers s ++ [{| timer_id := id; timer_delay := ms; timer_callback := cb |}])
        s)).

Definition clearTimeout (id : nat) (s : AudioService) : AudioService :=
  set_timers (List.filter (fun t => negb (Nat.eqb (timer_id t) id)) (timers s)) s.

(** ** The methods of [AudioService] *)

Definition newContext (st : ContextState) : AudioContext :=
  {| currentTime := 0; state := st; resumeCalls := 0 |}.

(** The constructor: [init] up to its first [await].  [window] is [None]
    where there is no [window]; otherwise it tells the state the new
    [AudioContext] starts in. *)
Definition construct (window : option ContextState) : AudioService :=
  {| ctx := newContext <$> window;
     mainGain :=
       (fun _ => {| gain_gain := newParam 0.5; gain_out := [] |}) <$> window;
     delayNode := None;
     delayFeedbackNode := None;
     heap := [];
     activeOscillators := [];
     arpTimer := None;
     activeNotesForArp := [];
     currentArpIndex := 0;
     currentPitchBend := 0;
     lastFrequency := None;
     currentSustain := false;
     timers := [];
     nextTimerId := 1 |}.

(** The rest of [init], run once the impulse response is there. *)
Definition initResume (s : AudioService) : AudioService :=
  match ctx s with
  | Some _ =>
      set_delayFeedbackNode (Some createGain)
        (set_delayNode (Some {| delay_delayTime := newParam 0 |}) s)
  | None => s
  end.

Definition getBentFrequency (s : AudioService) (baseFreq : R) : R :=
  let bendRange := 2%R in
  (baseFreq * Rpower 2 (currentPitchBend s * bendRange / 12))%R.

(** The body of the loop of [setPitchBend]. *)
Definition bendEntry (s : AudioService) (now : R) (entry : ActiveOscillator) :
  ActiveOscillator :=
  let bentFreq := getBentFrequency s (baseFreq entry) in
  with_osc2 (Osc.frequency (SetTargetAtTime bentFreq now 0.03))
    (with_osc1 (Osc.frequency (SetTargetAtTime bentFreq now 0.03)) entry).

Definition setPitchBend (value : R) (s : AudioService) : AudioService :=
  let s := set_currentPitchBend value s in
  match ctx s with
  | None => s
  | Some c => forEachEntry (bendEntry s (currentTime c)) s
  end.

Definition updateNoteSlide (note : string) (slide : R) (s : AudioService) :
  AudioService :=
  match Map.get (activeOscillators s) note, ctx s with
  | Some entry, Some c =>
      mutate entry
        (with_slideSource (Const.offset (SetTargetAtTime slide (currentTime c) 0.01)))
        s
  | _, _ => s
  end.

(** How a call ends: it returns, or an exception leaves it.  Either way
    the service is as the call left it. *)
Inductive Outcome :=
| Returned (s : AudioService)
| Threw (s : AudioService).

Definition after (o : Outcome) : AudioService :=
  match o with
  | Returned s => s
  | Threw s => s
  end.

(** [if (this.ctx.state === 'suspended') this.ctx.resume()]. *)
Definition resumeIfSuspended (s : AudioService) : AudioService :=
  match ctx s with
  | Some c =>
      match state c with
      | suspended =>
          set_ctx
            (Some {| currentTime := currentTime c; state := state c;
                     resumeCalls := S (resumeCalls c) |}) s
      | _ => s
      end
  | None => s
  end.

(** The mono branch of [playNote], on the existing entry. *)
Definition retargetEntry (settings : SynthSettings) (now targetFreq baseFreq : R)
  (entry : ActiveOscillator) : ActiveOscillator :=
  let entry :=
    with_osc1 (Osc.frequency (CancelScheduledValues now)) entry in
  let entry :=
    with_osc2 (Osc.frequency (CancelScheduledValues now)) entry in
  let entry :=
    if Rgtb (glide settings) 0 then
      with_osc2
        (Osc.frequency (ExponentialRampToValueAtTime targetFreq (now + glide settings)))
        (with_osc1
           (Osc.frequency
              (ExponentialRampToValueAtTime targetFreq (now + glide settings)))
           entry)
    else
      with_osc2 (Osc.frequency (SetValueAtTime targetFreq now))
        (with_osc1 (Osc.frequency (SetValueAtTime targetFreq now)) entry) in
  with_released (fun _ => false) (with_baseFreq (fun _ => baseFreq) entry).

(** The first two lines of the mono branch, which is as far as it gets
    when the frequency is not a number. *)
Definition cancelEntry (now : R) (entry : ActiveOscillator) : ActiveOscillator :=
  with_osc2 (Osc.frequency (CancelScheduledValues now))
    (with_osc1 (Osc.frequency (CancelScheduledValues now)) entry).

(** The [switch] on [settings.patchCategory]: waveforms and the detune of
    the second oscillator. *)
Definition patchOscillators (settings : SynthSettings) (now : R)
  (osc1 osc2 : OscillatorNode) : OscillatorNode * OscillatorNode :=
  match patchCategory settings with
  | Lead =>
      (Osc.setType sawtooth osc1,
       Osc.detune (SetValueAtTime (detune settings + 12) now) (Osc.setType square osc2))
  | Pad =>
      (Osc.setType sine osc1,
       Osc.detune (SetValueAtTime (detune settings + 7) now) (Osc.setType sawtooth osc2))
  | Bass =>
      (Osc.setType square osc1,
       Osc.detune (SetValueAtTime (-1200) now) (Osc.setType sawtooth osc2))
  | Keys =>
      (Osc.setType sine osc1,
       Osc.detune (SetValueAtTime 1200 now) (Osc.setType sine osc2))
  | Strings =>
      (Osc.setType sawtooth osc1,
       Osc.detune (SetValueAtTime (detune settings + 5) now) (Osc.setType sawtooth osc2))
  | User => (osc1, osc2)
  end.

(** The [switch] on [route.destination]: scale and target. *)
Definition routeScale (d : ModDestination) : R :=
  match d with
  | Cutoff => 6000
  | Resonance => 15
  | Pitch => 800
  | Gain => 0.5
  | Reverb | Delay => 1
  end.

Definition routeTarget (d : ModDestination) : option Port :=
  match d with
  | Cutoff => Some ToFilterFrequency
  | Resonance => Some ToFilterQ
  | Pitch => Some ToOsc1Frequency
  | Gain => Some ToNoteGainGain
  | Reverb | Delay => None
  end.

(** What the loop over [settings.modMatrix] updates. *)
Record Wiring := {
  w_lfo : OscillatorNode;
  w_envSource : ConstantSourceNode;
  w_modGains : list GainNode
}.

(** The body of [settings.modMatrix.forEach(route => ...)].  The new gain
    node becomes [modGains[length modGains]]. *)
Definition wireRoute (now : R) (w : Wiring) (route : ModRoute) : Wiring :=
  let modGain := createGain in
  let scale := routeScale (destination route) in
  match routeTarget (destination route) with
  | Some target =>
      let modGain :=
        GainN.gain (SetValueAtTime (amount route * scale) now) modGain in
      let here := ToModGain (length (w_modGains w)) in
      let lfo :=
        match source route with
        | LFO => Osc.connect here (w_lfo w)
        | _ => w_lfo w
        end in
      let envSource :=
        match source route with
        | ENV => Const.connect here (w_envSource w)
        | _ => w_envSource w
        end in
      let modGain := GainN.connect target modGain in
      {| w_lfo := lfo; w_envSource := envSource;
         w_modGains := w_modGains w ++ [modGain] |}
  | None => w
  end.

(** The [switch] on [settings.keySlideTarget]. *)
Definition slideScale (t : KeySlideTarget) : R :=
  match t with
  | Slide_Cutoff => 12000
  | Slide_Resonance => 30
  | Slide_Pitch => 2400
  | Slide_Vibrato => 20
  end.

Definition slideTarget (t : KeySlideTarget) : Port :=
  match t with
  | Slide_Cutoff => ToFilterFrequency
  | Slide_Resonance => ToFilterQ
  | Slide_Pitch => ToOsc1Frequency
  | Slide_Vibrato => ToLfoFrequency
  end.

(** The allocation branch of [playNote]: the new entry, from the creation
    of its nodes to the object literal stored in the map. *)
Definition newEntry (settings : SynthSettings) (lastFrequency : option R)
  (now targetFreq baseFreq velocity initialSlide : R) : ActiveOscillator :=
  let '(osc1, osc2) :=
    patchOscillators settings now createOscillator createOscillator in
  let gliding := Rgtb (glide settings) 0 && truthy lastFrequency in
  let startFreq := if gliding then default targetFreq lastFrequency else targetFreq in
  let osc1 := Osc.frequency (SetValueAtTime startFreq now) osc1 in
  let osc2 := Osc.frequency (SetValueAtTime startFreq now) osc2 in
  let ramp := ExponentialRampToValueAtTime targetFreq (now + glide settings) in
  let osc1 := if gliding then Osc.frequency ramp osc1 else osc1 in
  let osc2 := if gliding then Osc.frequency ramp osc2 else osc2 in
  let filter :=
    Biquad.Q (SetValueAtTime (resonance settings * 8) now)
      (Biquad.frequency (SetValueAtTime (cutoff settings) now) createBiquadFilter) in
  let lfo :=
    Osc.start 0
      (Osc.frequency (SetValueAtTime (lfoRate settings) now)
         (Osc.setType sine createOscillator)) in
  let attackEnd := (now + Rmax 0.005 (attack settings))%R in
  let envSource :=
    Const.start 0
      (Const.offset (LinearRampToValueAtTime 1 attackEnd)
         (Const.offset (SetValueAtTime 0 now) createConstantSource)) in
  let slideSource :=
    Const.start 0 (Const.offset (SetValueAtTime initialSlide now) createConstantSource) in
  let noteGain :=
    GainN.gain (LinearRampToValueAtTime velocity attackEnd)
      (GainN.gain (SetValueAtTime 0 now) createGain) in
  let w :=
    fold_left (wireRoute now) (modMatrix settings)
      {| w_lfo := lfo; w_envSource := envSource; w_modGains := [] |} in
  let expressionGain :=
    GainN.gain (SetValueAtTime (slideScale (keySlideTarget settings)) now) createGain in
  let slideSource := Const.connect (ToModGain (length (w_modGains w))) slideSource in
  let expressionGain :=
    GainN.connect (slideTarget (keySlideTarget settings)) expressionGain in
  let modGains := w_modGains w ++ [expressionGain] in
  let osc1 := Osc.connect ToFilter osc1 in
  let osc2 := Osc.connect ToFilter osc2 in
  let filter := Biquad.connect ToNoteGain filter in
  let noteGain := GainN.connect ToMainGain noteGain in
  let osc1 := Osc.start now osc1 in
  let osc2 := Osc.start now osc2 in
  {| osc1 := osc1; osc2 := osc2; gain := noteGain; filter := filter;
     lfo := w_lfo w; envSource := w_envSource w; slideSource := slideSource;
     modGains := modGains; baseFreq := baseFreq; released := false |}.

(** The mono branch of [playNote] from its first line on. *)
Definition retarget (note : string) (settings : SynthSettings) (initialSlide : R)
  (now targetFreq baseFreq : R) (s : AudioService) : AudioService :=
  match Map.first (activeOscillators s) with
  | Some (existingNote, entry) =>
      let s := mutate entry (retargetEntry settings now targetFreq baseFreq) s in
      let s :=
        if negb (String.eqb existingNote note) then
          set_activeOscillators
            (Map.set (Map.delete (activeOscillators s) existingNote) note entry) s
        else s in
      let s := set_lastFrequency (Some targetFreq) s in
      updateNoteSlide note initialSlide s
  | None => s
  end.

(** The rest of [playNote]: a new entry goes on the heap and into the map. *)
Definition allocate (note : string) (settings : SynthSettings)
  (velocity initialSlide : R) (now targetFreq baseFreq : R) (s : AudioService) :
  AudioService :=
  let entry :=
    newEntry settings (lastFrequency s) now targetFreq baseFreq velocity initialSlide in
  let id := length (heap s) in
  let s := set_heap (heap s ++ [entry]) s in
  let s := set_activeOscillators (Map.set (activeOscillators s) note id) s in
  set_lastFrequency (Some targetFreq) s.

(** Where the table is indexed by a name that objects inherit, [baseFreq]
    is an object and [targetFreq] is [NaN]: the first automation call that
    is handed the frequency raises a TypeError.  In the mono branch the two
    [cancelScheduledValues] come before it; in the other branch the nodes
    made so far are stored nowhere.  This is the service at the TypeError. *)
Definition atTypeError (settings : SynthSettings) (now : R) (s : AudioService) :
  AudioService :=
  if monoMode settings && Nat.ltb 0 (Map.size (activeOscillators s)) then
    match Map.first (activeOscillators s) with
    | Some (_, entry) => mutate entry (cancelEntry now) s
    | None => s
    end
  else s.

(** [playNote(note, settings, velocity = 0.4, initialSlide = 0.5)]; the
    callers pass the defaults.  This is the call on a string [note], with
    how it ends. *)
Definition playNoteCall (note : string) (settings : SynthSettings)
  (velocity initialSlide : R) (s : AudioService) : Outcome :=
  match ctx s, mainGain s with
  | Some c, Some _ =>
      let s := resumeIfSuspended s in
      match indexObject FREQUENCIES (shiftedNote note (octave settings)) with
      | Undefined => Returned s
      | Own baseFreq =>
          if negb (Rtruthy baseFreq) then Returned s
          else
            let now := currentTime c in
            let targetFreq := getBentFrequency s baseFreq in
            if monoMode settings && Nat.ltb 0 (Map.size (activeOscillators s)) then
              Returned (retarget note settings initialSlide now targetFreq baseFreq s)
            else
              Returned
                (allocate note settings velocity initialSlide now targetFreq baseFreq s)
      | Inherited => Threw (atTypeError settings (currentTime c) s)
      end
  | _, _ => Returned s
  end.

(** The service as [playNote] leaves it, whether it returned or raised. *)
Definition playNote (note : string) (settings : SynthSettings)
  (velocity initialSlide : R) (s : AudioService) : AudioService :=
  after (playNoteCall note settings velocity initialSlide s).

(** The release branch of [stopNote], on the entry. *)
Definition releaseEntry (now releaseTime : R) (entry : ActiveOscillator) :
  ActiveOscillator :=
  let entry :=
    with_gain
      (fun g =>
         GainN.gain (ExponentialRampToValueAtTime 0.001 (now + releaseTime))
           (GainN.gain (SetValueAtTime (value (gain_gain g)) now)
              (GainN.gain (CancelScheduledValues now) g)))
      entry in
  let entry :=
    with_envSource
      (fun n =>
         Const.offset (ExponentialRampToValueAtTime 0.001 (now + releaseTime))
           (Const.offset (SetValueAtTime (value (cs_offset n)) now)
              (Const.offset (CancelScheduledValues now) n)))
      entry in
  let stopAt := (now + releaseTime + 0.1)%R in
  with_slideSource (Const.stop stopAt)
    (with_envSource (Const.stop stopAt)
       (with_lfo (Osc.stop stopAt)
          (with_osc2 (Osc.stop stopAt) (with_osc1 (Osc.stop stopAt) entry)))).

(** The first two lines of the teardown callback. *)
Definition disconnectEntry (entry : ActiveOscillator) : ActiveOscillator :=
  with_modGains (fmap GainN.disconnect)
    (with_slideSource Const.disconnect
       (with_envSource Const.disconnect
          (with_lfo Osc.disconnect
             (with_gain GainN.disconnect
                (with_osc2 Osc.disconnect (with_osc1 Osc.disconnect entry)))))).

(** [this.activeOscillators.get(note) === entry]. *)
Definition sameEntry (found : option nat) (entry : nat) : bool :=
  match found with
  | Some id => Nat.eqb id entry
  | None => false
  end.

(** The callback [stopNote] hands to [setTimeout]. *)
Definition teardown (note : string) (entry : nat) (s : AudioService) : AudioService :=
  let s := mutate entry disconnectEntry s in
  if sameEntry (Map.get (activeOscillators s) note) entry then
    set_activeOscillators (Map.delete (activeOscillators s) note) s
  else s.

(** [stopNote(note, settings, immediate = false)]. *)
Definition stopNote (note : string) (settings : SynthSettings) (immediate : bool)
  (s : AudioService) : AudioService :=
  match Map.get (activeOscillators s) note, ctx s with
  | Some entry, Some c =>
      if currentSustain s && negb immediate then
        mutate entry (with_released (fun _ => true)) s
      else
        let now := currentTime c in
        let releaseTime := if immediate then 0.01%R else release settings in
        let s := mutate entry (releaseEntry now releaseTime) s in
        snd (setTimeout (Teardown note entry) ((releaseTime + 0.2) * 1000) s)
  | _, _ => s
  end.

(** The body of the loop of the sustain release in [updateGlobalParams]:
    [if (entry.released) this.stopNote(note, settings)]. *)
Definition releaseIfReleased (settings : SynthSettings) (s : AudioService)
  (item : string * nat) : AudioService :=
  let '(note, id) := item in
  match heap s !! id with
  | Some entry => if released entry then stopNote note settings false s else s
  | None => s
  end.

(** The loop of the sustain release. *)
Definition releaseSustained (settings : SynthSettings) (s : AudioService) :
  AudioService :=
  fold_left (releaseIfReleased settings) (activeOscillators s) s.

(** The body of the second loop of [updateGlobalParams]. *)
Definition broadcastEntry (settings : SynthSettings) (now : R)
  (entry : ActiveOscillator) : ActiveOscillator :=
  with_lfo (Osc.frequency (SetTargetAtTime (lfoRate settings) now 0.05))
    (with_filter
       (fun f =>
          Biquad.Q (SetTargetAtTime (resonance settings * 8) now 0.05)
            (Biquad.frequency (SetTargetAtTime (cutoff settings) now 0.05) f))
       entry).

Definition updateGlobalParams (settings : SynthSettings) (s : AudioService) :
  AudioService :=
  match ctx s, delayNode s, delayFeedbackNode s with
  | Some c, Some dn, Some dfn =>
      let now := currentTime c in
      let s :=
        if currentSustain s && negb (sustain settings) then
          releaseSustained settings (set_currentSustain false s)
        else s in
      let s := set_currentSustain (sustain settings) s in
      let s :=
        set_delayNode
          (Some
             {| delay_delayTime :=
                  call (SetTargetAtTime (delayTime settings) now 0.1)
                    (delay_delayTime dn) |}) s in
      let s :=
        set_delayFeedbackNode
          (Some (GainN.gain (SetTargetAtTime (delayFeedback settings) now 0.1) dfn)) s in
      let s := forEachEntry (broadcastEntry settings now) s in
      if Req_dec_T (pitchBend settings) (currentPitchBend s) then s
      else setPitchBend (pitchBend settings) s
  | _, _, _ => s
  end.

(** *** The arpeggiator *)

(** The order of [Array.prototype.sort] without a comparator: strings by
    their code units. *)
Definition codeUnitLe (a b : string) : Prop := String.leb a b = true.

#[global] Instance codeUnitLe_dec (a b : string) : Decision (codeUnitLe a b).
Proof. unfold codeUnitLe. apply _. Defined.

(** [[...notes].sort()]. *)
Definition sortNotes (notes : list string) : list string :=
  merge_sort codeUnitLe notes.

(** Truthiness of a timer handle that may be [null]. *)
Definition handleTruthy (h : option nat) : bool :=
  match h with
  | Some id => negb (Nat.eqb id 0)
  | None => false
  end.

Definition stopArp (s : AudioService) : AudioService :=
  let s :=
    match arpTimer s with
    | Some id => if handleTruthy (Some id) then set_arpTimer None (clearTimeout id s) else s
    | None => s
    end in
  set_currentArpIndex 0 s.

(** [this.playNote(note, settings, 0.3)] in [tick], where [note] is what
    indexing the sequence gave: [None] is [undefined], on which
    [note.match] is a TypeError once the two guards of [playNote] are
    passed. *)
Definition arpPlayNote (note : option string) (settings : SynthSettings)
  (s : AudioService) : Outcome :=
  match note with
  | Some n => playNoteCall n settings 0.3 0.5 s
  | None =>
      match ctx s, mainGain s with
      | Some _, Some _ => Threw (resumeIfSuspended s)
      | _, _ => Returned s
      end
  end.

(** Whether [window] is defined.  The constructor makes the context
    exactly where it is, and nothing takes the context away: the model
    reads the one off the other. *)
Definition windowDefined (s : AudioService) : bool :=
  match ctx s with
  | Some _ => true
  | None => false
  end.

(** The closure [tick] of [startArp].  The note-off goes through the
    global [setTimeout]; the next tick through [window.setTimeout], a
    ReferenceError where there is no [window]. *)
Definition tick (settings : SynthSettings) (s : AudioService) : Outcome :=
  if Nat.eqb (length (activeNotesForArp s)) 0 then Returned (stopArp s)
  else
    let note := activeNotesForArp s !! currentArpIndex s in
    match arpPlayNote note settings s with
    | Threw s => Threw s
    | Returned s =>
        let duration := (60 / arpRate settings * 0.8)%R in
        let s := snd (setTimeout (ArpNoteOff note settings) (duration * 1000) s) in
        let s :=
          set_currentArpIndex
            ((currentArpIndex s + 1) mod length (activeNotesForArp s)) s in
        if windowDefined s then
          let '(id, s) :=
            setTimeout (ArpTick settings) (60 / arpRate settings * 1000) s in
          Returned (set_arpTimer (Some id) s)
        else Threw s
    end.

Definition startArp (notes : list string) (settings : SynthSettings)
  (s : AudioService) : Outcome :=
  let s := set_activeNotesForArp (sortNotes notes) s in
  if handleTruthy (arpTimer s) then Returned s else tick settings s.

(** ** The event loop and the environment *)

Definition runCallback (cb : Callback) (s : AudioService) : Outcome :=
  match cb with
  | Teardown note entry => Returned (teardown note entry s)
  | ArpNoteOff (Some note) settings => Returned (stopNote note settings false s)
  | ArpNoteOff None _ => Returned s (* no entry is stored under [undefined] *)
  | ArpTick settings => tick settings s
  end.

(** The pending timer [id] comes due: it leaves the queue and its callback
    runs. *)
Definition fire (id : nat) (s : AudioService) : Outcome :=
  match List.find (fun t => Nat.eqb (timer_id t) id) (timers s) with
  | Some t => runCallback (timer_callback t) (clearTimeout id s)
  | None => Returned s
  end.

(** The audio clock moves on by [dt]. *)
Definition clock (dt : R) (s : AudioService) : AudioService :=
  match ctx s with
  | Some c =>
      set_ctx
        (Some {| currentTime := currentTime c + dt; state := state c;
                 resumeCalls := resumeCalls c |}) s
  | None => s
  end.

(** The audio context changes state (a [resume()] takes effect, the
    browser suspends it). *)
Definition contextState (st : ContextState) (s : AudioService) : AudioService :=
  match ctx s with
  | Some c =>
      set_ctx
        (Some {| currentTime := currentTime c; state := st;
                 resumeCalls := resumeCalls c |}) s
  | None => s
  end.

(** What can happen to the engine: a call of one of its public methods, a
    timer coming due, the rest of [init], the environment. *)
Inductive Op :=
| InitResume
| SetPitchBend (value : R)
| UpdateNoteSlide (note : string) (slide : R)
| PlayNote (note : string) (settings : SynthSettings) (velocity initialSlide : R)
| StopNote (note : string) (settings : SynthSettings) (immediate : bool)
| UpdateGlobalParams (settings : SynthSettings)
| StartArp (notes : list string) (settings : SynthSettings)
| StopArp
| Fire (id : nat)
| Clock (dt : R)
| ContextState_ (st : ContextState).

Definition exec (op : Op) (s : AudioService) : Outcome :=
  match op with
  | InitResume => Returned (initResume s)
  | SetPitchBend value => Returned (setPitchBend value s)
  | UpdateNoteSlide note slide => Returned (updateNoteSlide note slide s)
  | PlayNote note settings velocity initialSlide =>
      playNoteCall note settings velocity initialSlide s
  | StopNote note settings immediate => Returned (stopNote note settings immediate s)
  | UpdateGlobalParams settings => Returned (updateGlobalParams settings s)
  | StartArp notes settings => startArp notes settings s
  | StopArp => Returned (stopArp s)
  | Fire id => fire id s
  | Clock dt => Returned (clock dt s)
  | ContextState_ st => Returned (contextState st s)
  end.

(** A history: the operations one after the other.  An exception ends the
    call it leaves, not the program. *)
Definition run (ops : list Op) (s : AudioService) : AudioService :=
  fold_left (fun s op => after (exec op s)) ops s.

(** The states the engine can be in: those a history leads to from the
    constructor. *)
Definition reachable (s : AudioService) : Prop :=
  exists window ops, s = run ops (construct window).

(** ** App.tsx: the gesture effect

    The effect that folds a gesture reading into the settings.  First the
    settings with one key replaced, [{ ...prev, key: v }], for the keys
    that are replaced below. *)

Definition assign_cutoff (v : R) (s : SynthSettings) : SynthSettings :=
  {| patchCategory := patchCategory s; cutoff := v; resonance := resonance s; reverb :=
     reverb s; attack := attack s; release := release s; detune := detune s; lfoRate :=
     lfoRate s; delayTime := delayTime s; delayFeedback := delayFeedback s; arpEnabled
     := arpEnabled s; arpRate := arpRate s; octave := octave s; pitchBend := pitchBend
     s; glide := glide s; monoMode := monoMode s; modMatrix := modMatrix s;
     keySlideTarget := keySlideTarget s; gestureControlEnabled := gestureControlEnabled
     s; sustain := sustain s |}.

Definition assign_resonance (v : R) (s : SynthSettings) : SynthSettings :=
  {| patchCategory := patchCategory s; cutoff := cutoff s; resonance := v; reverb :=
     reverb s; attack := attack s; release := release s; detune := detune s; lfoRate :=
     lfoRate s; delayTime := delayTime s; delayFeedback := delayFeedback s; arpEnabled
     := arpEnabled s; arpRate := arpRate s; octave := octave s; pitchBend := pitchBend
     s; glide := glide s; monoMode := monoMode s; modMatrix := modMatrix s;
     keySlideTarget := keySlideTarget s; gestureControlEnabled := gestureControlEnabled
     s; sustain := sustain s |}.

Definition assign_reverb (v : R) (s : SynthSettings) : SynthSettings :=
  {| patchCategory := patchCategory s; cutoff := cutoff s; resonance := resonance s;
     reverb := v; attack := attack s; release := release s; detune := detune s; lfoRate
     := lfoRate s; delayTime := delayTime s; delayFeedback := delayFeedback s;
     arpEnabled := arpEnabled s; arpRate := arpRate s; octave := octave s; pitchBend :=
     pitchBend s; glide := glide s; monoMode := monoMode s; modMatrix := modMatrix s;
     keySlideTarget := keySlideTarget s; gestureControlEnabled := gestureControlEnabled
     s; sustain := sustain s |}.

Definition assign_delayFeedback (v : R) (s : SynthSettings) : SynthSettings :=
  {| patchCategory := patchCategory s; cutoff := cutoff s; resonance := resonance s;
     reverb := reverb s; attack := attack s; release := release s; detune := detune s;
     lfoRate := lfoRate s; delayTime := delayTime s; delayFeedback := v; arpEnabled :=
     arpEnabled s; arpRate := arpRate s; octave := octave s; pitchBend := pitchBend s;
     glide := glide s; monoMode := monoMode s; modMatrix := modMatrix s; keySlideTarget
     := keySlideTarget s; gestureControlEnabled := gestureControlEnabled s; sustain :=
     sustain s |}.

Definition assign_modMatrix (v : list ModRoute) (s : SynthSettings) : SynthSettings :=
  {| patchCategory := patchCategory s; cutoff := cutoff s; resonance := resonance s;
     reverb := reverb s; attack := attack s; release := release s; detune := detune s;
     lfoRate := lfoRate s; delayTime := delayTime s; delayFeedback := delayFeedback s;
     arpEnabled := arpEnabled s; arpRate := arpRate s; octave := octave s; pitchBend :=
     pitchBend s; glide := glide s; monoMode := monoMode s; modMatrix := v;
     keySlideTarget := keySlideTarget s; gestureControlEnabled := gestureControlEnabled
     s; sustain := sustain s |}.

Definition assign_monoMode (v : bool) (s : SynthSettings) : SynthSettings :=
  {| patchCategory := patchCategory s; cutoff := cutoff s; resonance := resonance s;
     reverb := reverb s; attack := attack s; release := release s; detune := detune s;
     lfoRate := lfoRate s; delayTime := delayTime s; delayFeedback := delayFeedback s;
     arpEnabled := arpEnabled s; arpRate := arpRate s; octave := octave s; pitchBend :=
     pitchBend s; glide := glide s; monoMode := v; modMatrix := modMatrix s;
     keySlideTarget := keySlideTarget s; gestureControlEnabled := gestureControlEnabled
     s; sustain := sustain s |}.

Definition assign_sustain (v : bool) (s : SynthSettings) : SynthSettings :=
  {| patchCategory := patchCategory s; cutoff := cutoff s; resonance := resonance s;
     reverb := reverb s; attack := attack s; release := release s; detune := detune s;
     lfoRate := lfoRate s; delayTime := delayTime s; delayFeedback := delayFeedback s;
     arpEnabled := arpEnabled s; arpRate := arpRate s; octave := octave s; pitchBend :=
     pitchBend s; glide := glide s; monoMode := monoMode s; modMatrix := modMatrix s;
     keySlideTarget := keySlideTarget s; gestureControlEnabled := gestureControlEnabled
     s; sustain := v |}.

(** The [switch] on [route.source]. *)
Definition sourceValue (gestureData : GestureState) (src : ModSource) : R :=
  match src with
  | Gesture_L_H => x (leftHand gestureData)
  | Gesture_L_V => y (leftHand gestureData)
  | Gesture_R_H => x (rightHand gestureData)
  | Gesture_R_V => y (rightHand gestureData)
  | Gesture_Dist => distance gestureData
  | LFO | ENV => 0
  end.

Definition poseMult (gestureData : GestureState) : R :=
  if isClosed (leftHand gestureData) || isClosed (rightHand gestureData)
  then 1.5%R else 1.0%R.

(** The body of [prev.modMatrix.forEach(route => ...)]. *)
Definition applyRoute (gestureData : GestureState) (next : SynthSettings)
  (route : ModRoute) : SynthSettings :=
  if negb (JS.startsWith (sourceName (source route)) "Gesture") then next
  else
    let amt := (sourceValue gestureData (source route) * amount route)%R in
    let finalAmt := (amt * poseMult gestureData)%R in
    match destination route with
    | Cutoff => assign_cutoff (Rmax 50 (Rmin 10000 (2000 + finalAmt * 8000))) next
    | Resonance => assign_resonance (Rmax 0.1 (Rmin 10 (1 + finalAmt * 9))) next
    | Reverb => assign_reverb (Rmax 0 (Rmin 1 finalAmt)) next
    | Delay => assign_delayFeedback (Rmax 0 (Rmin 0.9 (finalAmt * 0.9))) next
    | Pitch | Gain => next
    end.

(** The updater handed to [setSettings]: one gesture-evaluation tick. *)
Definition gestureUpdate (gestureData : GestureState) (prev : SynthSettings) :
  SynthSettings :=
  let isLHandSustaining :=
    active (leftHand gestureData) && isPincer (leftHand gestureData) in
  let isRHandSustaining :=
    active (rightHand gestureData) && isPincer (rightHand gestureData) in
  let next := assign_sustain (isLHandSustaining || isRHandSustaining) prev in
  fold_left (applyRoute gestureData) (modMatrix prev) next.

(** The effect: nothing without a reading or with gesture control off. *)
Definition gestureEffect (gestureData : option GestureState)
  (settings prev : SynthSettings) : SynthSettings :=
  match gestureData with
  | Some g => if gestureControlEnabled settings then gestureUpdate g prev else prev
  | None => prev
  end.

(** The setting a destination stands for in the gesture effect; pitch and
    gain have none. *)
Definition destinationSetting (d : ModDestination) (s : SynthSettings) : option R :=
  match d with
  | Cutoff => Some (cutoff s)
  | Resonance => Some (resonance s)
  | Reverb => Some (reverb s)
  | Delay => Some (delayFeedback s)
  | Pitch | Gain => None
  end.

Definition gestureSourced (route : ModRoute) : bool :=
  JS.startsWith (sourceName (source route)) "Gesture".

(** [INITIAL_SETTINGS] of constants.ts, as [App] completes it. *)
Definition INITIAL_SETTINGS : SynthSettings :=
  {| patchCategory := Lead;
     cutoff := 2000;
     resonance := 1;
     reverb := 0.3;
     attack := 0.1;
     release := 0.5;
     detune := 0;
     lfoRate := 5;
     delayTime := 0.3;
     delayFeedback := 0.4;
     arpEnabled := false;
     arpRate := 120;
     octave := 0;
     pitchBend := 0;
     glide := 0.1;
     monoMode := false;
     modMatrix :=
       [ {| source := LFO; destination := Cutoff; amount := 0.2 |};
         {| source := ENV; destination := Cutoff; amount := 0.5 |} ];
     keySlideTarget := Slide_Cutoff;
     gestureControlEnabled := false;
     sustain := false |}.

(** ** App.tsx: the XY pad, the pages *)

Inductive XYTarget := XY_None | XY_Cutoff | XY_Resonance | XY_Reverb | XY_Delay | XY_LFORate.

Inductive Axis := AxisX | AxisY.

(** [settings.xyPadValue]. *)
Record XYValue := { pad_x : R; pad_y : R }.

(** [SynthSettings] with the XY pad fields, which the record above leaves
    out: the state [App] keeps. *)
Record AppSettings := {
  synth : SynthSettings;
  xyPadXTarget : XYTarget;
  xyPadYTarget : XYTarget;
  xyPadValue : XYValue
}.

Definition assign_lfoRate (v : R) (s : SynthSettings) : SynthSettings :=
  {| patchCategory := patchCategory s; cutoff := cutoff s; resonance := resonance s;
     reverb := reverb s; attack := attack s; release := release s; detune := detune s;
     lfoRate := v; delayTime := delayTime s; delayFeedback := delayFeedback s;
     arpEnabled := arpEnabled s; arpRate := arpRate s; octave := octave s; pitchBend :=
     pitchBend s; glide := glide s; monoMode := monoMode s; modMatrix := modMatrix s;
     keySlideTarget := keySlideTarget s; gestureControlEnabled := gestureControlEnabled
     s; sustain := sustain s |}.

(** [{ ...prev.xyPadValue, [axis]: val }]. *)
Definition assign_axis (axis : Axis) (val : R) (v : XYValue) : XYValue :=
  match axis with
  | AxisX => {| pad_x := val; pad_y := pad_y v |}
  | AxisY => {| pad_x := pad_x v; pad_y := val |}
  end.

(** The [switch] of [handleXYChange]. *)
Definition applyTarget (target : XYTarget) (val : R) (next : SynthSettings) :
  SynthSettings :=
  match target with
  | XY_Cutoff => assign_cutoff (50 + val * 9950) next
  | XY_Resonance => assign_resonance (0.1 + val * 9.9) next
  | XY_Reverb => assign_reverb val next
  | XY_Delay => assign_delayFeedback (val * 0.9) next
  | XY_LFORate => assign_lfoRate (0.1 + val * 19.9) next
  | XY_None => next
  end.

(** [handleXYChange(axis, val)]: [settings] is the state the callback
    closed over, which the target is read from; [prev] is the state the
    updater is applied to. *)
Definition handleXYChange (settings : AppSettings) (axis : Axis) (val : R)
  (prev : AppSettings) : AppSettings :=
  let target :=
    match axis with
    | AxisX => xyPadXTarget settings
    | AxisY => xyPadYTarget settings
    end in
  {| synth := applyTarget target val (synth prev);
     xyPadXTarget := xyPadXTarget prev;
     xyPadYTarget := xyPadYTarget prev;
     xyPadValue := assign_axis axis val (xyPadValue prev) |}.

(** The [onValueChange] handed to [XYPad]: the update of x, then that of y. *)
Definition onValueChange (settings : AppSettings) (val : XYValue) (prev : AppSettings) :
  AppSettings :=
  handleXYChange settings AxisY (pad_y val) (handleXYChange settings AxisX (pad_x val) prev).

(** [getBoundingClientRect()]. *)
Record DOMRect := {
  rect_left : R;
  rect_top : R;
  rect_width : R;
  rect_height : R
}.

(** XYPad.tsx, [updateValue]: the value handed to [onValueChange] for a
    pointer at [(clientX, clientY)]. *)
Definition updateValue (rect : DOMRect) (clientX clientY : R) : XYValue :=
  {| pad_x := Rmax 0 (Rmin 1 ((clientX - rect_left rect) / rect_width rect));
     pad_y := Rmax 0 (Rmin 1 (1 - (clientY - rect_top rect) / rect_height rect)) |}.

Definition totalPages : Z := 8.

(** [%] on integers: the remainder has the sign of the dividend. *)
Definition nextPage (p : Z) : Z := Z.rem (p + 1) totalPages.

Definition prevPage (p : Z) : Z := Z.rem (p - 1 + totalPages) totalPages.

(** ** constants.ts: the computer keyboard *)

Definition KEY_MAP : list (string * string) :=
  [("z", "C3"); ("s", "C#3"); ("x", "D3"); ("d", "D#3"); ("c", "E3"); ("v", "F3");
   ("g", "F#3"); ("b", "G3"); ("h", "G#3"); ("n", "A3"); ("j", "A#3"); ("m", "B3");
   ("a", "C4"); ("w", "C#4"); ("e", "D4"); ("r", "D#4"); ("t", "E4"); ("y", "F4");
   ("u", "F#4"); ("i", "G4"); ("o", "G#4"); ("p", "A4"); ("[", "A#4"); ("]", "B4")].

(** ** Keyboard.tsx *)

(** [Object.keys]: the names of the properties, in insertion order. *)
Definition objectKeys {A : Type} (obj : list (string * A)) : list string := obj.*1.

(** [Array.prototype.indexOf]; [None] is -1. *)
Fixpoint indexOf (l : list string) (x : string) : option nat :=
  match l with
  | [] => None
  | y :: l' => if String.eqb y x then Some 0 else S <$> indexOf l' x
  end.

(** Truthiness of a string. *)
Definition strTruthy (s : string) : bool := negb (String.eqb s "").

(** [a || b] where [a] is a string or [undefined]. *)
Definition orElse (a : option string) (b : string) : string :=
  match a with
  | Some s => if strTruthy s then s else b
  | None => b
  end.

Definition getChordNotes (chordMode : bool) (rootNote : string) : list string :=
  if negb chordMode then [rootNote]
  else
    let notesArray := objectKeys FREQUENCIES in
    match indexOf notesArray rootNote with
    | None => [rootNote]
    | Some rootIndex =>
        let third := orElse (notesArray !! (rootIndex + 4)) rootNote in
        let fifth := orElse (notesArray !! (rootIndex + 7)) rootNote in
        [rootNote; third; fifth]
    end.

(** A [Set] of strings, as the list of its elements in insertion order. *)
Module StringSet.
Definition has (l : list string) (x : string) : bool := bool_decide (x ∈ l).
Definition add (l : list string) (x : string) : list string :=
  if has l x then l else l ++ [x].
Definition delete (l : list string) (x : string) : list string :=
  List.filter (fun y => negb (String.eqb y x)) l.
End StringSet.

(** What the keyboard component works on: its state [activeNotes], the
    ref that mirrors it, and the engine. *)
Record Keyboard := {
  activeNotes : list string;
  activeNotesRef : list string;
  engine : AudioService
}.

(** What a listener or a note handler of the keyboard leaves: the
    keyboard, where it ran to its end.  [Raised] is [playNote] raising
    inside the updater handed to [setActiveNotes]: the updater returns no
    set, and the engine is as the exception left it.  [NotAName] is a
    listener going on with what [KEY_MAP] gives under a name that every
    object inherits, a function or an object: it is truthy, and is handed
    on as if it were the name of a note.  The notes of this model are
    strings, and that is where it stops following the listener. *)
Inductive KeyResult :=
| Handled (k : Keyboard)
| Raised (engine : AudioService)
| NotAName.

(** The body of [notesToPlay.forEach] in [handleNoteStart], for a
    [playNote] that returns. *)
Definition startOne (settings : SynthSettings) (slide : R) (k : Keyboard) (n : string) :
  Keyboard :=
  {| activeNotes := StringSet.add (activeNotes k) n;
     activeNotesRef := activeNotesRef k;
     engine :=
       if negb (arpEnabled settings) then playNote n settings 0.4 slide (engine k)
       else engine k |}.

(** [notesToPlay.forEach(...)] in the updater of [handleNoteStart]: each
    note joins the set and, with the arpeggiator off, is played; an
    exception of [playNote] ends the loop and the updater. *)
Fixpoint startNotes (settings : SynthSettings) (slide : R) (notes : list string)
  (k : Keyboard) : KeyResult :=
  match notes with
  | [] => Handled k
  | n :: notes' =>
      if negb (arpEnabled settings) then
        match playNoteCall n settings 0.4 slide (engine k) with
        | Returned engine' =>
            startNotes settings slide notes'
              {| activeNotes := StringSet.add (activeNotes k) n;
                 activeNotesRef := activeNotesRef k;
                 engine := engine' |}
        | Threw engine' => Raised engine'
        end
      else startNotes settings slide notes' (startOne settings slide k n)
  end.

Definition handleNoteStart (settings : SynthSettings) (chordMode : bool)
  (note : string) (slide : R) (k : Keyboard) : KeyResult :=
  startNotes settings slide (getChordNotes chordMode note) k.

(** The body of [notesToStop.forEach] in [handleNoteEnd]. *)
Definition endOne (settings : SynthSettings) (k : Keyboard) (n : string) : Keyboard :=
  {| activeNotes := StringSet.delete (activeNotes k) n;
     activeNotesRef := activeNotesRef k;
     engine :=
       if negb (arpEnabled settings) then stopNote n settings false (engine k)
       else engine k |}.

Definition handleNoteEnd (settings : SynthSettings) (chordMode : bool)
  (note : string) (k : Keyboard) : Keyboard :=
  fold_left (endOne settings) (getChordNotes chordMode note) k.

(** The effect that copies [activeNotes] into the ref after a render. *)
Definition syncRef (k : Keyboard) : Keyboard :=
  {| activeNotes := activeNotes k; activeNotesRef := activeNotes k; engine := engine k |}.

(** [String.prototype.toLowerCase] on a string of ASCII characters. *)
Definition lowerChar (c : ascii) : ascii :=
  let n := nat_of_ascii c in
  if Nat.leb 65 n && Nat.leb n 90 then ascii_of_nat (n + 32) else c.

Fixpoint toLowerCase (s : string) : string :=
  match s with
  | EmptyString => EmptyString
  | String c s' => String (lowerChar c) (toLowerCase s')
  end.

(** The [keydown] listener; [repeat] and [key] are those of the event. *)
Definition onKeyDown (settings : SynthSettings) (chordMode : bool) (repeat : bool)
  (key : string) (k : Keyboard) : KeyResult :=
  if repeat then Handled k
  else
    match indexObject KEY_MAP (toLowerCase key) with
    | Own note =>
        if strTruthy note && negb (StringSet.has (activeNotesRef k) note)
        then handleNoteStart settings chordMode note 0.5 k
        else Handled k
    | Inherited => NotAName
    | Undefined => Handled k
    end.

Definition onKeyUp (settings : SynthSettings) (chordMode : bool) (key : string)
  (k : Keyboard) : KeyResult :=
  match indexObject KEY_MAP (toLowerCase key) with
  | Own note =>
      if strTruthy note then Handled (handleNoteEnd settings chordMode note k)
      else Handled k
  | Inherited => NotAName
  | Undefined => Handled k
  end.

(** The notes of the keys drawn on the screen: two octaves from C3, and C5. *)
Definition notePattern : list string :=
  ["C"; "C#"; "D"; "D#"; "E"; "F"; "F#"; "G"; "G#"; "A"; "A#"; "B"].

Definition screenNotes : list string :=
  concat ((fun octave => (fun note => (note ++ pretty octave)%string) <$> notePattern)
            <$> seqZ 3 2)
  ++ ["C5"].

(** ** PitchWheel.tsx *)

(** [handlePointerMove]: the value handed to [onChange] for a pointer at
    height [clientY] over the wheel [rect]. *)
Definition wheelValue (rect : DOMRect) (clientY : R) : R :=
  let centerY := (rect_top rect + rect_height rect / 2)%R in
  let deltaY := (centerY - clientY)%R in
  let maxDelta := (rect_height rect / 2.2)%R in
  let newValue := (deltaY / maxDelta)%R in
  Rmax (-1) (Rmin 1 newValue).

Definition assign_pitchBend (v : R) (s : SynthSettings) : SynthSettings :=
  {| patchCategory := patchCategory s; cutoff := cutoff s; resonance := resonance s;
     reverb := reverb s; attack := attack s; release := release s; detune := detune s;
     lfoRate := lfoRate s; delayTime := delayTime s; delayFeedback := delayFeedback s;
     arpEnabled := arpEnabled s; arpRate := arpRate s; octave := octave s; pitchBend :=
     v; glide := glide s; monoMode := monoMode s; modMatrix := modMatrix s;
     keySlideTarget := keySlideTarget s; gestureControlEnabled := gestureControlEnabled
     s; sustain := sustain s |}.

(** * What the properties are stated with

    Example settings and states of the engine, and the notions the
    properties below are stated in. *)

Definition twoHands : GestureState :=
  {| leftHand := {| x := 0.25; y := 1; active := true; gesture := "open";
                    isPincer := false; isClosed := false |};
     rightHand := {| x := 0.5; y := 0.5; active := true; gesture := "fist";
                     isPincer := false; isClosed := true |};
     distance := 0.4 |}.

Definition twoCutoffRoutes : list ModRoute :=
  [ {| source := Gesture_L_V; destination := Cutoff; amount := 1 |};
    {| source := Gesture_R_V; destination := Cutoff; amount := 0.5 |} ].

(** The heap after a loop over the entries of the map that updates each
    entry by [f]. *)
Definition alterAll (f : ActiveOscillator -> ActiveOscillator) (ids : list nat)
  (h : list ActiveOscillator) : list ActiveOscillator :=
  fold_left (fun h id => alter f id h) ids h.

(** Every key of the map stands for one entry, no entry is stored under
    two keys, every reference is to an allocated entry, live voices exist
    only with an audio context, an idle arpeggiator where there is a
    [window] is at the start of its sequence, and timer handles are
    positive, distinct and below the next one. *)
Record wf (s : AudioService) : Prop := {
  wf_keys : NoDup (activeOscillators s).*1;
  wf_ids : NoDup (activeOscillators s).*2;
  wf_refs : Forall (fun id => id < length (heap s)) (activeOscillators s).*2;
  wf_ctx : activeOscillators s <> [] -> is_Some (ctx s) /\ is_Some (mainGain s);
  wf_idle : arpTimer s = None -> is_Some (ctx s) -> currentArpIndex s = 0;
  wf_handles : NoDup (timer_id <$> timers s);
  wf_pending : Forall (fun t => 0 < timer_id t < nextTimerId s) (timers s);
  wf_next : 0 < nextTimerId s
}.

(** The engine once [init] has run to its end in a browser. *)
Definition ready : AudioService := initResume (construct (Some running)).

(** One voice sounding: A4 played on the initial settings. *)
Definition oneVoice : AudioService := playNote "A4" INITIAL_SETTINGS 0.4 0.5 ready.

(** The engine where there is no [window]: no audio context, ever. *)
Definition headless : AudioService := construct None.

(** A4 released and struck again while its release runs: the key leads to
    a second entry, and the teardown of the first is pending. *)
Definition retriggered : AudioService :=
  playNote "A4" INITIAL_SETTINGS 0.4 0.5 (stopNote "A4" INITIAL_SETTINGS false oneVoice).



(** The part of the state the arpeggiator and the timer queue live in. *)
Definition scheduling (s : AudioService) :
  option nat * list string * nat * list Timer * nat :=
  (arpTimer s, activeNotesForArp s, currentArpIndex s, timers s, nextTimerId s).

(** The arpeggiator's own fields. *)
Definition arpState (s : AudioService) : option nat * list string * nat :=
  (arpTimer s, activeNotesForArp s, currentArpIndex s).

(** The flags and nodes of the engine outside the voices. *)
Definition control (s : AudioService) :
  option GainNode * bool * list (string * nat) :=
  (mainGain s, currentSustain s, activeOscillators s).


#[global] Instance ModSource_eq_dec : EqDecision ModSource.
Proof. solve_decision. Defined.

(** The gain node the wiring loop makes for a route, if it makes one. *)
Definition routeGain (now : R) (route : ModRoute) : option GainNode :=
  match routeTarget (destination route) with
  | Some target =>
      Some
        (GainN.connect target
           (GainN.gain
              (SetValueAtTime (amount route * routeScale (destination route)) now)
              createGain))
  | None => None
  end.

(** The gain nodes the routes of source [src] feed, counting the nodes of
    the loop from [base]. *)
Fixpoint sourcePorts (src : ModSource) (base : nat) (routes : list ModRoute) :
  list Port :=
  match routes with
  | [] => []
  | route :: routes' =>
      match routeTarget (destination route) with
      | Some _ =>
          (if decide (source route = src) then [ToModGain base] else [])
          ++ sourcePorts src (S base) routes'
      | None => sourcePorts src base routes'
      end
  end.

(** Every output connection of a voice. *)
Definition connections (e : ActiveOscillator) : list Port :=
  osc_out (osc1 e) ++ osc_out (osc2 e) ++ gain_out (gain e) ++ bq_out (filter e)
  ++ osc_out (lfo e) ++ cs_out (envSource e) ++ cs_out (slideSource e)
  ++ concat (gain_out <$> modGains e).

(** One gesture route onto the cutoff. *)
Definition gestureCutoff : SynthSettings :=
  assign_modMatrix
    [ {| source := Gesture_L_V; destination := Cutoff; amount := 0.5 |} ]
    INITIAL_SETTINGS.

(** The frequency calls of a retarget. *)
Definition retargetCalls (settings : SynthSettings) (now targetFreq : R) :
  list AutoEvent :=
  [CancelScheduledValues now;
   if Rgtb (glide settings) 0
   then ExponentialRampToValueAtTime targetFreq (now + glide settings)
   else SetValueAtTime targetFreq now].

(** The initial settings with the mono switch on. *)
Definition MONO_SETTINGS : SynthSettings := assign_monoMode true INITIAL_SETTINGS.

(** C4 played in mono mode into silence. *)
Definition monoC4 : AudioService := playNote "C4" MONO_SETTINGS 0.4 0.5 ready.




(** What a tick leaves when the sequence has a note at the current index:
    the note is played, its note-off and the next tick are pending. *)
Definition ticked (settings : SynthSettings) (note : string) (s : AudioService) :
  AudioService :=
  let played := playNote note settings 0.3 0.5 s in
  let gated :=
    snd (setTimeout (ArpNoteOff (Some note) settings)
           (60 / arpRate settings * 0.8 * 1000) played) in
  let advanced :=
    set_currentArpIndex ((currentArpIndex s + 1) mod length (activeNotesForArp s))
      gated in
  set_arpTimer (Some (S (nextTimerId s)))
    (snd (setTimeout (ArpTick settings) (60 / arpRate settings * 1000) advanced)).

Definition isTick (t : Timer) : bool :=
  match timer_callback t with
  | ArpTick _ => true
  | _ => false
  end.

(** The only tick that can be pending is the one [arpTimer] holds. *)
Definition oneTick (s : AudioService) : Prop :=
  Forall (fun t => isTick t = true -> arpTimer s = Some (timer_id t)) (timers s).

Definition noTick (s : AudioService) : Prop :=
  Forall (fun t => isTick t = false) (timers s).

(** [s'] is [s] with, at most, more timers that are not ticks pending and
    other voices: what the note methods do to the arpeggiator. *)
Definition extends (s s' : AudioService) : Prop :=
  arpState s' = arpState s
  /\ exists extra,
      timers s' = timers s ++ extra /\ Forall (fun t => isTick t = false) extra.

(** The tick the running arpeggiator waits for. *)
Definition pendingTick (settings : SynthSettings) (id : nat) : Timer :=
  {| timer_id := id; timer_delay := 60 / arpRate settings * 1000;
     timer_callback := ArpTick settings |}.

(** The arpeggiator runs on [sequence], is at [index], and its handle is
    that of a pending tick, one period away when it was scheduled. *)
Definition arpRunning (settings : SynthSettings) (sequence : list string)
  (index : nat) (s : AudioService) : Prop :=
  activeNotesForArp s = sequence
  /\ currentArpIndex s = index
  /\ exists id,
      arpTimer s = Some id
      /\ List.find (fun t => Nat.eqb (timer_id t) id) (timers s)
         = Some (pendingTick settings id).



Definition triad : list string := ["C4"; "E4"; "G4"].

(** ** ModMatrix.tsx *)

#[global] Instance ModDestination_eq_dec : EqDecision ModDestination.
Proof. solve_decision. Defined.

(** [r => r.source === src && r.destination === dst]. *)
Definition sameCell (src : ModSource) (dst : ModDestination) (r : ModRoute) : bool :=
  bool_decide (source r = src) && bool_decide (destination r = dst).

(** [Array.prototype.findIndex]; [None] is -1. *)
Fixpoint findIndex {A : Type} (p : A -> bool) (l : list A) : option nat :=
  match l with
  | [] => None
  | a :: l' => if p a then Some 0 else S <$> findIndex p l'
  end.

(** [routes.find(...)?.amount || 0]. *)
Definition getAmount (routes : list ModRoute) (src : ModSource) (dst : ModDestination) : R :=
  match List.find (sameCell src dst) routes with
  | Some r => if Rtruthy (amount r) then amount r else 0%R
  | None => 0%R
  end.

(** [handleCellChange]: the list handed to [onChange]. *)
Definition handleCellChange (routes : list ModRoute) (src : ModSource)
  (dst : ModDestination) (amount : R) : list ModRoute :=
  let existingIndex := findIndex (sameCell src dst) routes in
  let newRoutes := routes in
  if Req_dec_T amount 0 then
    match existingIndex with
    | Some i => delete i newRoutes
    | None => newRoutes
    end
  else
    match existingIndex with
    | Some i => <[i := {| source := src; destination := dst; amount := amount |}]> newRoutes
    | None => newRoutes ++ [{| source := src; destination := dst; amount := amount |}]
    end.

(** ** The table, the voices, the loop and the controls *)

(** The names of the table, in insertion order. *)
Definition tableNames : list string :=
  concat ((fun octave => (fun note => (note ++ pretty octave)%string) <$> NOTES) <$> seqZ 0 9).

(** The pitch of the [k]-th name of the table: [k - 57] semitones from A4. *)
Definition tableFrequency (k : nat) : R :=
  (440 * Rpower 2 (IZR (Z.of_nat k - 57) / 12))%R.

Definition noteChars (s : string) : Prop :=
  Forall (fun c => JS.isNoteChar c = true) (list_ascii_of_string s).

(** [s'] has every voice of [s], the same as far as [proj] tells, and any
    other voice of [s'] is, as far as [proj] tells, a voice as [playNote]
    creates it. *)
Definition evolves {X : Type} (proj : ActiveOscillator -> X) (s s' : AudioService) : Prop :=
  (forall id e, heap s !! id = Some e ->
     exists e', heap s' !! id = Some e' /\ proj e' = proj e)
  /\ (forall id e', heap s' !! id = Some e' -> heap s !! id = None ->
        exists settings lastFrequency now targetFreq baseFreq velocity initialSlide,
          proj e'
          = proj (newEntry settings lastFrequency now targetFreq baseFreq velocity
                    initialSlide)).

(** What [playNote] fixes when it creates a voice: the waveforms, the
    detune of the second oscillator, the depths of the modulation and
    key-slide connections, and where the filter goes. *)
Definition patchOf (e : ActiveOscillator) :
  OscillatorType * OscillatorType * OscillatorType * AudioParam * list AudioParam
  * list Port :=
  (osc_type (osc1 e), osc_type (osc2 e), osc_type (lfo e), osc_detune (osc2 e),
   gain_gain <$> modGains e, bq_out (filter e)).

(** The engine holds a reference to the voice [id]: the map leads to it, or
    a teardown that is pending was scheduled for it. *)
Definition referenced (id : nat) (s : AudioService) : Prop :=
  id ∈ (activeOscillators s).*2
  \/ exists note, Teardown note id ∈ timer_callback <$> timers s.

(** A voice on the heap the engine holds no reference to. *)
Definition orphan (id : nat) (s : AudioService) : Prop :=
  id < length (heap s) /\ ~ referenced id s.

(** From [s] to [s'] an orphan stays one, and stays as it is. *)
Definition leavesOrphan (id : nat) (s s' : AudioService) : Prop :=
  orphan id s -> orphan id s' /\ heap s' !! id = heap s !! id.

(** The fields [updateGlobalParams] is there to set. *)
Definition globals (s : AudioService) : option DelayNode * option GainNode * R :=
  (delayNode s, delayFeedbackNode s, currentPitchBend s).

(** The pitch of a voice: the frequency parameters of its two oscillators. *)
Definition pitchOf (e : ActiveOscillator) : AudioParam * AudioParam :=
  (osc_frequency (osc1 e), osc_frequency (osc2 e)).

(** The engine without an audio backend: nothing of the audio side exists. *)
Definition silent (s : AudioService) : Prop :=
  ctx s = None /\ mainGain s = None /\ delayNode s = None /\ delayFeedbackNode s = None
  /\ heap s = [] /\ activeOscillators s = [].

(** An operation other than a start of the arpeggiator. *)
Definition notStart (op : Op) : Prop :=
  match op with
  | StartArp _ _ => False
  | _ => True
  end.

(** The arpeggiator is stopped: no handle, no tick pending. *)
Definition arpStopped (s : AudioService) : Prop :=
  arpTimer s = None /\ noTick s.



(** From [s] to [s'] the handle of the arpeggiator is the same and every
    timer that is new has a handle that was not in use. *)
Definition schedulesAfter (s s' : AudioService) : Prop :=
  arpTimer s' = arpTimer s
  /\ nextTimerId s <= nextTimerId s'
  /\ forall t, t ∈ timers s' -> t ∈ timers s \/ nextTimerId s <= timer_id t.

(** The handle of the arpeggiator was given out, and a pending timer with
    that handle is a tick. *)
Definition handleInv (s : AudioService) : Prop :=
  forall id, arpTimer s = Some id ->
    id < nextTimerId s
    /\ forall t, t ∈ timers s -> timer_id t = id -> isTick t = true.

(** The settings of the engine the gesture effect does not write. *)
Definition gestureFrame (s : SynthSettings) :
  PatchCategory * R * R * R * R * R * bool * R * Z * R * R * bool * list ModRoute
  * KeySlideTarget * bool :=
  (patchCategory s, attack s, release s, detune s, lfoRate s, delayTime s,
   arpEnabled s, arpRate s, octave s, pitchBend s, glide s, monoMode s, modMatrix s,
   keySlideTarget s, gestureControlEnabled s).

(** The range the knob of a destination covers in [App]. *)
Definition knobRange (d : ModDestination) : option (R * R) :=
  match d with
  | Cutoff => Some (50, 10000)
  | Resonance => Some (0.1, 10)
  | Reverb => Some (0, 1)
  | Delay => Some (0, 0.9)
  | Pitch | Gain => None
  end%R.

Definition within (range : option (R * R)) (v : option R) : Prop :=
  match range, v with
  | Some (lo, hi), Some x => (lo <= x <= hi)%R
  | _, _ => True
  end.

(** The settings of the engine the XY pad does not write. *)
Definition padFrame (s : SynthSettings) :
  PatchCategory * R * R * R * R * bool * R * Z * R * R * bool * list ModRoute
  * KeySlideTarget * bool * bool :=
  (patchCategory s, attack s, release s, detune s, delayTime s,
   arpEnabled s, arpRate s, octave s, pitchBend s, glide s, monoMode s, modMatrix s,
   keySlideTarget s, gestureControlEnabled s, sustain s).

(** What a target of the XY pad writes, and the range of its knob. *)
Definition targetSetting (t : XYTarget) (s : SynthSettings) : option R :=
  match t with
  | XY_Cutoff => Some (cutoff s)
  | XY_Resonance => Some (resonance s)
  | XY_Reverb => Some (reverb s)
  | XY_Delay => Some (delayFeedback s)
  | XY_LFORate => Some (lfoRate s)
  | XY_None => None
  end.

Definition targetRange (t : XYTarget) : option (R * R) :=
  match t with
  | XY_Cutoff => Some (50, 10000)
  | XY_Resonance => Some (0.1, 10)
  | XY_Reverb => Some (0, 1)
  | XY_Delay => Some (0, 0.9)
  | XY_LFORate => Some (0.1, 20)
  | XY_None => None
  end%R.

#[global] Instance XYTarget_eq_dec : EqDecision XYTarget.
Proof. solve_decision. Defined.

(** [val] mapped linearly onto the range of the knob. *)
Definition scaled (range : option (R * R)) (val : R) : option R :=
  match range with
  | Some (lo, hi) => Some (lo + val * (hi - lo))%R
  | None => None
  end.

(** The cell of the matrix a route belongs to. *)
Definition cell (r : ModRoute) : ModSource * ModDestination := (source r, destination r).

(** The arpeggiator started on the triad: its first note plays, the second
    tick is pending. *)
Definition arpStarted : AudioService := after (startArp triad INITIAL_SETTINGS ready).

(** * Properties *)

(** ** The gesture effect: the last route to a destination wins *)

Section GestureRoutes.

  Variable g : GestureState.

Lemma applyRoute_elsewhere (d : ModDestination) (next : SynthSettings) (r : ModRoute) :
    (gestureSourced r = true -> destination r <> d) ->
    destinationSetting d (applyRoute g next r) = destinationSetting d next.
  Proof.
    intros Hr. unfold applyRoute. fold (gestureSourced r).
    destruct (gestureSourced r) eqn:Hg; [|reflexivity].
    specialize (Hr eq_refl). cbn.
    destruct (destination r), d; try reflexivity; congruence.
  Qed.

Lemma applyRoute_overwrites (next next' : SynthSettings) (r : ModRoute) :
    gestureSourced r = true ->
    destinationSetting (destination r) (applyRoute g next r)
    = destinationSetting (destination r) (applyRoute g next' r).
  Proof.
    intros Hg. unfold applyRoute. fold (gestureSourced r). rewrite Hg. cbn.
    destruct (destination r); reflexivity.
  Qed.

Lemma routes_elsewhere (d : ModDestination) (rs : list ModRoute) :
    Forall (fun r => gestureSourced r = true -> destination r <> d) rs ->
    forall next,
      destinationSetting d (fold_left (applyRoute g) rs next)
      = destinationSetting d next.
  Proof.
    induction 1 as [|r rs Hr _ IH]; intros next; [reflexivity|].
    cbn [fold_left]. rewrite IH. now apply applyRoute_elsewhere.
  Qed.

Lemma applyRoute_writes (next : SynthSettings) (r : ModRoute) :
    gestureSourced r = true ->
    destinationSetting (destination r) (applyRoute g next r)
    = (let finalAmt := (sourceValue g (source r) * amount r * poseMult g)%R in
       match destination r with
       | Cutoff => Some (Rmax 50 (Rmin 10000 (2000 + finalAmt * 8000)))
       | Resonance => Some (Rmax 0.1 (Rmin 10 (1 + finalAmt * 9)))
       | Reverb => Some (Rmax 0 (Rmin 1 finalAmt))
       | Delay => Some (Rmax 0 (Rmin 0.9 (finalAmt * 0.9)))
       | Pitch | Gain => None
       end).
  Proof.
    intros Hg. unfold applyRoute. fold (gestureSourced r). rewrite Hg. cbn.
    destruct (destination r); reflexivity.
  Qed.

(** C9.  In one gesture-evaluation tick over a route list
    [before ++ r :: after], where [r] is gesture-sourced and no
    gesture-sourced route after it has its destination, the setting of
    that destination ends at the value [r] alone gives it: with
    [finalAmt] the reading of the source of [r] times the amount of [r]
    times the pose multiplier, [2000 + finalAmt * 8000] clamped to
    [50, 10000] for the cutoff, [1 + finalAmt * 9] clamped to [0.1, 10]
    for the resonance, [finalAmt] clamped to [0, 1] for the reverb and
    [finalAmt * 0.9] clamped to [0, 0.9] for the delay feedback.  That is
    the value the tick leaves with [r] as the only route: the routes
    before [r], whatever their number and amounts, are overwritten and add
    nothing. *)
Theorem gesture_last_route_wins (prev : SynthSettings)
    (before after : list ModRoute) (r : ModRoute) :
    modMatrix prev = before ++ r :: after ->
    gestureSourced r = true ->
    Forall (fun r' => gestureSourced r' = true -> destination r' <> destination r)
      after ->
    destinationSetting (destination r) (gestureUpdate g prev)
    = (let finalAmt := (sourceValue g (source r) * amount r * poseMult g)%R in
       match destination r with
       | Cutoff => Some (Rmax 50 (Rmin 10000 (2000 + finalAmt * 8000)))
       | Resonance => Some (Rmax 0.1 (Rmin 10 (1 + finalAmt * 9)))
       | Reverb => Some (Rmax 0 (Rmin 1 finalAmt))
       | Delay => Some (Rmax 0 (Rmin 0.9 (finalAmt * 0.9)))
       | Pitch | Gain => None
       end)
    /\ destinationSetting (destination r) (gestureUpdate g prev)
       = destinationSetting (destination r) (gestureUpdate g (assign_modMatrix [r] prev)).
  Proof.
    intros Hm Hg Hafter. unfold gestureUpdate. rewrite Hm. cbn [modMatrix assign_modMatrix].
    rewrite fold_left_app. cbn [fold_left].
    rewrite (routes_elsewhere _ _ Hafter). split.
    - now apply applyRoute_writes.
    - now apply applyRoute_overwrites.
  Qed.

End GestureRoutes.

(** Two gesture routes onto the cutoff, the left hand at height 1 with
    amount 1 and the right hand at height 0.5 with amount 0.5, one hand
    closed: the cutoff ends at [2000 + 0.5 * 0.5 * 1.5 * 8000], which is
    5000, where the first route alone would have left 10000. *)
Lemma gesture_last_route_wins_witness :
  destinationSetting Cutoff
    (gestureUpdate twoHands (assign_modMatrix twoCutoffRoutes INITIAL_SETTINGS))
  = Some 5000%R
  /\ destinationSetting Cutoff
       (gestureUpdate twoHands
          (assign_modMatrix
             [ {| source := Gesture_L_V; destination := Cutoff; amount := 1 |} ]
             INITIAL_SETTINGS))
     = Some 10000%R
  /\ destinationSetting Cutoff
       (gestureUpdate twoHands (assign_modMatrix twoCutoffRoutes INITIAL_SETTINGS))
     = destinationSetting Cutoff
         (gestureUpdate twoHands
            (assign_modMatrix
               [ {| source := Gesture_R_V; destination := Cutoff; amount := 0.5 |} ]
               (assign_modMatrix twoCutoffRoutes INITIAL_SETTINGS))).
Proof.
  destruct (gesture_last_route_wins twoHands
              (assign_modMatrix twoCutoffRoutes INITIAL_SETTINGS)
              [ {| source := Gesture_L_V; destination := Cutoff; amount := 1 |} ] []
              {| source := Gesture_R_V; destination := Cutoff; amount := 0.5 |})
    as [Hvalue Hsame].
  - reflexivity.
  - reflexivity.
  - constructor.
  - split_and!; [|clear Hvalue Hsame|exact Hsame].
    + etransitivity; [exact Hvalue|]. cbn. f_equal. unfold Rmax, Rmin.
      repeat (destruct (Rle_dec _ _)); lra.
    + cbn. f_equal. unfold Rmax, Rmin.
      repeat (destruct (Rle_dec _ _)); lra.
Defined.

(** ** The map of live voices *)

Section MapFacts.
  Context {A : Type}.
  Implicit Types (m : list (string * A)) (k : string) (v : A).

Lemma get_set_eq m k v : Map.get (Map.set m k v) k = Some v.
  Proof.
    induction m as [|[k' w] m IH]; cbn.
    - now rewrite String.eqb_refl.
    - destruct (String.eqb k' k) eqn:E; cbn.
      + now rewrite String.eqb_refl.
      + now rewrite E.
  Qed.

Lemma get_set_ne m k k' v : k <> k' -> Map.get (Map.set m k v) k' = Map.get m k'.
  Proof.
    intros Hne. induction m as [|[k0 w] m IH]; cbn.
    - apply String.eqb_neq in Hne. now rewrite Hne.
    - destruct (String.eqb k0 k) eqn:E; cbn.
      + apply String.eqb_eq in E. subst k0.
        apply String.eqb_neq in Hne. now rewrite Hne.
      + destruct (String.eqb k0 k'); [reflexivity | apply IH].
  Qed.

Lemma get_delete_eq m k : Map.get (Map.delete m k) k = None.
  Proof.
    induction m as [|[k0 w] m IH]; cbn; [reflexivity|].
    destruct (String.eqb k0 k) eqn:E; cbn; [apply IH|]. now rewrite E.
  Qed.

Lemma get_delete_ne m k k' : k <> k' -> Map.get (Map.delete m k) k' = Map.get m k'.
  Proof.
    intros Hne. induction m as [|[k0 w] m IH]; cbn; [reflexivity|].
    destruct (String.eqb k0 k) eqn:E; cbn.
    - apply String.eqb_eq in E. subst k0.
      apply String.eqb_neq in Hne. now rewrite Hne.
    - destruct (String.eqb k0 k'); [reflexivity | apply IH].
  Qed.

Lemma get_Some_elem m k v : Map.get m k = Some v -> (k, v) ∈ m.
  Proof.
    induction m as [|[k0 w] m IH]; cbn; [discriminate|].
    destruct (String.eqb k0 k) eqn:E.
    - apply String.eqb_eq in E. intros [= ->]. subst. left.
    - intros H. right. now apply IH.
  Qed.

Lemma get_None_keys m k : Map.get m k = None <-> k ∉ m.*1.
  Proof.
    induction m as [|[k0 w] m IH]; cbn.
    - split; [intros _ H; inversion H | reflexivity].
    - rewrite not_elem_of_cons. destruct (String.eqb_spec k0 k) as [->|Hne].
      + split; [discriminate | intros [? _]; congruence].
      + rewrite IH. split; [intros ?; split; [congruence|assumption] | intros [_ ?]; assumption].
  Qed.


Lemma delete_sublist m k : sublist (Map.delete m k) m.
  Proof.
    induction m as [|[k0 w] m IH]; cbn; [constructor|].
    destruct (String.eqb k0 k); now constructor.
  Qed.

Lemma delete_absent m k : k ∉ m.*1 -> Map.delete m k = m.
  Proof.
    induction m as [|[k0 w] m IH]; cbn; [reflexivity|].
    rewrite not_elem_of_cons. intros [Hne Hk].
    destruct (String.eqb_spec k0 k); [congruence|]. now rewrite IH.
  Qed.

  (** Deleting the key of the oldest entry of a map leaves the others. *)
Lemma delete_first m k v : NoDup ((k, v) :: m).*1 -> Map.delete ((k, v) :: m) k = m.
  Proof.
    cbn. rewrite String.eqb_refl. intros Hnd. apply NoDup_cons in Hnd as [Hk _].
    now apply delete_absent.
  Qed.

Lemma set_keys m k v :
    (Map.set m k v).*1 = if decide (k ∈ m.*1) then m.*1 else m.*1 ++ [k].
  Proof.
    induction m as [|[k0 w] m IH]; cbn.
    - now rewrite decide_False by (intros H; inversion H).
    - destruct (String.eqb_spec k0 k) as [->|Hne]; cbn.
      + rewrite decide_True by left. reflexivity.
      + rewrite IH. destruct (decide (k ∈ m.*1)) as [Hin|Hin].
        * rewrite decide_True by (now right). reflexivity.
        * rewrite decide_False; [reflexivity|].
          rewrite not_elem_of_cons. split; congruence.
  Qed.

Lemma set_keys_NoDup m k v : NoDup m.*1 -> NoDup (Map.set m k v).*1.
  Proof.
    intros Hnd. rewrite set_keys. case_decide; [assumption|].
    apply NoDup_app. split_and!; [assumption| |apply NoDup_singleton].
    intros z Hz Hz'. apply list_elem_of_singleton in Hz'. congruence.
  Qed.

Lemma set_values_elem m k v z : z ∈ (Map.set m k v).*2 -> z = v \/ z ∈ m.*2.
  Proof.
    induction m as [|[k0 w] m IH]; cbn.
    - rewrite list_elem_of_singleton. auto.
    - destruct (String.eqb k0 k); cbn; rewrite !elem_of_cons; [tauto|].
      intros [->|H]; [tauto|]. apply IH in H. tauto.
  Qed.

Lemma set_values_NoDup m k v : NoDup m.*2 -> v ∉ m.*2 -> NoDup (Map.set m k v).*2.
  Proof.
    induction m as [|[k0 w] m IH]; cbn; intros Hnd Hv.
    - apply NoDup_singleton.
    - apply NoDup_cons in Hnd as [Hw Hnd]. apply not_elem_of_cons in Hv as [Hvw Hv].
      destruct (String.eqb k0 k); cbn; apply NoDup_cons; split; auto.
      intros Hin. apply set_values_elem in Hin as [->|Hin]; auto.
  Qed.

Lemma set_length m k v : length (Map.set m k v) <= S (length m).
  Proof.
    induction m as [|[k0 w] m IH]; cbn; [lia|].
    destruct (String.eqb k0 k); cbn; lia.
  Qed.

End MapFacts.

(** ** Updates in place, through the map *)

Lemma alterAll_length f ids h : length (alterAll f ids h) = length h.
Proof.
  revert h. induction ids as [|i ids IH]; intros h; cbn; [reflexivity|].
  unfold alterAll in IH. now rewrite IH, length_alter.
Qed.

Lemma alterAll_lookup_notin f ids h (id : nat) :
  id ∉ ids -> alterAll f ids h !! id = h !! id.
Proof.
  revert h. induction ids as [|i ids IH]; intros h Hid; cbn; [reflexivity|].
  apply not_elem_of_cons in Hid as [Hne Hid].
  unfold alterAll in IH. rewrite IH by assumption.
  now apply list_lookup_alter_ne.
Qed.

Lemma alterAll_lookup_in f ids h (id : nat) :
  NoDup ids -> id ∈ ids -> alterAll f ids h !! id = f <$> h !! id.
Proof.
  revert h. induction ids as [|i ids IH]; intros h Hnd Hid; [inversion Hid|].
  apply NoDup_cons in Hnd as [Hi Hnd]. cbn.
  apply elem_of_cons in Hid as [->|Hid].
  - fold (alterAll f ids (alter f i h)).
    rewrite alterAll_lookup_notin by assumption. apply list_lookup_alter_eq.
  - fold (alterAll f ids (alter f i h)). rewrite IH by assumption.
    rewrite list_lookup_alter_ne; [reflexivity|]. intros ->. contradiction.
Qed.

Lemma forEachEntry_heap f s :
  forEachEntry f s = set_heap (alterAll f ((activeOscillators s).*2) (heap s)) s.
Proof.
  unfold forEachEntry.
  assert (G : forall (m : list (string * nat)) s0,
             fold_left (fun s '(_, id) => mutate id f s) m s0
             = set_heap (alterAll f (m.*2) (heap s0)) s0).
  { induction m as [|[k id] m IH]; intros s0; cbn.
    - now destruct s0.
    - rewrite IH. reflexivity. }
  apply G.
Qed.

(** ** How [playNote] ends, and the service it leaves *)

Lemma indexObject_own {A : Type} (obj : list (string * A)) key v :
  property obj key = Some v -> indexObject obj key = Own v.
Proof. intros H. unfold indexObject. now rewrite H. Qed.

Lemma indexObject_inherited {A : Type} (obj : list (string * A)) key :
  indexObject obj key = Inherited <-> property obj key = None /\ key ∈ objectPrototype.
Proof.
  unfold indexObject. destruct (property obj key); [split; [discriminate|now intros []]|].
  case_bool_decide; intuition congruence.
Qed.

Lemma indexObject_undefined {A : Type} (obj : list (string * A)) key :
  indexObject obj key = Undefined <-> property obj key = None /\ key ∉ objectPrototype.
Proof.
  unfold indexObject. destruct (property obj key); [split; [discriminate|now intros []]|].
  case_bool_decide; intuition congruence.
Qed.

(** All that is done by the time of the TypeError is done to the
    frequencies of one voice. *)
Lemma atTypeError_fields settings now s :
  activeOscillators (atTypeError settings now s) = activeOscillators s
  /\ length (heap (atTypeError settings now s)) = length (heap s)
  /\ ctx (atTypeError settings now s) = ctx s
  /\ mainGain (atTypeError settings now s) = mainGain s
  /\ lastFrequency (atTypeError settings now s) = lastFrequency s
  /\ currentSustain (atTypeError settings now s) = currentSustain s
  /\ currentPitchBend (atTypeError settings now s) = currentPitchBend s
  /\ delayNode (atTypeError settings now s) = delayNode s
  /\ delayFeedbackNode (atTypeError settings now s) = delayFeedbackNode s.
Proof.
  unfold atTypeError. destruct (_ && _); [|now split_and!].
  destruct (Map.first _) as [[? entry]|]; [|now split_and!].
  cbn. rewrite length_alter. now split_and!.
Qed.

Lemma indexObject_own_ne {A : Type} (obj : list (string * A)) key :
  is_Some (property obj key) -> indexObject obj key <> Inherited.
Proof. intros [v H]. now rewrite (indexObject_own _ _ _ H). Qed.

(** The service [playNote] leaves, by cases on the own properties of the
    table. *)
Lemma playNote_unfold note settings velocity initialSlide s :
  playNote note settings velocity initialSlide s
  = match ctx s, mainGain s with
    | Some c, Some _ =>
        let s := resumeIfSuspended s in
        match property FREQUENCIES (shiftedNote note (octave settings)) with
        | None =>
            if bool_decide (shiftedNote note (octave settings) ∈ objectPrototype)
            then atTypeError settings (currentTime c) s
            else s
        | Some baseFreq =>
            if negb (Rtruthy baseFreq) then s
            else
              let now := currentTime c in
              let targetFreq := getBentFrequency s baseFreq in
              if monoMode settings && Nat.ltb 0 (Map.size (activeOscillators s)) then
                retarget note settings initialSlide now targetFreq baseFreq s
              else
                allocate note settings velocity initialSlide now targetFreq baseFreq s
        end
    | _, _ => s
    end.
Proof.
  unfold playNote, playNoteCall, indexObject.
  destruct (ctx s) as [c|]; [|reflexivity]. destruct (mainGain s); [|reflexivity].
  cbv zeta. destruct (property FREQUENCIES _) as [f|].
  - destruct (negb (Rtruthy f)); [reflexivity|]. now destruct (_ && _).
  - now case_bool_decide.
Qed.

(** A call of [playNote] leaves the service [playNote] stands for. *)
Lemma after_playNoteCall note settings velocity initialSlide s :
  after (playNoteCall note settings velocity initialSlide s)
  = playNote note settings velocity initialSlide s.
Proof. reflexivity. Qed.

(** ** What holds of every state of the engine *)

Lemma wf_construct window : wf (construct window).
Proof.
  constructor; cbn; try constructor; try lia; congruence.
Qed.

Lemma wf_set_heap h s : wf s -> length (heap s) <= length h -> wf (set_heap h s).
Proof.
  intros [] Hlen. constructor; cbn; try assumption.
  eapply Forall_impl; [eassumption|]. cbn. intros; lia.
Qed.

Lemma wf_mutate id f s : wf s -> wf (mutate id f s).
Proof. intros H. apply wf_set_heap; [assumption|]. now rewrite length_alter. Qed.

Lemma wf_forEachEntry f s : wf s -> wf (forEachEntry f s).
Proof.
  intros H. rewrite forEachEntry_heap. apply wf_set_heap; [assumption|].
  now rewrite alterAll_length.
Qed.

Lemma wf_set_ctx c s : wf s -> is_Some (ctx s) -> wf (set_ctx (Some c) s).
Proof.
  intros [] Hc. constructor; cbn; try assumption.
  - intros H. split; [eauto|]. now apply wf_ctx0.
  - intros H _. now apply wf_idle0.
Qed.

Lemma wf_set_lastFrequency v s : wf s -> wf (set_lastFrequency v s).
Proof. intros []. now constructor. Qed.

Lemma wf_set_currentPitchBend v s : wf s -> wf (set_currentPitchBend v s).
Proof. intros []. now constructor. Qed.

Lemma wf_set_currentSustain v s : wf s -> wf (set_currentSustain v s).
Proof. intros []. now constructor. Qed.

Lemma wf_set_delayNode v s : wf s -> wf (set_delayNode v s).
Proof. intros []. now constructor. Qed.

Lemma wf_set_delayFeedbackNode v s : wf s -> wf (set_delayFeedbackNode v s).
Proof. intros []. now constructor. Qed.

Lemma wf_set_activeNotesForArp v s : wf s -> wf (set_activeNotesForArp v s).
Proof. intros []. now constructor. Qed.

Lemma wf_set_activeOscillators m s :
  wf s ->
  NoDup m.*1 -> NoDup m.*2 -> Forall (fun id => id < length (heap s)) m.*2 ->
  (m <> [] -> is_Some (ctx s) /\ is_Some (mainGain s)) ->
  wf (set_activeOscillators m s).
Proof. intros []. now constructor. Qed.

Lemma wf_setTimeout cb ms s : wf s -> wf (snd (setTimeout cb ms s)).
Proof.
  intros []. constructor; cbn; try assumption; try lia.
  - rewrite fmap_app. cbn. apply NoDup_app. split_and!; [assumption| |apply NoDup_singleton].
    intros i Hi Hi'. apply list_elem_of_singleton in Hi'. subst i.
    apply list_elem_of_fmap in Hi as (t & Ht & Hin).
    rewrite Forall_forall in wf_pending0. apply wf_pending0 in Hin. lia.
  - apply Forall_app. split.
    + eapply Forall_impl; [eassumption|]. cbn. intros; lia.
    + repeat constructor; cbn; lia.
Qed.

Lemma filter_sublist {A : Type} (p : A -> bool) (l : list A) :
  sublist (List.filter p l) l.
Proof.
  induction l as [|a l IH]; cbn; [constructor|].
  destruct (p a); now constructor.
Qed.

Lemma filter_Forall {A : Type} (P : A -> Prop) (p : A -> bool) (l : list A) :
  Forall P l -> Forall P (List.filter p l).
Proof.
  induction 1 as [|a l Ha _ IH]; cbn; [constructor|].
  destruct (p a); [now constructor | assumption].
Qed.

Lemma wf_clearTimeout id s : wf s -> wf (clearTimeout id s).
Proof.
  intros []. constructor; cbn; try assumption.
  - eapply sublist_NoDup; [eassumption|]. apply fmap_sublist, filter_sublist.
  - now apply filter_Forall.
Qed.

Lemma wf_set_arp t i s :
  wf s -> (t = None -> is_Some (ctx s) -> i = 0) ->
  wf (set_arpTimer t (set_currentArpIndex i s)).
Proof. intros [] H. now constructor. Qed.

Lemma wf_initResume s : wf s -> wf (initResume s).
Proof.
  intros H. unfold initResume. destruct (ctx s); [|assumption].
  now apply wf_set_delayFeedbackNode, wf_set_delayNode.
Qed.

Lemma wf_setPitchBend value s : wf s -> wf (setPitchBend value s).
Proof.
  intros H. unfold setPitchBend. cbn [ctx set_currentPitchBend].
  destruct (ctx s); [apply wf_forEachEntry|]; now apply wf_set_currentPitchBend.
Qed.

Lemma wf_updateNoteSlide note slide s : wf s -> wf (updateNoteSlide note slide s).
Proof.
  intros H. unfold updateNoteSlide.
  destruct (Map.get _ _); [|assumption]. destruct (ctx s); [|assumption].
  now apply wf_mutate.
Qed.

Lemma wf_resumeIfSuspended s : wf s -> wf (resumeIfSuspended s).
Proof.
  intros H. unfold resumeIfSuspended. destruct (ctx s) as [c|] eqn:E; [|assumption].
  destruct (state c); try assumption. apply wf_set_ctx; [assumption|]. rewrite E. eauto.
Qed.

Lemma wf_retarget note settings initialSlide now targetFreq baseFreq s :
  wf s -> wf (retarget note settings initialSlide now targetFreq baseFreq s).
Proof.
  intros H. unfold retarget.
  destruct (activeOscillators s) as [|[existingNote entry] rest] eqn:Hm; [assumption|].
  cbn [Map.first head].
  apply wf_updateNoteSlide, wf_set_lastFrequency.
  pose proof (wf_mutate entry (retargetEntry settings now targetFreq baseFreq) s H) as H1.
  destruct (negb (String.eqb existingNote note)); [|assumption].
  destruct H as [Hk Hi Hr Hc _ _ _ _]. rewrite Hm in Hk, Hi, Hr, Hc.
  cbn [mutate activeOscillators set_heap]. rewrite Hm, delete_first by assumption.
  cbn in Hk, Hi, Hr. apply NoDup_cons in Hk as [_ Hk]. apply NoDup_cons in Hi as [He Hi].
  apply Forall_cons in Hr as [Hre Hr].
  apply wf_set_activeOscillators; [assumption| | | |].
  - now apply set_keys_NoDup.
  - now apply set_values_NoDup.
  - apply Forall_forall. intros z Hz. cbn. rewrite length_alter.
    apply set_values_elem in Hz as [->|Hz]; [assumption|].
    rewrite Forall_forall in Hr. now apply Hr.
  - intros _. cbn. now apply Hc.
Qed.

Lemma wf_allocate note settings velocity initialSlide now targetFreq baseFreq s :
  wf s -> is_Some (ctx s) -> is_Some (mainGain s) ->
  wf (allocate note settings velocity initialSlide now targetFreq baseFreq s).
Proof.
  intros H Hctx Hmain. unfold allocate. apply wf_set_lastFrequency.
  assert (H1 : wf (set_heap
                     (heap s ++
                      [newEntry settings (lastFrequency s) now targetFreq baseFreq
                         velocity initialSlide]) s)).
  { apply wf_set_heap; [assumption|]. rewrite length_app. lia. }
  destruct H as [Hk Hi Hr _ _ _ _ _].
  apply wf_set_activeOscillators; cbn; [assumption| | | |].
  - now apply set_keys_NoDup.
  - apply set_values_NoDup; [assumption|].
    intros Hin. rewrite Forall_forall in Hr. apply Hr in Hin. lia.
  - apply Forall_forall. intros z Hz. rewrite length_app. cbn.
    apply set_values_elem in Hz as [->|Hz]; [lia|].
    rewrite Forall_forall in Hr. apply Hr in Hz. lia.
  - auto.
Qed.

Lemma ctx_resumeIfSuspended s : is_Some (ctx s) -> is_Some (ctx (resumeIfSuspended s)).
Proof.
  unfold resumeIfSuspended. destruct (ctx s) as [c|] eqn:E; [|now intros [? ?]].
  intros _. destruct (state c); cbn; rewrite ?E; eauto.
Qed.

Lemma mainGain_resumeIfSuspended s : mainGain (resumeIfSuspended s) = mainGain s.
Proof.
  unfold resumeIfSuspended. destruct (ctx s) as [c|]; [|reflexivity].
  now destruct (state c).
Qed.

Lemma wf_atTypeError settings now s : wf s -> wf (atTypeError settings now s).
Proof.
  intros H. unfold atTypeError. destruct (_ && _); [|assumption].
  destruct (Map.first _) as [[? entry]|]; [|assumption]. now apply wf_mutate.
Qed.

Lemma wf_playNote note settings velocity initialSlide s :
  wf s -> wf (playNote note settings velocity initialSlide s).
Proof.
  intros H. rewrite playNote_unfold.
  destruct (ctx s) as [c|] eqn:Hc; [|assumption].
  destruct (mainGain s) as [mg|] eqn:Hg; [|assumption].
  pose proof (wf_resumeIfSuspended s H) as H1. cbv zeta.
  destruct (property FREQUENCIES _) as [baseFreq|];
    [|case_bool_decide; [now apply wf_atTypeError|assumption]].
  destruct (negb (Rtruthy baseFreq)); [assumption|].
  destruct (monoMode settings && _).
  - now apply wf_retarget.
  - apply wf_allocate; [assumption| |].
    + apply ctx_resumeIfSuspended. rewrite Hc. eauto.
    + rewrite mainGain_resumeIfSuspended, Hg. eauto.
Qed.

Lemma wf_stopNote note settings immediate s :
  wf s -> wf (stopNote note settings immediate s).
Proof.
  intros H. unfold stopNote.
  destruct (Map.get _ _) as [entry|]; [|assumption].
  destruct (ctx s) as [c|]; [|assumption].
  destruct (currentSustain s && negb immediate).
  - now apply wf_mutate.
  - now apply wf_setTimeout, wf_mutate.
Qed.

Lemma wf_teardown note entry s : wf s -> wf (teardown note entry s).
Proof.
  intros H. unfold teardown.
  pose proof (wf_mutate entry disconnectEntry s H) as H1.
  destruct (sameEntry _ _); [|assumption].
  destruct H1 as [Hk Hi Hr Hc _ _ _ _].
  pose proof (delete_sublist (activeOscillators (mutate entry disconnectEntry s)) note)
    as Hsub.
  apply wf_set_activeOscillators.
  - now apply wf_mutate.
  - eapply sublist_NoDup; [eassumption|]. now apply fmap_sublist.
  - eapply sublist_NoDup; [eassumption|]. now apply fmap_sublist.
  - apply Forall_forall. intros z Hz. rewrite Forall_forall in Hr. apply Hr.
    eapply elem_of_sublist; [eassumption|]. now apply fmap_sublist.
  - intros Hne. apply Hc. intros E. rewrite E in Hne. now apply Hne.
Qed.

Lemma fold_left_preserves {S X : Type} (P : S -> Prop) (step : S -> X -> S)
  (l : list X) (s : S) :
  (forall s x, P s -> P (step s x)) -> P s -> P (fold_left step l s).
Proof.
  intros Hstep. revert s. induction l as [|a l IH]; intros s Hs; cbn; auto.
Qed.

Lemma wf_releaseSustained settings s : wf s -> wf (releaseSustained settings s).
Proof.
  unfold releaseSustained. apply fold_left_preserves.
  intros s0 [note id] H0. unfold releaseIfReleased.
  destruct (heap s0 !! id) as [entry|]; [|assumption].
  destruct (released entry); [|assumption]. now apply wf_stopNote.
Qed.

Lemma wf_updateGlobalParams settings s : wf s -> wf (updateGlobalParams settings s).
Proof.
  intros H. unfold updateGlobalParams.
  destruct (ctx s) as [c|]; [|assumption].
  destruct (delayNode s) as [dn|]; [|assumption].
  destruct (delayFeedbackNode s) as [dfn|]; [|assumption].
  match goal with
  | |- wf (if ?b then ?a else setPitchBend ?v ?a') => assert (Ha : wf a)
  end.
  { apply wf_forEachEntry, wf_set_delayFeedbackNode, wf_set_delayNode,
      wf_set_currentSustain.
    destruct (currentSustain s && negb (sustain settings)); [|assumption].
    now apply wf_releaseSustained, wf_set_currentSustain. }
  destruct (Req_dec_T _ _); [assumption|]. now apply wf_setPitchBend.
Qed.

Lemma wf_stopArp s : wf s -> wf (stopArp s).
Proof.
  intros H. unfold stopArp.
  destruct (arpTimer s) as [id|] eqn:E.
  - destruct (handleTruthy (Some id)).
    + apply (wf_set_arp None 0 (clearTimeout id s)); [|reflexivity].
      now apply wf_clearTimeout.
    + destruct H. constructor; cbn; try assumption. congruence.
  - destruct H. now constructor.
Qed.

Lemma wf_clock dt s : wf s -> wf (clock dt s).
Proof.
  intros H. unfold clock. destruct (ctx s) eqn:E; [|assumption].
  apply wf_set_ctx; [assumption|]. rewrite E. eauto.
Qed.

Lemma wf_contextState st s : wf s -> wf (contextState st s).
Proof.
  intros H. unfold contextState. destruct (ctx s) eqn:E; [|assumption].
  apply wf_set_ctx; [assumption|]. rewrite E. eauto.
Qed.

Lemma wf_arpPlayNote note settings s : wf s -> wf (after (arpPlayNote note settings s)).
Proof.
  intros H. unfold arpPlayNote. destruct note as [n|]; cbn.
  - now apply wf_playNote.
  - destruct (ctx s); [|assumption]. destruct (mainGain s); [|assumption].
    cbn. now apply wf_resumeIfSuspended.
Qed.

Lemma wf_tick settings s : wf s -> wf (after (tick settings s)).
Proof.
  intros H. unfold tick.
  destruct (Nat.eqb _ 0); [now apply wf_stopArp|].
  pose proof (wf_arpPlayNote (activeNotesForArp s !! currentArpIndex s) settings s H)
    as H1.
  destruct (arpPlayNote _ _ _) as [s1|s1]; cbn [after] in *; [|assumption].
  pose proof (wf_setTimeout (ArpNoteOff (activeNotesForArp s !! currentArpIndex s)
                               settings) (60 / arpRate settings * 0.8 * 1000) s1 H1)
    as H2.
  destruct (windowDefined _) eqn:Hw.
  - unfold setTimeout at 1. cbn [after].
    match goal with
    | |- wf (set_arpTimer (Some ?id) (set_nextTimerId ?n (set_timers ?ts
               (set_currentArpIndex ?i ?s0)))) =>
        change (wf (set_arpTimer (Some id) (set_currentArpIndex i
                      (set_nextTimerId n (set_timers ts s0)))))
    end.
    apply wf_set_arp; [|discriminate].
    now apply (wf_setTimeout (ArpTick settings) _
                 (snd (setTimeout (ArpNoteOff _ settings) _ s1))).
  - cbn [after]. unfold windowDefined in Hw. cbn in Hw.
    destruct H2. constructor; cbn in *; try assumption.
    intros _ [c Hc]. rewrite Hc in Hw. discriminate.
Qed.

Lemma wf_startArp notes settings s : wf s -> wf (after (startArp notes settings s)).
Proof.
  intros H. unfold startArp.
  pose proof (wf_set_activeNotesForArp (sortNotes notes) s H) as H1.
  destruct (handleTruthy _); [assumption|]. now apply wf_tick.
Qed.

Lemma wf_fire id s : wf s -> wf (after (fire id s)).
Proof.
  intros H. unfold fire. destruct (List.find _ _) as [t|]; [|assumption].
  pose proof (wf_clearTimeout id s H) as H1.
  destruct (timer_callback t) as [note entry|[note|] settings|settings]; cbn.
  - now apply wf_teardown.
  - now apply wf_stopNote.
  - assumption.
  - now apply wf_tick.
Qed.

Lemma wf_exec op s : wf s -> wf (after (exec op s)).
Proof.
  intros H. destruct op; cbn [exec after].
  - now apply wf_initResume.
  - now apply wf_setPitchBend.
  - now apply wf_updateNoteSlide.
  - now apply wf_playNote.
  - now apply wf_stopNote.
  - now apply wf_updateGlobalParams.
  - now apply wf_startArp.
  - now apply wf_stopArp.
  - now apply wf_fire.
  - now apply wf_clock.
  - now apply wf_contextState.
Qed.

Lemma wf_run ops s : wf s -> wf (run ops s).
Proof.
  unfold run. apply fold_left_preserves. intros s0 op. apply wf_exec.
Qed.

Lemma reachable_wf s : reachable s -> wf s.
Proof. intros (window & ops & ->). apply wf_run, wf_construct. Qed.

Lemma reachable_step op s : reachable s -> reachable (after (exec op s)).
Proof.
  intros (window & ops & ->). exists window, (ops ++ [op]).
  unfold run. now rewrite fold_left_app.
Qed.

(** A key of the map leads to an entry on the heap, and the engine has its
    audio context. *)
Lemma live_entry s note id :
  wf s -> Map.get (activeOscillators s) note = Some id ->
  (note, id) ∈ activeOscillators s
  /\ id ∈ (activeOscillators s).*2
  /\ (exists e, heap s !! id = Some e)
  /\ (exists c, ctx s = Some c)
  /\ is_Some (mainGain s).
Proof.
  intros H Hget. apply get_Some_elem in Hget.
  assert (Hid : id ∈ (activeOscillators s).*2).
  { apply list_elem_of_fmap. now exists (note, id). }
  destruct H as [_ _ Hr Hc _ _ _ _].
  split_and!; [assumption|assumption| | |].
  - rewrite Forall_forall in Hr. apply lookup_lt_is_Some_2. now apply Hr.
  - destruct Hc as [[c Hc] _]; [|eauto]. intros E. rewrite E in Hget. inversion Hget.
  - apply Hc. intros E. rewrite E in Hget. inversion Hget.
Qed.

Lemma alterAll_lookup_Some f ids h (id : nat) e :
  h !! id = Some e -> exists n, alterAll f ids h !! id = Some (Nat.iter n f e).
Proof.
  revert h e. induction ids as [|i ids IH]; intros h e He.
  - now exists 0.
  - cbn. fold (alterAll f ids (alter f i h)).
    destruct (decide (i = id)) as [->|Hne].
    + destruct (IH (alter f id h) (f e)) as [n Hn].
      { now rewrite list_lookup_alter_eq, He. }
      exists (S n). now rewrite Hn, Nat.iter_succ_r.
    + apply IH. now rewrite list_lookup_alter_ne.
Qed.

(** ** Pitch bend *)

Lemma Rpower_no_bend : Rpower 2 (0 * 2 / 12) = 1%R.
Proof. replace (0 * 2 / 12)%R with 0%R by lra. apply Rpower_O. lra. Qed.

Lemma bendEntry_baseFreq s now e : baseFreq (bendEntry s now e) = baseFreq e.
Proof. reflexivity. Qed.

Lemma bendEntry_iter_baseFreq s now n e :
  baseFreq (Nat.iter n (bendEntry s now) e) = baseFreq e.
Proof. induction n; cbn; [reflexivity | assumption]. Qed.

(** C4.  In every state of the engine, [setPitchBend value] appends to the
    frequency of both oscillators of every live voice one call
    [setTargetAtTime(baseFreq * 2^(value*2/12), now, 0.03)]; no entry, live
    or not, has its [baseFreq] changed; and for [value = 0] the target is
    [baseFreq] itself, whatever the bend was before. *)
Theorem setPitchBend_targets (value : R) (s : AudioService) (note : string) (id : nat) :
  reachable s ->
  Map.get (activeOscillators s) note = Some id ->
  exists c e e',
    ctx s = Some c
    /\ heap s !! id = Some e
    /\ heap (setPitchBend value s) !! id = Some e'
    /\ automation (osc_frequency (osc1 e'))
       = automation (osc_frequency (osc1 e))
         ++ [SetTargetAtTime (baseFreq e * Rpower 2 (value * 2 / 12)) (currentTime c) 0.03]
    /\ automation (osc_frequency (osc2 e'))
       = automation (osc_frequency (osc2 e))
         ++ [SetTargetAtTime (baseFreq e * Rpower 2 (value * 2 / 12)) (currentTime c) 0.03]
    /\ (forall j x, heap s !! j = Some x ->
        exists x', heap (setPitchBend value s) !! j = Some x' /\ baseFreq x' = baseFreq x)
    /\ (value = 0%R ->
        (baseFreq e * Rpower 2 (value * 2 / 12))%R = baseFreq e).
Proof.
  intros Hs Hget. apply reachable_wf in Hs.
  destruct (live_entry s note id Hs Hget) as (_ & Hid & [e He] & [c Hc] & _).
  exists c, e, (bendEntry (set_currentPitchBend value s) (currentTime c) e).
  assert (Hbend : setPitchBend value s
                  = set_heap
                      (alterAll (bendEntry (set_currentPitchBend value s) (currentTime c))
                         ((activeOscillators s).*2) (heap s))
                      (set_currentPitchBend value s)).
  { unfold setPitchBend. cbn [ctx set_currentPitchBend]. rewrite Hc.
    now rewrite forEachEntry_heap. }
  rewrite Hbend. cbn [heap set_heap].
  split_and!; try reflexivity; try assumption.
  - rewrite alterAll_lookup_in, He; [reflexivity| apply Hs | assumption].
  - intros j x0 Hj.
    destruct (alterAll_lookup_Some
                (bendEntry (set_currentPitchBend value s) (currentTime c))
                ((activeOscillators s).*2) (heap s) j x0 Hj) as [n Hn].
    eexists. split; [eassumption|]. apply bendEntry_iter_baseFreq.
  - intros ->. rewrite Rpower_no_bend. lra.
Qed.

(** ** The frequency table and the guards of [playNote] *)

Lemma FREQUENCIES_positive key f : property FREQUENCIES key = Some f -> (0 < f)%R.
Proof.
  intros H. apply (get_Some_elem FREQUENCIES) in H.
  unfold FREQUENCIES, generateFrequencies in H.
  apply list_elem_of_In, in_concat in H as (row & Hrow & Hkf).
  apply list_elem_of_In in Hrow, Hkf.
  apply list_elem_of_fmap in Hrow as (octave & -> & _).
  apply elem_of_lookup_imap in Hkf as (i & note & E & _).
  unfold frequencyEntry in E. injection E as _ ->.
  apply Rmult_lt_0_compat; [lra|]. unfold Rpower. apply exp_pos.
Qed.

Lemma Rtruthy_positive f : (0 < f)%R -> Rtruthy f = true.
Proof. intros H. unfold Rtruthy. destruct (Req_dec_T f 0); [lra | reflexivity]. Qed.

Lemma getBentFrequency_positive s f : (0 < f)%R -> (0 < getBentFrequency s f)%R.
Proof.
  intros H. unfold getBentFrequency. apply Rmult_lt_0_compat; [assumption|].
  unfold Rpower. apply exp_pos.
Qed.

(** [playNote] past its guards: with the audio context and the main gain
    there and the shifted note in the table, it retargets or allocates. *)
Lemma playNote_known note settings velocity initialSlide s c g baseFreq :
  ctx s = Some c -> mainGain s = Some g ->
  property FREQUENCIES (shiftedNote note (octave settings)) = Some baseFreq ->
  playNote note settings velocity initialSlide s
  = let s1 := resumeIfSuspended s in
    let targetFreq := getBentFrequency s baseFreq in
    if monoMode settings && Nat.ltb 0 (Map.size (activeOscillators s)) then
      retarget note settings initialSlide (currentTime c) targetFreq baseFreq s1
    else
      allocate note settings velocity initialSlide (currentTime c) targetFreq baseFreq s1.
Proof.
  intros Hc Hg Hf. rewrite playNote_unfold. rewrite Hc, Hg, Hf.
  rewrite (Rtruthy_positive baseFreq) by (eapply FREQUENCIES_positive; eassumption).
  cbn [negb].
  assert (E1 : getBentFrequency (resumeIfSuspended s) baseFreq = getBentFrequency s baseFreq).
  { unfold getBentFrequency, resumeIfSuspended. rewrite Hc. now destruct (state c). }
  assert (E2 : activeOscillators (resumeIfSuspended s) = activeOscillators s).
  { unfold resumeIfSuspended. rewrite Hc. now destruct (state c). }
  now rewrite E1, E2.
Qed.

Lemma reachable_ready : reachable ready.
Proof. now exists (Some running), [InitResume]. Qed.

Lemma reachable_oneVoice : reachable oneVoice.
Proof. now exists (Some running), [InitResume; PlayNote "A4" INITIAL_SETTINGS 0.4 0.5]. Qed.

Lemma oneVoice_allocated :
  exists f,
    oneVoice
    = allocate "A4" INITIAL_SETTINGS 0.4 0.5 0 (getBentFrequency ready f) f ready.
Proof.
  eexists. unfold oneVoice.
  erewrite playNote_known; [|reflexivity|reflexivity|reflexivity].
  reflexivity.
Qed.

Lemma oneVoice_map : activeOscillators oneVoice = [("A4", 0)].
Proof. destruct oneVoice_allocated as [f ->]. reflexivity. Qed.

Lemma oneVoice_ctx : ctx oneVoice = Some (newContext running).
Proof. destruct oneVoice_allocated as [f ->]. reflexivity. Qed.

Lemma oneVoice_mainGain : is_Some (mainGain oneVoice).
Proof. destruct oneVoice_allocated as [f ->]. cbn. eauto. Qed.

Lemma oneVoice_sustain : currentSustain oneVoice = false.
Proof. destruct oneVoice_allocated as [f ->]. reflexivity. Qed.

Lemma oneVoice_timers : timers oneVoice = [] /\ nextTimerId oneVoice = 1.
Proof. destruct oneVoice_allocated as [f ->]. split; reflexivity. Qed.

Lemma setPitchBend_targets_witness :
  exists c e e',
    ctx oneVoice = Some c
    /\ heap oneVoice !! 0 = Some e
    /\ heap (setPitchBend 0 oneVoice) !! 0 = Some e'
    /\ automation (osc_frequency (osc1 e'))
       = automation (osc_frequency (osc1 e))
         ++ [SetTargetAtTime (baseFreq e * Rpower 2 (0 * 2 / 12)) (currentTime c) 0.03]
    /\ automation (osc_frequency (osc2 e'))
       = automation (osc_frequency (osc2 e))
         ++ [SetTargetAtTime (baseFreq e * Rpower 2 (0 * 2 / 12)) (currentTime c) 0.03]
    /\ (forall j x, heap oneVoice !! j = Some x ->
        exists x', heap (setPitchBend 0 oneVoice) !! j = Some x' /\ baseFreq x' = baseFreq x)
    /\ (0%R = 0%R -> (baseFreq e * Rpower 2 (0 * 2 / 12))%R = baseFreq e).
Proof.
  apply (setPitchBend_targets 0 oneVoice "A4" 0).
  - exact reachable_oneVoice.
  - now rewrite oneVoice_map.
Defined.

(** ** Silent failures *)




(** [playNote] on a name that objects inherit. *)
Lemma playNoteCall_inherited note settings velocity initialSlide s c :
  ctx s = Some c -> is_Some (mainGain s) ->
  indexObject FREQUENCIES (shiftedNote note (octave settings)) = Inherited ->
  playNoteCall note settings velocity initialSlide s
  = Threw (atTypeError settings (currentTime c) (resumeIfSuspended s)).
Proof. intros Hc [g Hg] Hi. unfold playNoteCall. now rewrite Hc, Hg, Hi. Qed.




(** ** Note off: sustain, release and teardown *)


Lemma stopNote_releases note settings immediate s id c :
  Map.get (activeOscillators s) note = Some id -> ctx s = Some c ->
  currentSustain s && negb immediate = false ->
  stopNote note settings immediate s
  = let releaseTime := if immediate then 0.01%R else release settings in
    snd (setTimeout (Teardown note id) ((releaseTime + 0.2) * 1000)
           (mutate id (releaseEntry (currentTime c) releaseTime) s)).
Proof. intros Hg Hc Hs. unfold stopNote. now rewrite Hg, Hc, Hs. Qed.

Lemma releaseEntry_gain now releaseTime e :
  automation (gain_gain (gain (releaseEntry now releaseTime e)))
  = automation (gain_gain (gain e))
    ++ [CancelScheduledValues now; SetValueAtTime (value (gain_gain (gain e))) now;
        ExponentialRampToValueAtTime 0.001 (now + releaseTime)].
Proof. cbn. now rewrite <- !app_assoc. Qed.

Lemma releaseEntry_envelope now releaseTime e :
  automation (cs_offset (envSource (releaseEntry now releaseTime e)))
  = automation (cs_offset (envSource e))
    ++ [CancelScheduledValues now; SetValueAtTime (value (cs_offset (envSource e))) now;
        ExponentialRampToValueAtTime 0.001 (now + releaseTime)].
Proof. cbn. now rewrite <- !app_assoc. Qed.

Lemma find_fresh_timer (ts : list Timer) (t : Timer) :
  Forall (fun t' => timer_id t' < timer_id t) ts ->
  List.find (fun t' => Nat.eqb (timer_id t') (timer_id t)) (ts ++ [t]) = Some t.
Proof.
  induction 1 as [|t' ts Hlt _ IH]; cbn.
  - now rewrite Nat.eqb_refl.
  - destruct (Nat.eqb_spec (timer_id t') (timer_id t)); [lia | assumption].
Qed.

Lemma clear_fresh_timer (ts : list Timer) (t : Timer) :
  Forall (fun t' => timer_id t' < timer_id t) ts ->
  List.filter (fun t' => negb (Nat.eqb (timer_id t') (timer_id t))) (ts ++ [t]) = ts.
Proof.
  induction 1 as [|t' ts Hlt _ IH]; cbn.
  - now rewrite Nat.eqb_refl.
  - destruct (Nat.eqb_spec (timer_id t') (timer_id t)); [lia|]. cbn. now rewrite IH.
Qed.

Lemma pending_below_next s :
  wf s -> Forall (fun t => timer_id t < nextTimerId s) (timers s).
Proof.
  intros H. eapply Forall_impl; [apply (wf_pending s H)|]. cbn. intros; lia.
Qed.

Lemma teardown_heap note id t :
  heap (teardown note id t) = alter disconnectEntry id (heap t).
Proof. unfold teardown. now destruct (sameEntry _ _). Qed.

Lemma teardown_current note id t :
  Map.get (activeOscillators t) note = Some id ->
  activeOscillators (teardown note id t) = Map.delete (activeOscillators t) note.
Proof.
  intros H. unfold teardown. cbn [mutate activeOscillators set_heap]. rewrite H.
  cbn. now rewrite Nat.eqb_refl.
Qed.

Lemma teardown_stale note id t :
  Map.get (activeOscillators t) note <> Some id ->
  teardown note id t = mutate id disconnectEntry t.
Proof.
  intros H. unfold teardown. cbn [mutate activeOscillators set_heap].
  destruct (Map.get (activeOscillators t) note) as [id'|]; cbn; [|reflexivity].
  destruct (Nat.eqb_spec id' id); [congruence | reflexivity].
Qed.

(** C3, amended.  In every state of the engine, a [stopNote] that releases
    (sustain off, or [immediate]) the voice stored under [note]
    - cancels the pending automation of its amplitude and of its envelope
      source, holds the current value and ramps exponentially to 0.001 at
      [now + release] (0.01 s when [immediate]);
    - leaves the map as it is and adds one timer, due after
      [(release + 0.2) * 1000] ms, whose callback is the teardown of this
      entry under this key.
    The teardown, in whatever state [t] it runs, disconnects the nodes of
    the entry it was scheduled for; it deletes the key from the map when
    the key still leads to this very entry, and leaves the map untouched
    when it does not. *)
Theorem stopNote_release_and_teardown (note : string) (settings : SynthSettings)
  (immediate : bool) (s : AudioService) (id : nat) :
  reachable s ->
  Map.get (activeOscillators s) note = Some id ->
  currentSustain s && negb immediate = false ->
  let releaseTime := if immediate then 0.01%R else release settings in
  let s' := stopNote note settings immediate s in
  let due :=
    {| timer_id := nextTimerId s; timer_delay := (releaseTime + 0.2) * 1000;
       timer_callback := Teardown note id |} in
  exists c e e',
    ctx s = Some c
    /\ heap s !! id = Some e
    /\ heap s' !! id = Some e'
    /\ automation (gain_gain (gain e'))
       = automation (gain_gain (gain e))
         ++ [CancelScheduledValues (currentTime c);
             SetValueAtTime (value (gain_gain (gain e))) (currentTime c);
             ExponentialRampToValueAtTime 0.001 (currentTime c + releaseTime)]
    /\ automation (cs_offset (envSource e'))
       = automation (cs_offset (envSource e))
         ++ [CancelScheduledValues (currentTime c);
             SetValueAtTime (value (cs_offset (envSource e))) (currentTime c);
             ExponentialRampToValueAtTime 0.001 (currentTime c + releaseTime)]
    /\ activeOscillators s' = activeOscillators s
    /\ timers s' = timers s ++ [due]
    /\ fire (timer_id due) s' = Returned (teardown note id (set_timers (timers s) s'))
    /\ forall t,
        heap (teardown note id t) = alter disconnectEntry id (heap t)
        /\ (Map.get (activeOscillators t) note = Some id ->
            activeOscillators (teardown note id t)
            = Map.delete (activeOscillators t) note
            /\ Map.get (activeOscillators (teardown note id t)) note = None)
        /\ (Map.get (activeOscillators t) note <> Some id ->
            activeOscillators (teardown note id t) = activeOscillators t).
Proof.
  intros Hs Hget Hrel releaseTime s' due. apply reachable_wf in Hs.
  destruct (live_entry s note id Hs Hget) as (_ & _ & [e He] & [c Hc] & _).
  exists c, e, (releaseEntry (currentTime c) releaseTime e).
  assert (E : s' = snd (setTimeout (Teardown note id) ((releaseTime + 0.2) * 1000)
                          (mutate id (releaseEntry (currentTime c) releaseTime) s))).
  { subst s'. now rewrite (stopNote_releases note settings immediate s id c). }
  assert (Ht : timers s' = timers s ++ [due]) by now rewrite E.
  split_and!; try assumption.
  - rewrite E. cbn. now rewrite list_lookup_alter_eq, He.
  - apply releaseEntry_gain.
  - apply releaseEntry_envelope.
  - now rewrite E.
  - unfold fire. rewrite Ht.
    rewrite (find_fresh_timer (timers s) due) by now apply pending_below_next.
    cbn [timer_callback due runCallback]. do 2 f_equal.
    unfold clearTimeout. rewrite Ht.
    now rewrite (clear_fresh_timer (timers s) due) by now apply pending_below_next.
  - intros t. split_and!.
    + apply teardown_heap.
    + intros Ht'. rewrite teardown_current by assumption. split; [reflexivity|].
      apply get_delete_eq.
    + intros Ht'. now rewrite teardown_stale.
Qed.

Lemma newEntry_osc1_out settings lastFrequency now targetFreq baseFreq velocity initialSlide :
  osc_out (osc1 (newEntry settings lastFrequency now targetFreq baseFreq velocity
                   initialSlide)) = [ToFilter].
Proof.
  unfold newEntry, patchOscillators.
  destruct (patchCategory settings), (Rgtb (glide settings) 0 && truthy lastFrequency);
    reflexivity.
Qed.

Lemma reachable_retriggered : reachable retriggered.
Proof.
  now exists (Some running),
    [InitResume; PlayNote "A4" INITIAL_SETTINGS 0.4 0.5;
     StopNote "A4" INITIAL_SETTINGS false; PlayNote "A4" INITIAL_SETTINGS 0.4 0.5].
Qed.

Lemma oneVoice_heap :
  exists e, heap oneVoice = [e] /\ osc_out (osc1 e) = [ToFilter].
Proof.
  destruct oneVoice_allocated as [f ->].
  eexists. split; [reflexivity|]. apply newEntry_osc1_out.
Qed.

Lemma retriggered_state :
  activeOscillators retriggered = [("A4", 1)]
  /\ exists e e1,
      heap retriggered = [e; e1] /\ osc_out (osc1 e) = [ToFilter]
      /\ timers retriggered
         = [{| timer_id := 1; timer_delay := (release INITIAL_SETTINGS + 0.2) * 1000;
               timer_callback := Teardown "A4" 0 |}].
Proof.
  destruct oneVoice_heap as (e & He & Hout).
  destruct oneVoice_timers as [Ht Hn].
  destruct oneVoice_mainGain as [g Hg].
  unfold retriggered.
  rewrite (stopNote_releases "A4" INITIAL_SETTINGS false oneVoice 0 (newContext running));
    [|now rewrite oneVoice_map|apply oneVoice_ctx|now rewrite oneVoice_sustain].
  cbv zeta.
  erewrite playNote_known; [|exact oneVoice_ctx|exact Hg|reflexivity].
  cbn [monoMode INITIAL_SETTINGS andb].
  set (s1 := resumeIfSuspended _).
  assert (E : s1 = snd (setTimeout (Teardown "A4" 0)
                          ((release INITIAL_SETTINGS + 0.2) * 1000)
                          (mutate 0 (releaseEntry (currentTime (newContext running))
                                       (release INITIAL_SETTINGS)) oneVoice))).
  { subst s1. unfold resumeIfSuspended.
    cbn [ctx setTimeout snd set_nextTimerId set_timers mutate set_heap].
    now rewrite oneVoice_ctx. }
  rewrite E. unfold allocate, setTimeout, mutate.
  cbn -[oneVoice newEntry getBentFrequency releaseEntry alter].
  rewrite oneVoice_map, He, Ht, Hn. split; [reflexivity|].
  do 2 eexists. split_and!; [reflexivity|exact Hout|reflexivity].
Qed.

(** C3, as the specification states it, fails: the teardown of a voice whose key
    now leads to another entry is not a no-op, it disconnects the nodes of
    the voice it was scheduled for. *)
Lemma stale_teardown_still_disconnects :
  Map.get (activeOscillators retriggered) "A4" = Some 1
  /\ In (Teardown "A4" 0) (timer_callback <$> timers retriggered)
  /\ teardown "A4" 0 retriggered <> retriggered.
Proof.
  destruct retriggered_state as (Hm & e & e1 & Hh & Hout & Ht).
  split_and!.
  - now rewrite Hm.
  - rewrite Ht. now left.
  - intros E. apply (f_equal heap) in E. rewrite teardown_heap, Hh in E.
    cbn in E. injection E as E. apply (f_equal (fun x => osc_out (osc1 x))) in E.
    cbn in E. rewrite Hout in E. discriminate.
Qed.

Lemma stopNote_release_and_teardown_witness :
  exists c e e',
    ctx oneVoice = Some c
    /\ heap oneVoice !! 0 = Some e
    /\ heap (stopNote "A4" INITIAL_SETTINGS false oneVoice) !! 0 = Some e'
    /\ automation (gain_gain (gain e'))
       = automation (gain_gain (gain e))
         ++ [CancelScheduledValues (currentTime c);
             SetValueAtTime (value (gain_gain (gain e))) (currentTime c);
             ExponentialRampToValueAtTime 0.001 (currentTime c + release INITIAL_SETTINGS)]
    /\ automation (cs_offset (envSource e'))
       = automation (cs_offset (envSource e))
         ++ [CancelScheduledValues (currentTime c);
             SetValueAtTime (value (cs_offset (envSource e))) (currentTime c);
             ExponentialRampToValueAtTime 0.001 (currentTime c + release INITIAL_SETTINGS)]
    /\ activeOscillators (stopNote "A4" INITIAL_SETTINGS false oneVoice)
       = activeOscillators oneVoice
    /\ timers (stopNote "A4" INITIAL_SETTINGS false oneVoice)
       = timers oneVoice
         ++ [{| timer_id := nextTimerId oneVoice;
                timer_delay := (release INITIAL_SETTINGS + 0.2) * 1000;
                timer_callback := Teardown "A4" 0 |}]
    /\ fire (nextTimerId oneVoice) (stopNote "A4" INITIAL_SETTINGS false oneVoice)
       = Returned
           (teardown "A4" 0
              (set_timers (timers oneVoice)
                 (stopNote "A4" INITIAL_SETTINGS false oneVoice)))
    /\ forall t,
        heap (teardown "A4" 0 t) = alter disconnectEntry 0 (heap t)
        /\ (Map.get (activeOscillators t) "A4" = Some 0 ->
            activeOscillators (teardown "A4" 0 t)
            = Map.delete (activeOscillators t) "A4"
            /\ Map.get (activeOscillators (teardown "A4" 0 t)) "A4" = None)
        /\ (Map.get (activeOscillators t) "A4" <> Some 0 ->
            activeOscillators (teardown "A4" 0 t) = activeOscillators t).
Proof.
  apply (stopNote_release_and_teardown "A4" INITIAL_SETTINGS false oneVoice 0).
  - exact reachable_oneVoice.
  - now rewrite oneVoice_map.
  - now rewrite oneVoice_sustain.
Defined.

Lemma alterAll_lookup_proj {X : Type} (proj : ActiveOscillator -> X) f ids h (id : nat) e :
  (forall e, proj (f e) = proj e) -> h !! id = Some e ->
  exists e', alterAll f ids h !! id = Some e' /\ proj e' = proj e.
Proof.
  intros Hf He. destruct (alterAll_lookup_Some f ids h id e He) as [n Hn].
  eexists. split; [eassumption|]. clear Hn. induction n; cbn; [reflexivity|].
  now rewrite Hf.
Qed.


Section SustainRelease.

Variable settings : SynthSettings.
Variable m : list (string * nat).
Variable c : AudioContext.



End SustainRelease.

Lemma forEachEntry_lookup_proj {X : Type} (proj : ActiveOscillator -> X) f s (id : nat) e :
  (forall e, proj (f e) = proj e) -> heap s !! id = Some e ->
  exists e', heap (forEachEntry f s) !! id = Some e' /\ proj e' = proj e.
Proof.
  intros Hf He. rewrite forEachEntry_heap. cbn [heap set_heap].
  now apply alterAll_lookup_proj.
Qed.






(** ** Frames: what the note methods leave alone *)

Arguments forEachEntry : simpl never.

Ltac frame :=
  repeat first
    [ rewrite forEachEntry_heap
    | progress unfold setTimeout, clearTimeout, mutate
    | progress cbn
    | case_match
    | reflexivity
    | congruence ].

Lemma resumeIfSuspended_scheduling s :
  scheduling (resumeIfSuspended s) = scheduling s.
Proof. unfold resumeIfSuspended. frame. Qed.

Lemma updateNoteSlide_scheduling note slide s :
  scheduling (updateNoteSlide note slide s) = scheduling s.
Proof. unfold updateNoteSlide. frame. Qed.

Lemma atTypeError_scheduling settings now s :
  scheduling (atTypeError settings now s) = scheduling s.
Proof. unfold atTypeError. frame. Qed.

Lemma playNote_scheduling note settings velocity initialSlide s :
  scheduling (playNote note settings velocity initialSlide s) = scheduling s.
Proof.
  rewrite playNote_unfold.
  destruct (ctx s); [|reflexivity]. destruct (mainGain s); [|reflexivity].
  cbv zeta.
  destruct (property _ _);
    [|case_bool_decide; rewrite ?atTypeError_scheduling;
      apply resumeIfSuspended_scheduling].
  destruct (negb _); [apply resumeIfSuspended_scheduling|].
  destruct (_ && _).
  - unfold retarget. destruct (Map.first _) as [[existingNote entry]|];
      [|apply resumeIfSuspended_scheduling].
    rewrite updateNoteSlide_scheduling.
    rewrite <- (resumeIfSuspended_scheduling s). frame.
  - rewrite <- (resumeIfSuspended_scheduling s). reflexivity.
Qed.

Lemma stopNote_arpState note settings immediate s :
  arpState (stopNote note settings immediate s) = arpState s.
Proof. unfold stopNote. frame. Qed.

Lemma stopNote_control note settings immediate s :
  control (stopNote note settings immediate s) = control s.
Proof. unfold stopNote. frame. Qed.

Lemma stopNote_ctx note settings immediate s :
  ctx (stopNote note settings immediate s) = ctx s.
Proof. unfold stopNote. frame. Qed.

Lemma teardown_arpState note entry s : arpState (teardown note entry s) = arpState s.
Proof. unfold teardown. frame. Qed.

Lemma setPitchBend_control value s : control (setPitchBend value s) = control s.
Proof. unfold setPitchBend. cbn [ctx set_currentPitchBend]. frame. Qed.

Lemma setPitchBend_ctx value s : ctx (setPitchBend value s) = ctx s.
Proof. unfold setPitchBend. cbn [ctx set_currentPitchBend]. frame. Qed.

Lemma releaseSustained_frame settings s :
  ctx (releaseSustained settings s) = ctx s
  /\ control (releaseSustained settings s) = control s
  /\ arpState (releaseSustained settings s) = arpState s.
Proof.
  unfold releaseSustained.
  apply (fold_left_preserves
           (fun s' => ctx s' = ctx s /\ control s' = control s /\ arpState s' = arpState s));
    [|now split_and!].
  intros s0 [note id] (Hc & Hk & Ha). unfold releaseIfReleased.
  destruct (heap s0 !! id) as [entry|]; [|now split_and!].
  destruct (released entry); [|now split_and!].
  now rewrite stopNote_ctx, stopNote_control, stopNote_arpState.
Qed.

(** With the engine initialised, [updateGlobalParams] stores the sustain
    flag of the settings and leaves the map and the main gain alone. *)
Lemma updateGlobalParams_control settings s c dn dfn :
  ctx s = Some c -> delayNode s = Some dn -> delayFeedbackNode s = Some dfn ->
  ctx (updateGlobalParams settings s) = ctx s
  /\ control (updateGlobalParams settings s)
     = (mainGain s, sustain settings, activeOscillators s).
Proof.
  intros Hc Hdn Hdfn. unfold updateGlobalParams. rewrite Hc, Hdn, Hdfn.
  set (sA := if currentSustain s && negb (sustain settings) then _ else s).
  assert (HA : ctx sA = ctx s
               /\ mainGain sA = mainGain s /\ activeOscillators sA = activeOscillators s).
  { subst sA. destruct (_ && _); [|now split_and!].
    destruct (releaseSustained_frame settings (set_currentSustain false s))
      as (H1 & H2 & _).
    apply pair_equal_spec in H2 as [H2 H4]. apply pair_equal_spec in H2 as [H2 _].
    now split_and!. }
  destruct HA as (HA1 & HA2 & HA3).
  destruct (Req_dec_T _ _).
  - rewrite forEachEntry_heap. unfold control. cbn. now rewrite HA1, HA2, HA3, Hc.
  - rewrite setPitchBend_ctx, setPitchBend_control, forEachEntry_heap.
    unfold control. cbn. now rewrite HA1, HA2, HA3, Hc.
Qed.





(** ** The modulation matrix in a new voice *)

Lemma wire_fold now routes :
  forall w0,
    let w := fold_left (wireRoute now) routes w0 in
    w_modGains w = w_modGains w0 ++ omap (routeGain now) routes
    /\ osc_out (w_lfo w)
       = osc_out (w_lfo w0) ++ sourcePorts LFO (length (w_modGains w0)) routes
    /\ cs_out (w_envSource w)
       = cs_out (w_envSource w0) ++ sourcePorts ENV (length (w_modGains w0)) routes
    /\ cs_offset (w_envSource w) = cs_offset (w_envSource w0)
    /\ osc_type (w_lfo w) = osc_type (w_lfo w0)
    /\ osc_frequency (w_lfo w) = osc_frequency (w_lfo w0).
Proof.
  induction routes as [|r routes IH]; intros w0; cbn zeta.
  - cbn. now rewrite !app_nil_r.
  - cbn [fold_left]. specialize (IH (wireRoute now w0 r)). cbn zeta in IH.
    destruct IH as (H1 & H2 & H3 & H4 & H5 & H6).
    rewrite H1, H2, H3, H4, H5, H6. clear.
    unfold wireRoute, routeGain. cbn [omap sourcePorts list_omap].
    unfold routeGain.
    destruct (routeTarget (destination r)) as [target|]; [|now split_and!].
    cbn [w_modGains w_lfo w_envSource]. rewrite length_app. cbn [length].
    replace (length (w_modGains w0) + 1) with (S (length (w_modGains w0))) by lia.
    destruct (source r); cbn; rewrite <- ?app_assoc; now split_and!.
Qed.

Lemma sourcePorts_bounds now src routes :
  forall base j,
    ToModGain j ∈ sourcePorts src base routes ->
    base <= j < base + length (omap (routeGain now) routes).
Proof.
  induction routes as [|r routes IH]; intros base j Hj; [inversion Hj|].
  cbn [sourcePorts omap list_omap] in *. unfold routeGain at 1.
  destruct (routeTarget (destination r)) as [target|].
  - cbn [length]. apply elem_of_app in Hj as [Hj|Hj].
    + destruct (decide (source r = src)); [|inversion Hj].
      apply list_elem_of_singleton in Hj. injection Hj as ->. lia.
    + apply IH in Hj. lia.
  - apply IH in Hj. lia.
Qed.

(** The gain node of a wired route is fed by the signal of source [src]
    exactly when [src] is the source of the route. *)
Lemma sourcePorts_at now src before r after :
  is_Some (routeTarget (destination r)) ->
  forall base,
    ToModGain (base + length (omap (routeGain now) before))
      ∈ sourcePorts src base (before ++ r :: after)
    <-> source r = src.
Proof.
  intros [target Ht]. induction before as [|b before IH]; intros base.
  - cbn [app omap list_omap length sourcePorts]. rewrite Ht, Nat.add_0_r, elem_of_app.
    split.
    + intros [Hj|Hj].
      * destruct (decide (source r = src)); [assumption | inversion Hj].
      * apply (sourcePorts_bounds now) in Hj. lia.
    + intros E. left. rewrite decide_True by assumption. left.
  - cbn [app omap list_omap sourcePorts]. unfold routeGain at 1.
    destruct (routeTarget (destination b)) as [tb|].
    + cbn [length]. rewrite elem_of_app.
      replace (base + S (length (omap (routeGain now) before)))
        with (S base + length (omap (routeGain now) before)) by lia.
      rewrite <- (IH (S base)). split; [|now right].
      intros [Hj|Hj]; [|assumption].
      destruct (decide (source b = src)); [|inversion Hj].
      apply list_elem_of_singleton in Hj. injection Hj as Hj. lia.
    + apply IH.
Qed.

Lemma omap_routeGain_app now before r after target :
  routeTarget (destination r) = Some target ->
  omap (routeGain now) (before ++ r :: after)
  !! length (omap (routeGain now) before)
  = Some
      (GainN.connect target
         (GainN.gain (SetValueAtTime (amount r * routeScale (destination r)) now)
            createGain)).
Proof.
  intros Ht. rewrite omap_app. rewrite lookup_app_r by lia.
  rewrite Nat.sub_diag. cbn. unfold routeGain at 1. now rewrite Ht.
Qed.

(** The graph of a new voice. *)
Lemma newEntry_graph settings lastFrequency now targetFreq baseFreq velocity initialSlide :
  let e := newEntry settings lastFrequency now targetFreq baseFreq velocity initialSlide in
  modGains e
  = omap (routeGain now) (modMatrix settings)
    ++ [GainN.connect (slideTarget (keySlideTarget settings))
          (GainN.gain (SetValueAtTime (slideScale (keySlideTarget settings)) now)
             createGain)]
  /\ osc_out (lfo e) = sourcePorts LFO 0 (modMatrix settings)
  /\ cs_out (envSource e) = sourcePorts ENV 0 (modMatrix settings)
  /\ cs_out (slideSource e) = [ToModGain (length (omap (routeGain now) (modMatrix settings)))]
  /\ automation (cs_offset (envSource e))
     = [SetValueAtTime 0 now;
        LinearRampToValueAtTime 1 (now + Rmax 0.005 (attack settings))]
  /\ osc_out (osc1 e) = [ToFilter]
  /\ osc_out (osc2 e) = [ToFilter]
  /\ gain_out (gain e) = [ToMainGain]
  /\ bq_out (filter e) = [ToNoteGain].
Proof.
  cbn zeta. unfold newEntry.
  destruct (patchOscillators settings now createOscillator createOscillator)
    as [o1 o2] eqn:Hp.
  match goal with
  | |- context [fold_left (wireRoute now) ?routes ?w0] =>
      destruct (wire_fold now routes w0) as (H1 & H2 & H3 & H4 & _ & _)
  end.
  cbn [modGains lfo envSource slideSource osc1 osc2 gain filter].
  rewrite H1, H2, H3, H4. cbn.
  assert (Ho : osc_out o1 = [] /\ osc_out o2 = []).
  { unfold patchOscillators in Hp.
    destruct (patchCategory settings); injection Hp as <- <-; now split. }
  destruct Ho as [Ho1 Ho2].
  split_and!; try reflexivity;
    destruct (Rgtb (glide settings) 0 && truthy lastFrequency); cbn;
    now rewrite ?Ho1, ?Ho2.
Qed.

Lemma resumeIfSuspended_voices s :
  heap (resumeIfSuspended s) = heap s
  /\ activeOscillators (resumeIfSuspended s) = activeOscillators s
  /\ lastFrequency (resumeIfSuspended s) = lastFrequency s
  /\ currentPitchBend (resumeIfSuspended s) = currentPitchBend s.
Proof. unfold resumeIfSuspended. destruct (ctx s) as [c|]; [destruct (state c)|]; now cbn. Qed.

(** [playNote] when it creates a voice. *)
Lemma playNote_allocates note settings velocity initialSlide s c g baseFreq :
  ctx s = Some c -> mainGain s = Some g ->
  property FREQUENCIES (shiftedNote note (octave settings)) = Some baseFreq ->
  monoMode settings && Nat.ltb 0 (Map.size (activeOscillators s)) = false ->
  let e :=
    newEntry settings (lastFrequency s) (currentTime c) (getBentFrequency s baseFreq)
      baseFreq velocity initialSlide in
  let s' := playNote note settings velocity initialSlide s in
  heap s' = heap s ++ [e]
  /\ activeOscillators s' = Map.set (activeOscillators s) note (length (heap s))
  /\ lastFrequency s' = Some (getBentFrequency s baseFreq).
Proof.
  intros Hc Hg Hf Hm. cbn zeta.
  rewrite (playNote_known note settings velocity initialSlide s c g baseFreq)
    by assumption.
  cbn zeta. rewrite Hm. unfold allocate.
  destruct (resumeIfSuspended_voices s) as (H1 & H2 & H3 & _).
  cbn. now rewrite H1, H2, H3.
Qed.

Lemma routeGain_out now (routes : list ModRoute) g :
  g ∈ omap (routeGain now) routes ->
  exists r target, routeTarget (destination r) = Some target /\ gain_out g = [target].
Proof.
  intros Hg. apply list_elem_of_omap in Hg as (r & _ & Hr).
  unfold routeGain in Hr. destruct (routeTarget (destination r)) as [target|] eqn:E;
    [|discriminate].
  injection Hr as <-. now exists r, target.
Qed.

Lemma gestureSourced_source r :
  gestureSourced r = true -> source r <> LFO /\ source r <> ENV.
Proof.
  unfold gestureSourced. destruct (source r); cbn; intros H; split; congruence.
Qed.

(** C5, amended.  When [playNote] creates a voice, every route of
    [settings.modMatrix] whose destination is Cutoff, Resonance, Pitch or
    Gain has a gain node in [modGains] (at the position that counts the
    routes before it with such a destination) whose gain is set to
    [amount * scale], with scale 6000, 15, 800 and 0.5, and whose output
    goes to the filter frequency, the filter Q, the frequency of the
    first oscillator and the gain of the note.  The LFO oscillator is
    connected to that node exactly when the source is LFO, the envelope
    source (which ramps linearly from 0 to 1 over the attack) exactly when
    the source is ENV.  For a gesture source the node is there all the
    same, set and connected to its destination, but no output of the
    voice is connected to it. *)
Theorem modMatrix_wiring (note : string) (settings : SynthSettings)
  (velocity initialSlide : R) (s : AudioService) (c : AudioContext) (g : GainNode)
  (baseFreq : R) (before after : list ModRoute) (route : ModRoute) :
  ctx s = Some c -> mainGain s = Some g ->
  property FREQUENCIES (shiftedNote note (octave settings)) = Some baseFreq ->
  monoMode settings && Nat.ltb 0 (Map.size (activeOscillators s)) = false ->
  modMatrix settings = before ++ route :: after ->
  destination route ∈ [Cutoff; Resonance; Pitch; Gain] ->
  let s' := playNote note settings velocity initialSlide s in
  let j := length (omap (routeGain (currentTime c)) before) in
  (routeScale Cutoff, routeScale Resonance, routeScale Pitch, routeScale Gain)
  = (6000, 15, 800, 0.5)%R
  /\ (routeTarget Cutoff, routeTarget Resonance, routeTarget Pitch, routeTarget Gain)
     = (Some ToFilterFrequency, Some ToFilterQ, Some ToOsc1Frequency, Some ToNoteGainGain)
  /\ exists e modGain,
      heap s' !! length (heap s) = Some e
      /\ Map.get (activeOscillators s') note = Some (length (heap s))
      /\ modGains e !! j = Some modGain
      /\ automation (gain_gain modGain)
         = [SetValueAtTime (amount route * routeScale (destination route))
              (currentTime c)]
      /\ Some (gain_out modGain) = (fun t => [t]) <$> routeTarget (destination route)
      /\ (ToModGain j ∈ osc_out (lfo e) <-> source route = LFO)
      /\ (ToModGain j ∈ cs_out (envSource e) <-> source route = ENV)
      /\ automation (cs_offset (envSource e))
         = [SetValueAtTime 0 (currentTime c);
            LinearRampToValueAtTime 1 (currentTime c + Rmax 0.005 (attack settings))]
      /\ (gestureSourced route = true -> ToModGain j ∉ connections e).
Proof.
  intros Hc Hg Hf Hm Hroutes Hdest s' j.
  split; [reflexivity|]. split; [reflexivity|].
  assert (Ht : exists target, routeTarget (destination route) = Some target).
  { destruct (destination route); cbn; eauto;
      repeat (apply elem_of_cons in Hdest as [Hdest|Hdest]; [discriminate|]);
      inversion Hdest. }
  destruct Ht as [target Ht].
  destruct (playNote_allocates note settings velocity initialSlide s c g baseFreq
              Hc Hg Hf Hm) as (Hh & Hmap & _).
  fold s' in Hh, Hmap.
  set (e := newEntry settings (lastFrequency s) (currentTime c)
              (getBentFrequency s baseFreq) baseFreq velocity initialSlide) in *.
  destruct (newEntry_graph settings (lastFrequency s) (currentTime c)
              (getBentFrequency s baseFreq) baseFreq velocity initialSlide)
    as (Hmg & Hlfo & Henv & Hslide & Hoff & Ho1 & Ho2 & Hgo & Hbo).
  fold e in Hmg, Hlfo, Henv, Hslide, Hoff, Ho1, Ho2, Hgo, Hbo.
  pose proof (omap_routeGain_app (currentTime c) before route after target Ht) as Hj.
  rewrite <- Hroutes in Hj. fold j in Hj.
  eexists e, _. split_and!.
  - rewrite Hh. apply list_lookup_middle. reflexivity.
  - rewrite Hmap. apply get_set_eq.
  - rewrite Hmg. rewrite lookup_app_l; [exact Hj|]. now apply lookup_lt_Some in Hj.
  - reflexivity.
  - now rewrite Ht.
  - rewrite Hlfo, Hroutes.
    apply (sourcePorts_at (currentTime c) LFO before route after (ex_intro _ _ Ht) 0).
  - rewrite Henv, Hroutes.
    apply (sourcePorts_at (currentTime c) ENV before route after (ex_intro _ _ Ht) 0).
  - exact Hoff.
  - intros Hgest. apply gestureSourced_source in Hgest as [HL HE].
    unfold connections. rewrite Ho1, Ho2, Hgo, Hbo, Hlfo, Henv, Hslide, Hmg.
    rewrite !elem_of_app. intros [H|[H|[H|[H|[H|[H|[H|H]]]]]]].
    + apply list_elem_of_singleton in H. discriminate.
    + apply list_elem_of_singleton in H. discriminate.
    + apply list_elem_of_singleton in H. discriminate.
    + apply list_elem_of_singleton in H. discriminate.
    + rewrite Hroutes in H.
      apply (sourcePorts_at (currentTime c) LFO before route after (ex_intro _ _ Ht) 0)
        in H. contradiction.
    + rewrite Hroutes in H.
      apply (sourcePorts_at (currentTime c) ENV before route after (ex_intro _ _ Ht) 0)
        in H. contradiction.
    + apply list_elem_of_singleton in H. injection H as H.
      apply lookup_lt_Some in Hj. fold j in H. lia.
    + apply list_elem_of_In, in_concat in H as (outs & Houts & H).
      apply list_elem_of_In in Houts, H.
      apply list_elem_of_fmap in Houts as (mg & -> & Hmg').
      apply elem_of_app in Hmg' as [Hmg'|Hmg'].
      * apply routeGain_out in Hmg' as (r & t & Hr & Hout). rewrite Hout in H.
        apply list_elem_of_singleton in H. subst t.
        destruct (destination r); discriminate.
      * apply list_elem_of_singleton in Hmg'. subst mg. cbn in H.
        apply list_elem_of_singleton in H.
        destruct (keySlideTarget settings); discriminate.
Qed.

Lemma ready_fields :
  ctx ready = Some (newContext running)
  /\ mainGain ready = Some {| gain_gain := newParam 0.5; gain_out := [] |}
  /\ heap ready = [] /\ activeOscillators ready = [].
Proof. now split_and!. Qed.

Lemma A4_frequency :
  property FREQUENCIES (shiftedNote "A4" 0) = Some (440 * Rpower 2 (0 / 12))%R.
Proof. reflexivity. Qed.

(** C5, as the specification states it, fails: a gesture route whose destination is
    the cutoff does get a node of the voice graph, set to [amount * 6000]
    and connected to the frequency of the filter. *)
Lemma gesture_route_gets_a_gain_node :
  exists e modGain,
    heap (playNote "A4" gestureCutoff 0.4 0.5 ready) !! 0 = Some e
    /\ gestureSourced {| source := Gesture_L_V; destination := Cutoff; amount := 0.5 |}
       = true
    /\ modGains e !! 0 = Some modGain
    /\ automation (gain_gain modGain) = [SetValueAtTime (0.5 * 6000) 0]
    /\ gain_out modGain = [ToFilterFrequency]
    /\ ToFilterFrequency ∈ connections e.
Proof.
  destruct ready_fields as (Hc & Hg & Hh & Hm).
  destruct (playNote_allocates "A4" gestureCutoff 0.4 0.5 ready _ _ _ Hc Hg A4_frequency)
    as (Hheap & _); [reflexivity|].
  rewrite Hh in Hheap. cbn [app] in Hheap.
  match type of Hheap with _ = [?x] => set (e := x) in * end.
  destruct (newEntry_graph gestureCutoff (lastFrequency ready)
              (currentTime (newContext running))
              (getBentFrequency ready (440 * Rpower 2 (0 / 12))) (440 * Rpower 2 (0 / 12))
              0.4 0.5) as (Hmg & _).
  fold e in Hmg.
  eexists e, _. rewrite Hheap. split_and!.
  - reflexivity.
  - reflexivity.
  - rewrite Hmg. reflexivity.
  - reflexivity.
  - reflexivity.
  - unfold connections. rewrite Hmg, !elem_of_app. do 7 right. cbn. left.
Qed.

Lemma modMatrix_wiring_witness :
  exists e modGain,
    heap (playNote "A4" INITIAL_SETTINGS 0.4 0.5 ready) !! length (heap ready) = Some e
    /\ Map.get (activeOscillators (playNote "A4" INITIAL_SETTINGS 0.4 0.5 ready)) "A4"
       = Some (length (heap ready))
    /\ modGains e
       !! length
            (omap (routeGain (currentTime (newContext running)))
               [ {| source := LFO; destination := Cutoff; amount := 0.2 |} ])
       = Some modGain
    /\ automation (gain_gain modGain)
       = [SetValueAtTime (0.5 * routeScale Cutoff) (currentTime (newContext running))]
    /\ Some (gain_out modGain) = (fun t => [t]) <$> routeTarget Cutoff
    /\ (ToModGain 1 ∈ osc_out (lfo e) <-> ENV = LFO)
    /\ (ToModGain 1 ∈ cs_out (envSource e) <-> ENV = ENV)
    /\ automation (cs_offset (envSource e))
       = [SetValueAtTime 0 (currentTime (newContext running));
          LinearRampToValueAtTime 1
            (currentTime (newContext running) + Rmax 0.005 (attack INITIAL_SETTINGS))]
    /\ (gestureSourced {| source := ENV; destination := Cutoff; amount := 0.5 |} = true ->
        ToModGain 1 ∉ connections e).
Proof.
  apply (modMatrix_wiring "A4" INITIAL_SETTINGS 0.4 0.5 ready (newContext running)
           {| gain_gain := newParam 0.5; gain_out := [] |} (440 * Rpower 2 (0 / 12))
           [ {| source := LFO; destination := Cutoff; amount := 0.2 |} ] []
           {| source := ENV; destination := Cutoff; amount := 0.5 |}).
  - reflexivity.
  - reflexivity.
  - exact A4_frequency.
  - reflexivity.
  - reflexivity.
  - left.
Defined.

(** ** Mono mode: the retarget *)

Lemma resumeIfSuspended_time s c :
  ctx s = Some c ->
  exists c', ctx (resumeIfSuspended s) = Some c' /\ currentTime c' = currentTime c.
Proof.
  intros Hc. unfold resumeIfSuspended. rewrite Hc.
  destruct (state c); cbn; eauto.
Qed.

Lemma Rgtb_true a b : (b < a)%R -> Rgtb a b = true.
Proof. intros H. unfold Rgtb. destruct (Rlt_dec b a); [reflexivity | contradiction]. Qed.

Lemma Rgtb_false a b : (a <= b)%R -> Rgtb a b = false.
Proof. intros H. unfold Rgtb. destruct (Rlt_dec b a); [lra | reflexivity]. Qed.

Lemma retargetEntry_frequency settings now targetFreq baseFreq e :
  automation (osc_frequency (osc1 (retargetEntry settings now targetFreq baseFreq e)))
  = automation (osc_frequency (osc1 e)) ++ retargetCalls settings now targetFreq
  /\ automation (osc_frequency (osc2 (retargetEntry settings now targetFreq baseFreq e)))
     = automation (osc_frequency (osc2 e)) ++ retargetCalls settings now targetFreq.
Proof.
  unfold retargetEntry, retargetCalls.
  destruct (Rgtb (glide settings) 0); cbn; now rewrite <- !app_assoc.
Qed.

Lemma retargetEntry_rest settings now targetFreq newBase e :
  let e' := retargetEntry settings now targetFreq newBase e in
  baseFreq e' = newBase /\ released e' = false /\ gain e' = gain e
  /\ envSource e' = envSource e /\ slideSource e' = slideSource e.
Proof.
  cbn zeta. unfold retargetEntry. destruct (Rgtb (glide settings) 0); now split_and!.
Qed.

(** The mono branch on a state whose map has an oldest entry. *)
Lemma retarget_fields note settings initialSlide now targetFreq baseFreq t c
  existingNote id rest :
  ctx t = Some c -> activeOscillators t = (existingNote, id) :: rest ->
  NoDup ((existingNote, id) :: rest).*1 ->
  let t' := retarget note settings initialSlide now targetFreq baseFreq t in
  activeOscillators t'
  = (if String.eqb existingNote note then (existingNote, id) :: rest
     else Map.set rest note id)
  /\ heap t'
     = alter (with_slideSource
                (Const.offset (SetTargetAtTime initialSlide (currentTime c) 0.01)))
         id (alter (retargetEntry settings now targetFreq baseFreq) id (heap t))
  /\ lastFrequency t' = Some targetFreq.
Proof.
  intros Hc Hm Hnd. cbn zeta. unfold retarget. rewrite Hm. cbn [Map.first head].
  set (t1 := mutate id (retargetEntry settings now targetFreq baseFreq) t).
  assert (Hm1 : activeOscillators t1 = (existingNote, id) :: rest) by exact Hm.
  set (m' := if String.eqb existingNote note then (existingNote, id) :: rest
             else Map.set rest note id).
  set (t2 := if negb (String.eqb existingNote note) then _ else t1).
  assert (H2 : activeOscillators t2 = m' /\ heap t2 = heap t1 /\ ctx t2 = Some c).
  { subst t2 m'. destruct (String.eqb existingNote note); cbn [negb].
    - now split_and!.
    - cbn. rewrite Hm. now rewrite (delete_first rest existingNote id Hnd). }
  destruct H2 as (H2m & H2h & H2c).
  assert (Hget : Map.get m' note = Some id).
  { subst m'. destruct (String.eqb_spec existingNote note) as [->|Hne].
    - cbn. now rewrite String.eqb_refl.
    - apply get_set_eq. }
  unfold updateNoteSlide.
  cbn [activeOscillators ctx set_lastFrequency]. rewrite H2m, Hget, H2c.
  cbn. now rewrite H2m, H2h.
Qed.

(** A note played into silence leaves at most its own voice. *)
Lemma playNote_from_silence note settings velocity initialSlide s :
  activeOscillators s = [] ->
  activeOscillators (playNote note settings velocity initialSlide s) = []
  \/ activeOscillators (playNote note settings velocity initialSlide s)
     = [(note, length (heap s))].
Proof.
  intros Hm. rewrite playNote_unfold.
  destruct (ctx s) as [c|]; [|now left]. destruct (mainGain s); [|now left].
  destruct (resumeIfSuspended_voices s) as (Hh & Hm' & _). cbv zeta.
  destruct (property _ _);
    [|left; case_bool_decide; rewrite ?(proj1 (atTypeError_fields _ _ _)); congruence].
  destruct (negb _); [left; congruence|].
  rewrite Hm', Hm. cbn [Map.size length Nat.ltb Nat.leb]. rewrite andb_false_r.
  right. unfold allocate. cbn. now rewrite Hm', Hm, Hh.
Qed.

(** C1.  In every state of the engine with a live voice, [playNote] in
    mono mode on a note of the table allocates nothing: the heap keeps its
    length and its other entries.  On the oldest entry of the map it
    cancels the frequency automation of both oscillators and then ramps
    them exponentially to the target at [now + glide] (sets them at [now]
    when [glide] is 0), the target being the base frequency of the new
    note times [2^(bend*2/12)]; it stores that base frequency, clears the
    [released] flag and leaves the amplitude alone.  Afterwards the note
    leads to that same entry, the old key, if it differs, leads nowhere,
    and the map has not grown.  If the state is the one a first [playNote]
    left from silence, the map holds exactly one voice before and after,
    now under the new note. *)
Theorem mono_retarget (note : string) (settings : SynthSettings)
  (velocity initialSlide : R) (s : AudioService) (newBase : R) :
  reachable s ->
  monoMode settings = true ->
  activeOscillators s <> [] ->
  property FREQUENCIES (shiftedNote note (octave settings)) = Some newBase ->
  let s' := playNote note settings velocity initialSlide s in
  let targetFreq := (newBase * Rpower 2 (currentPitchBend s * 2 / 12))%R in
  exists c existingNote id rest e e',
    ctx s = Some c
    /\ activeOscillators s = (existingNote, id) :: rest
    /\ heap s !! id = Some e
    /\ length (heap s') = length (heap s)
    /\ (forall j, j <> id -> heap s' !! j = heap s !! j)
    /\ heap s' !! id = Some e'
    /\ automation (osc_frequency (osc1 e'))
       = automation (osc_frequency (osc1 e))
         ++ retargetCalls settings (currentTime c) targetFreq
    /\ automation (osc_frequency (osc2 e'))
       = automation (osc_frequency (osc2 e))
         ++ retargetCalls settings (currentTime c) targetFreq
    /\ ((0 < glide settings)%R ->
        retargetCalls settings (currentTime c) targetFreq
        = [CancelScheduledValues (currentTime c);
           ExponentialRampToValueAtTime targetFreq (currentTime c + glide settings)])
    /\ (glide settings = 0%R ->
        retargetCalls settings (currentTime c) targetFreq
        = [CancelScheduledValues (currentTime c);
           SetValueAtTime targetFreq (currentTime c)])
    /\ baseFreq e' = newBase
    /\ released e' = false
    /\ gain e' = gain e
    /\ envSource e' = envSource e
    /\ Map.get (activeOscillators s') note = Some id
    /\ (existingNote <> note -> Map.get (activeOscillators s') existingNote = None)
    /\ Map.size (activeOscillators s') <= Map.size (activeOscillators s)
    /\ (forall s0 first settings0 velocity0 slide0,
           s = playNote first settings0 velocity0 slide0 s0 ->
           activeOscillators s0 = [] ->
           Map.size (activeOscillators s) = 1
           /\ Map.size (activeOscillators s') = 1
           /\ activeOscillators s' = [(note, id)]).
Proof.
  intros Hs Hmono Hlive Hf s' targetFreq. apply reachable_wf in Hs.
  destruct (activeOscillators s) as [|[existingNote id] rest] eqn:Hm; [congruence|].
  destruct (live_entry s existingNote id Hs) as (_ & _ & [e He] & [c Hc] & [g Hg]).
  { rewrite Hm. cbn. now rewrite String.eqb_refl. }
  assert (Hnd : NoDup ((existingNote, id) :: rest).*1).
  { rewrite <- Hm. apply Hs. }
  destruct (resumeIfSuspended_time s c Hc) as (c1 & Hc1 & Htime).
  destruct (resumeIfSuspended_voices s) as (Hh1 & Hm1 & _).
  assert (E : s' = retarget note settings initialSlide (currentTime c) targetFreq newBase
                     (resumeIfSuspended s)).
  { subst s'. rewrite (playNote_known note settings velocity initialSlide s c g newBase)
      by assumption.
    cbn zeta. now rewrite Hmono, Hm. }
  destruct (retarget_fields note settings initialSlide (currentTime c) targetFreq newBase
              (resumeIfSuspended s) c1 existingNote id rest Hc1)
    as (Hmap & Hheap & _); [congruence|assumption|].
  rewrite <- E in Hmap, Hheap. rewrite Hh1, Htime in Hheap.
  exists c, existingNote, id, rest, e,
    (with_slideSource
       (Const.offset (SetTargetAtTime initialSlide (currentTime c) 0.01))
       (retargetEntry settings (currentTime c) targetFreq newBase e)).
  destruct (retargetEntry_rest settings (currentTime c) targetFreq newBase e)
    as (Hb & Hr & Hgn & Henv & _).
  split_and!.
  - assumption.
  - reflexivity.
  - assumption.
  - now rewrite Hheap, !length_alter.
  - intros j Hj. now rewrite Hheap, !list_lookup_alter_ne.
  - rewrite Hheap, !list_lookup_alter_eq, He. reflexivity.
  - apply retargetEntry_frequency.
  - apply retargetEntry_frequency.
  - intros Hglide. unfold retargetCalls. now rewrite Rgtb_true.
  - intros Hglide. unfold retargetCalls. rewrite Rgtb_false by lra. reflexivity.
  - exact Hb.
  - exact Hr.
  - exact Hgn.
  - exact Henv.
  - rewrite Hmap. destruct (String.eqb_spec existingNote note) as [->|Hne].
    + cbn. now rewrite String.eqb_refl.
    + apply get_set_eq.
  - intros Hne. rewrite Hmap. destruct (String.eqb_spec existingNote note); [congruence|].
    rewrite get_set_ne by congruence. apply get_None_keys.
    apply NoDup_cons in Hnd. apply Hnd.
  - rewrite Hmap. unfold Map.size. destruct (String.eqb existingNote note); [reflexivity|].
    pose proof (set_length rest note id). cbn. lia.
  - intros s0 first settings0 velocity0 slide0 E0 Hsilent.
    destruct (playNote_from_silence first settings0 velocity0 slide0 s0 Hsilent)
      as [Hnone|Hone]; rewrite <- E0, Hm in *; [discriminate|].
    injection Hone as -> -> ->. rewrite Hmap.
    destruct (String.eqb_spec first note) as [->|Hne]; now split_and!.
Qed.

Lemma reachable_monoC4 : reachable monoC4.
Proof. now exists (Some running), [InitResume; PlayNote "C4" MONO_SETTINGS 0.4 0.5]. Qed.

Lemma monoC4_fields :
  activeOscillators monoC4 = [("C4", 0)]
  /\ ctx monoC4 = Some (newContext running)
  /\ currentPitchBend monoC4 = 0%R.
Proof.
  unfold monoC4.
  erewrite playNote_known; [|reflexivity|reflexivity|reflexivity].
  now split_and!.
Qed.

Lemma E4_frequency :
  property FREQUENCIES (shiftedNote "E4" 0) = Some (440 * Rpower 2 (-5 / 12))%R.
Proof. reflexivity. Qed.

Lemma mono_retarget_witness :
  Map.size (activeOscillators monoC4) = 1
  /\ activeOscillators (playNote "E4" MONO_SETTINGS 0.4 0.5 monoC4) = [("E4", 0)]
  /\ exists e e',
      heap monoC4 !! 0 = Some e
      /\ heap (playNote "E4" MONO_SETTINGS 0.4 0.5 monoC4) !! 0 = Some e'
      /\ baseFreq e' = (440 * Rpower 2 (-5 / 12))%R
      /\ automation (osc_frequency (osc1 e'))
         = automation (osc_frequency (osc1 e))
           ++ [CancelScheduledValues 0;
               ExponentialRampToValueAtTime
                 (440 * Rpower 2 (-5 / 12) * Rpower 2 (0 * 2 / 12)) (0 + 0.1)].
Proof.
  destruct monoC4_fields as (Hm & Hc & Hb).
  destruct (mono_retarget "E4" MONO_SETTINGS 0.4 0.5 monoC4 (440 * Rpower 2 (-5 / 12)))
    as (c & existingNote & id & rest & e & e' & Hc' & Hm' & He & _ & _ & He' & Hf & _
        & Hglide & _ & Hbase & _ & _ & _ & _ & _ & _ & Hseq).
  - exact reachable_monoC4.
  - reflexivity.
  - now rewrite Hm.
  - exact E4_frequency.
  - rewrite Hm in Hm'. injection Hm' as <- <- <-.
    rewrite Hc in Hc'. injection Hc' as <-.
    destruct (Hseq ready "C4" MONO_SETTINGS 0.4%R 0.5%R eq_refl eq_refl) as (H1 & _ & H3).
    split_and!; [exact H1|exact H3|].
    exists e, e'. split_and!; [exact He|exact He'|exact Hbase|].
    rewrite Hf, Hglide, Hb; [reflexivity|]. cbn. lra.
Defined.

(** ** The allocation invariant *)




















(** ** The arpeggiator *)

#[global] Instance codeUnitLe_total : Total codeUnitLe.
Proof. intros a b. apply String.leb_total. Qed.




Lemma playNote_scheduling_fields note settings velocity initialSlide s :
  let s' := playNote note settings velocity initialSlide s in
  arpTimer s' = arpTimer s /\ activeNotesForArp s' = activeNotesForArp s
  /\ currentArpIndex s' = currentArpIndex s /\ timers s' = timers s
  /\ nextTimerId s' = nextTimerId s.
Proof.
  cbn zeta. pose proof (playNote_scheduling note settings velocity initialSlide s) as E.
  unfold scheduling in E.
  apply pair_equal_spec in E as [E H5]. apply pair_equal_spec in E as [E H4].
  apply pair_equal_spec in E as [E H3]. apply pair_equal_spec in E as [H1 H2].
  now split_and!.
Qed.

(** [playNote] returns unless the table is indexed by a name that
    objects inherit. *)
Lemma playNoteCall_returns note settings velocity initialSlide s :
  indexObject FREQUENCIES (shiftedNote note (octave settings)) <> Inherited ->
  playNoteCall note settings velocity initialSlide s
  = Returned (playNote note settings velocity initialSlide s).
Proof.
  intros Hi. unfold playNote, playNoteCall.
  destruct (ctx s); [|reflexivity]. destruct (mainGain s); [|reflexivity].
  cbv zeta. destruct (indexObject _ _) as [f| |]; [|contradiction|reflexivity].
  destruct (negb (Rtruthy f)); [reflexivity|]. now destruct (_ && _).
Qed.

Lemma playNote_windowDefined note settings velocity initialSlide s :
  windowDefined (playNote note settings velocity initialSlide s) = windowDefined s.
Proof.
  rewrite playNote_unfold.
  unfold windowDefined, atTypeError, retarget, allocate, updateNoteSlide,
    resumeIfSuspended.
  frame; cbn in *; congruence.
Qed.

(** A tick where there is a [window], with a note at the index that
    [playNote] takes. *)
Lemma tick_plays settings s note :
  activeNotesForArp s !! currentArpIndex s = Some note ->
  is_Some (ctx s) ->
  indexObject FREQUENCIES (shiftedNote note (octave settings)) <> Inherited ->
  tick settings s = Returned (ticked settings note s).
Proof.
  intros Hnote [c Hc] Hi. unfold tick.
  assert (Hlen : length (activeNotesForArp s) <> 0).
  { apply lookup_lt_Some in Hnote. lia. }
  apply Nat.eqb_neq in Hlen. rewrite Hlen, Hnote. cbn [arpPlayNote].
  rewrite (playNoteCall_returns note settings 0.3 0.5 s Hi).
  destruct (playNote_scheduling_fields note settings 0.3 0.5 s)
    as (_ & H2 & H3 & _ & H5).
  pose proof (playNote_windowDefined note settings 0.3 0.5 s) as Hw.
  unfold windowDefined in Hw. rewrite Hc in Hw.
  unfold ticked, setTimeout, windowDefined. cbn.
  destruct (ctx (playNote note settings 0.3 0.5 s)); [|discriminate].
  now rewrite H2, H3, H5.
Qed.

(** A tick where there is no [window]: nothing sounds, the note-off is
    queued and the index moves on, and the ReferenceError leaves the next
    tick unscheduled. *)
Lemma tick_headless settings s :
  ctx s = None -> activeNotesForArp s <> [] ->
  tick settings s
  = Threw
      (set_currentArpIndex
         ((currentArpIndex s + 1) mod length (activeNotesForArp s))
         (snd (setTimeout
                 (ArpNoteOff (activeNotesForArp s !! currentArpIndex s) settings)
                 (60 / arpRate settings * 0.8 * 1000) s))).
Proof.
  intros Hc Hne. unfold tick.
  assert (Hlen : length (activeNotesForArp s) <> 0) by now destruct (activeNotesForArp s).
  apply Nat.eqb_neq in Hlen. rewrite Hlen.
  assert (E : arpPlayNote (activeNotesForArp s !! currentArpIndex s) settings s
              = Returned s).
  { unfold arpPlayNote, playNoteCall. rewrite Hc.
    now destruct (activeNotesForArp s !! currentArpIndex s). }
  rewrite E. unfold windowDefined, setTimeout. cbn. now rewrite Hc.
Qed.


Lemma ticked_timers settings note s :
  timers (ticked settings note s)
  = timers s
    ++ [{| timer_id := nextTimerId s;
           timer_delay := 60 / arpRate settings * 0.8 * 1000;
           timer_callback := ArpNoteOff (Some note) settings |};
        {| timer_id := S (nextTimerId s);
           timer_delay := 60 / arpRate settings * 1000;
           timer_callback := ArpTick settings |}].
Proof.
  destruct (playNote_scheduling_fields note settings 0.3 0.5 s)
    as (_ & _ & _ & H4 & H5).
  unfold ticked, setTimeout. cbn. now rewrite H4, H5, <- app_assoc.
Qed.

(** *** The loop *)

Lemma extends_refl s : extends s s.
Proof. split; [reflexivity|]. exists []. now rewrite app_nil_r. Qed.

Lemma extends_trans s1 s2 s3 : extends s1 s2 -> extends s2 s3 -> extends s1 s3.
Proof.
  intros [Ha (x & Hx & Fx)] [Hb (y & Hy & Fy)]. split; [congruence|].
  exists (x ++ y). rewrite Hy, Hx, app_assoc. split; [reflexivity|].
  now apply Forall_app.
Qed.

Lemma extends_same s s' : scheduling s' = scheduling s -> extends s s'.
Proof.
  unfold scheduling. intros E.
  apply pair_equal_spec in E as [E H5]. apply pair_equal_spec in E as [E H4].
  split; [exact E|]. exists []. now rewrite app_nil_r.
Qed.

Lemma extends_stopNote note settings immediate s :
  extends s (stopNote note settings immediate s).
Proof.
  unfold stopNote. destruct (Map.get _ _); [|apply extends_refl].
  destruct (ctx s); [|apply extends_refl].
  destruct (_ && _); [now apply extends_same|].
  split; [reflexivity|]. eexists. split; [reflexivity|]. now repeat constructor.
Qed.

Lemma extends_teardown note entry s : extends s (teardown note entry s).
Proof. apply extends_same. unfold teardown. now destruct (sameEntry _ _). Qed.

Lemma extends_forEachEntry f s : extends s (forEachEntry f s).
Proof. apply extends_same. now rewrite forEachEntry_heap. Qed.

Lemma extends_setPitchBend value s : extends s (setPitchBend value s).
Proof.
  unfold setPitchBend. cbn [ctx set_currentPitchBend].
  destruct (ctx s); [|now apply extends_same].
  eapply extends_trans; [|apply extends_forEachEntry]. now apply extends_same.
Qed.

Lemma extends_updateGlobalParams settings s :
  extends s (updateGlobalParams settings s).
Proof.
  unfold updateGlobalParams.
  destruct (ctx s); [|apply extends_refl]. destruct (delayNode s); [|apply extends_refl].
  destruct (delayFeedbackNode s); [|apply extends_refl].
  match goal with
  | |- extends s (if _ then ?a else setPitchBend _ _) => assert (Ha : extends s a)
  end.
  { eapply extends_trans; [|apply extends_forEachEntry].
    match goal with
    | |- extends s (set_delayFeedbackNode _ (set_delayNode _ (set_currentSustain _ ?b))) =>
        assert (Hb : extends s b); [|exact Hb]
    end.
    destruct (_ && _); [|apply extends_refl].
    unfold releaseSustained.
    apply (fold_left_preserves (extends s)); [|now apply extends_same].
    intros s0 [note id] H0. unfold releaseIfReleased.
    destruct (heap s0 !! id) as [entry|]; [|assumption].
    destruct (released entry); [|assumption].
    eapply extends_trans; [exact H0 | apply extends_stopNote]. }
  destruct (Req_dec_T _ _); [assumption|].
  eapply extends_trans; [exact Ha | apply extends_setPitchBend].
Qed.

Lemma extends_playNote note settings velocity initialSlide s :
  extends s (playNote note settings velocity initialSlide s).
Proof. apply extends_same, playNote_scheduling. Qed.

Lemma extends_oneTick s s' : extends s s' -> oneTick s -> oneTick s'.
Proof.
  intros [Ha (x & Hx & Fx)] H. unfold oneTick. rewrite Hx.
  unfold arpState in Ha. apply pair_equal_spec in Ha as [Ha _].
  apply pair_equal_spec in Ha as [Ha _]. rewrite Ha.
  apply Forall_app. split; [exact H|].
  eapply Forall_impl; [exact Fx|]. cbn. congruence.
Qed.

Lemma extends_noTick s s' : extends s s' -> noTick s -> noTick s'.
Proof.
  intros [_ (x & Hx & Fx)] H. unfold noTick. rewrite Hx. now apply Forall_app.
Qed.

Lemma noTick_oneTick s : noTick s -> oneTick s.
Proof. intros H. eapply Forall_impl; [exact H|]. cbn. congruence. Qed.

Lemma noTick_clearTimeout id s : noTick s -> noTick (clearTimeout id s).
Proof. intros H. now apply filter_Forall. Qed.

(** Clearing the timer the handle stands for leaves no tick pending. *)
Lemma oneTick_clear_handle id s :
  oneTick s -> arpTimer s = Some id -> noTick (clearTimeout id s).
Proof.
  intros H Hid. unfold noTick, clearTimeout. cbn.
  apply Forall_forall. intros t Ht. apply list_elem_of_In, filter_In in Ht as [Ht Hne].
  apply list_elem_of_In in Ht. unfold oneTick in H. rewrite Forall_forall in H.
  specialize (H t Ht). destruct (isTick t); [|reflexivity].
  rewrite Hid in H. specialize (H eq_refl). injection H as ->.
  now rewrite Nat.eqb_refl in Hne.
Qed.

(** With a handle that is not truthy, no tick is pending. *)
Lemma oneTick_not_running s :
  wf s -> oneTick s -> handleTruthy (arpTimer s) = false -> noTick s.
Proof.
  intros Hwf H Hfalsy. unfold noTick. apply Forall_forall. intros t Ht.
  unfold oneTick in H. rewrite Forall_forall in H. specialize (H t Ht).
  pose proof (wf_pending s Hwf) as Hp. rewrite Forall_forall in Hp.
  specialize (Hp t Ht). destruct (isTick t); [|reflexivity].
  rewrite (H eq_refl) in Hfalsy. cbn in Hfalsy.
  destruct (Nat.eqb_spec (timer_id t) 0); [lia | discriminate].
Qed.

Lemma oneTick_stopArp s : wf s -> oneTick s -> noTick (stopArp s).
Proof.
  intros Hwf H. unfold stopArp.
  destruct (arpTimer s) as [id|] eqn:Hid.
  - destruct (handleTruthy (Some id)) eqn:Ht.
    + exact (oneTick_clear_handle id s H Hid).
    + apply (oneTick_not_running s Hwf H). now rewrite Hid.
  - apply (oneTick_not_running s Hwf H). now rewrite Hid.
Qed.

Lemma noTick_arpPlayNote note settings s :
  noTick s -> noTick (after (arpPlayNote note settings s)).
Proof.
  intros H. unfold arpPlayNote. destruct note as [n|].
  - exact (extends_noTick _ _ (extends_playNote n settings 0.3 0.5 s) H).
  - destruct (ctx s); [destruct (mainGain s)|]; cbn [after]; try exact H.
    exact (extends_noTick _ _ (extends_same _ _ (resumeIfSuspended_scheduling s)) H).
Qed.

Lemma noTick_tick settings s : noTick s -> oneTick (after (tick settings s)).
Proof.
  intros H. unfold tick.
  destruct (Nat.eqb _ 0).
  { apply noTick_oneTick. unfold stopArp.
    destruct (arpTimer s) as [id|]; [|exact H].
    destruct (handleTruthy _); [|exact H]. exact (noTick_clearTimeout id s H). }
  pose proof (noTick_arpPlayNote (activeNotesForArp s !! currentArpIndex s) settings s H)
    as H1.
  destruct (arpPlayNote _ _ _) as [s1|s1]; cbn [after] in *;
    [|now apply noTick_oneTick].
  destruct (windowDefined _); cbn [after].
  - unfold oneTick. cbn. rewrite <- app_assoc.
    apply Forall_app. split.
    + eapply Forall_impl; [exact H1|]. cbn. congruence.
    + repeat constructor; cbn; congruence.
  - apply noTick_oneTick. unfold noTick. cbn.
    apply Forall_app. split; [exact H1|]. now repeat constructor.
Qed.

Lemma oneTick_exec op s : wf s -> oneTick s -> oneTick (after (exec op s)).
Proof.
  intros Hwf H.
  destruct op as [|bend|note slide|note settings velocity initialSlide
                 |note settings immediate|settings|notes settings| |id|dt|st];
    cbn [exec after].
  - apply (extends_oneTick s); [|exact H]. apply extends_same. unfold initResume.
    now destruct (ctx s).
  - exact (extends_oneTick _ _ (extends_setPitchBend bend s) H).
  - apply (extends_oneTick s); [|exact H]. apply extends_same, updateNoteSlide_scheduling.
  - exact (extends_oneTick _ _ (extends_playNote note settings velocity initialSlide s) H).
  - exact (extends_oneTick _ _ (extends_stopNote note settings immediate s) H).
  - exact (extends_oneTick _ _ (extends_updateGlobalParams settings s) H).
  - unfold startArp.
    assert (H1 : oneTick (set_activeNotesForArp (sortNotes notes) s)) by exact H.
    destruct (handleTruthy _) eqn:Ht; [exact H1|].
    apply noTick_tick.
    exact (oneTick_not_running _ (wf_set_activeNotesForArp _ s Hwf) H1 Ht).
  - apply noTick_oneTick. now apply oneTick_stopArp.
  - unfold fire. destruct (List.find _ _) as [t|] eqn:Hfind; [|exact H].
    apply find_some in Hfind as [Hin Hid]. apply list_elem_of_In in Hin.
    apply Nat.eqb_eq in Hid. subst id.
    assert (H1 : oneTick (clearTimeout (timer_id t) s)).
    { unfold oneTick, clearTimeout. cbn. now apply filter_Forall. }
    unfold runCallback.
    destruct (timer_callback t) as [note entry|[note|] settings|settings] eqn:Hcb;
      cbn [after].
    + exact (extends_oneTick _ _ (extends_teardown note entry _) H1).
    + exact (extends_oneTick _ _ (extends_stopNote note settings false _) H1).
    + exact H1.
    + apply noTick_tick. apply oneTick_clear_handle; [exact H|].
      unfold oneTick in H. rewrite Forall_forall in H. apply (H t Hin).
      unfold isTick. now rewrite Hcb.
  - apply (extends_oneTick s); [|exact H]. apply extends_same. unfold clock.
    now destruct (ctx s).
  - apply (extends_oneTick s); [|exact H]. apply extends_same. unfold contextState.
    now destruct (ctx s).
Qed.

Lemma reachable_oneTick s : reachable s -> oneTick s.
Proof.
  intros (window & ops & ->).
  assert (G : forall s0, wf s0 -> oneTick s0 -> oneTick (run ops s0)).
  { induction ops as [|op ops IH]; intros s0 Hwf H; [exact H|].
    cbn. apply IH; [now apply wf_exec | now apply oneTick_exec]. }
  apply G; [apply wf_construct | constructor].
Qed.





Lemma extends_exec op s :
  match op with
  | StartArp _ _ | StopArp | Fire _ => True
  | _ => extends s (after (exec op s))
  end.
Proof.
  destruct op as [|bend|note slide|note settings velocity initialSlide
                 |note settings immediate|settings|notes settings| |id|dt|st];
    cbn [exec after]; try exact I.
  - apply extends_same. unfold initResume. now destruct (ctx s).
  - apply extends_setPitchBend.
  - apply extends_same, updateNoteSlide_scheduling.
  - apply extends_playNote.
  - apply extends_stopNote.
  - apply extends_updateGlobalParams.
  - apply extends_same. unfold clock. now destruct (ctx s).
  - apply extends_same. unfold contextState. now destruct (ctx s).
Qed.




Lemma triad_sorted : sortNotes triad = triad.
Proof. reflexivity. Qed.

(** ** The frequency table, entry by entry *)

Lemma FREQUENCIES_keys : FREQUENCIES.*1 = tableNames.
Proof. reflexivity. Qed.

Lemma tableNames_NoDup : NoDup tableNames.
Proof. vm_compute. apply (bool_decide_unpack _). vm_compute. reflexivity. Qed.

Lemma FREQUENCIES_values : FREQUENCIES.*2 = tableFrequency <$> seq 0 108.
Proof. reflexivity. Qed.

Lemma FREQUENCIES_length : length FREQUENCIES = 108.
Proof. reflexivity. Qed.

Lemma pretty_N_go_head x s :
  (x = 0%N -> exists c rest, s = String c rest /\ JS.isNoteChar c = false) ->
  exists c rest, pretty_N_go x s = String c rest /\ JS.isNoteChar c = false.
Proof.
  revert s. induction (N.lt_wf_0 x) as [x _ IH]; intros s Hs.
  destruct (decide (x = 0%N)) as [->|Hx].
  - rewrite pretty_N_go_0. now apply Hs.
  - rewrite pretty_N_go_step by lia. apply IH.
    + apply N.div_lt; lia.
    + intros _. eexists _, _. split; [reflexivity|].
      unfold pretty_N_char. now repeat case_match.
Qed.

Lemma pretty_Z_head (z : Z) :
  exists c rest, pretty z = String c rest /\ JS.isNoteChar c = false.
Proof.
  destruct z as [|p|p].
  - now exists "0"%char, "".
  - unfold pretty, pretty_Z, pretty, pretty_positive, pretty, pretty_N.
    rewrite decide_False by discriminate. apply pretty_N_go_head. discriminate.
  - exists "-"%char, (pretty p). split; reflexivity.
Qed.

Lemma note_octave_inj (l l' : string) (z z' : Z) :
  noteChars l -> noteChars l' ->
  (l ++ pretty z)%string = (l' ++ pretty z')%string -> l = l' /\ z = z'.
Proof.
  revert l'. induction l as [|c l IH]; intros [|c' l'] Hl Hl' E; cbn in E.
  - split; [reflexivity|]. now apply (inj pretty).
  - destruct (pretty_Z_head z) as (d & rest & Hd & Hn). rewrite Hd in E.
    injection E as -> _. apply Forall_cons in Hl' as [Hc _]. congruence.
  - destruct (pretty_Z_head z') as (d & rest & Hd & Hn). rewrite Hd in E.
    injection E as -> _. apply Forall_cons in Hl as [Hc _]. congruence.
  - injection E as -> E. apply Forall_cons in Hl as [_ Hl].
    apply Forall_cons in Hl' as [_ Hl']. destruct (IH l' Hl Hl' E) as [-> ->].
    now split.
Qed.

Lemma NOTES_noteChars name : name ∈ NOTES -> noteChars name.
Proof.
  intros H. unfold NOTES in H.
  repeat (apply elem_of_cons in H as [->|H];
          [unfold noteChars; cbn; repeat constructor|]).
  inversion H.
Qed.

Lemma tableNames_elem key :
  key ∈ tableNames <->
  exists name octave, name ∈ NOTES /\ (0 <= octave <= 8)%Z /\ key = (name ++ pretty octave)%string.
Proof.
  unfold tableNames. rewrite list_elem_of_In, in_concat. split.
  - intros (l & Hl & Hk). apply list_elem_of_In, list_elem_of_fmap in Hl as (o & -> & Ho).
    apply list_elem_of_In, list_elem_of_fmap in Hk as (n & -> & Hn).
    apply elem_of_seqZ in Ho. exists n, o. split_and!; [assumption|lia|lia|reflexivity].
  - intros (n & o & Hn & Ho & ->).
    exists ((fun note => (note ++ pretty o)%string) <$> NOTES). split.
    + apply list_elem_of_In, list_elem_of_fmap. exists o. split; [reflexivity|].
      apply elem_of_seqZ. lia.
    + apply list_elem_of_In, list_elem_of_fmap. now exists n.
Qed.

Lemma FREQUENCIES_absent name octave :
  name ∈ NOTES -> ~ (0 <= octave <= 8)%Z ->
  property FREQUENCIES (name ++ pretty octave) = None.
Proof.
  intros Hn Ho. apply (get_None_keys FREQUENCIES). rewrite FREQUENCIES_keys.
  intros H. apply tableNames_elem in H as (n' & o' & Hn' & Ho' & E).
  apply note_octave_inj in E as [_ ->]; auto using NOTES_noteChars.
Qed.

(** The entry of the table under a note name and an octave. *)
Lemma table_lookup (i : nat) (name : string) (octave : Z) :
  NOTES !! i = Some name ->
  property FREQUENCIES (name ++ pretty octave)
  = if decide (0 <= octave <= 8)%Z
    then Some (440 * Rpower 2 (IZR ((octave - 4) * 12 + (Z.of_nat i - 9)) / 12))%R
    else None.
Proof.
  intros Hi.
  case_decide as Ho.
  - assert (Hcases : In octave [0; 1; 2; 3; 4; 5; 6; 7; 8]%Z) by (cbn; lia).
    do 12 (destruct i as [|i]; [injection Hi as <-; cbn in Hcases; intuition (subst; reflexivity)|]).
    discriminate.
  - apply FREQUENCIES_absent; [|assumption]. now apply list_elem_of_lookup_2 in Hi.
Qed.

(** X1.  The frequency table has 108 entries under 108 different names.
    Under the name made of the note at index [i] of [NOTES] and of an
    octave it holds [440 * 2^(((octave - 4) * 12 + (i - 9)) / 12)] when the
    octave is one of 0 to 8, and nothing for any other octave. *)
Theorem FREQUENCIES_lookup (i : nat) (name : string) (octave : Z) :
  NOTES !! i = Some name ->
  NoDup FREQUENCIES.*1
  /\ length FREQUENCIES = 108
  /\ property FREQUENCIES (name ++ pretty octave)
     = if decide (0 <= octave <= 8)%Z
       then Some (440 * Rpower 2 (IZR ((octave - 4) * 12 + (Z.of_nat i - 9)) / 12))%R
       else None.
Proof.
  intros Hi. split; [rewrite FREQUENCIES_keys; apply tableNames_NoDup|].
  split; [reflexivity|]. now apply table_lookup.
Qed.

Lemma FREQUENCIES_lookup_witness :
  property FREQUENCIES "A4"
  = Some (440 * Rpower 2 (IZR ((4 - 4) * 12 + (Z.of_nat 9 - 9)) / 12))%R.
Proof. exact (proj2 (proj2 (FREQUENCIES_lookup 9 "A" 4 eq_refl))). Defined.

Lemma FREQUENCIES_at k entry :
  FREQUENCIES !! k = Some entry -> k < 108 /\ entry.2 = tableFrequency k.
Proof.
  intros H. assert (Hk : k < 108).
  { apply lookup_lt_Some in H. now rewrite FREQUENCIES_length in H. }
  split; [assumption|].
  assert (E : FREQUENCIES.*2 !! k = Some entry.2) by now rewrite list_lookup_fmap, H.
  rewrite FREQUENCIES_values, list_lookup_fmap, lookup_seq_lt in E by assumption.
  now injection E.
Qed.

Lemma tableNames_at k :
  k < 108 ->
  exists name,
    NOTES !! (k mod 12) = Some name
    /\ tableNames !! k = Some (name ++ pretty (Z.of_nat (k / 12)))%string.
Proof.
  intros Hk.
  do 108 (destruct k as [|k]; [eexists; split; reflexivity|]). lia.
Qed.

(** X2.  The frequency table in insertion order.  The entry at place [k]
    is that of the note at index [k mod 12] of [NOTES] in octave
    [k / 12], and it holds [440 * 2^((k - 57) / 12)]: going through the
    table is going up by semitones, from 57 below A4 to 50 above. *)
Theorem FREQUENCIES_semitones (k : nat) (entry : string * R) :
  FREQUENCIES !! k = Some entry ->
  k < 108
  /\ (exists name,
        NOTES !! (k mod 12) = Some name
        /\ entry.1 = (name ++ pretty (Z.of_nat (k / 12)))%string)
  /\ entry.2 = (440 * Rpower 2 (IZR (Z.of_nat k - 57) / 12))%R
  /\ (Z.of_nat k - 57
      = (Z.of_nat (k / 12) - 4) * 12 + (Z.of_nat (k mod 12) - 9))%Z.
Proof.
  intros Hentry. destruct (FREQUENCIES_at k entry Hentry) as [Hk Hvalue].
  split_and!.
  - exact Hk.
  - destruct (tableNames_at k Hk) as (name & Hname & Hat). exists name.
    split; [exact Hname|].
    assert (E : FREQUENCIES.*1 !! k = Some entry.1) by now rewrite list_lookup_fmap, Hentry.
    rewrite FREQUENCIES_keys, Hat in E. now injection E.
  - exact Hvalue.
  - pose proof (Nat.div_mod_eq k 12). lia.
Qed.

Lemma FREQUENCIES_semitones_witness :
  let entry := ("A4", 440 * Rpower 2 (IZR ((4 - 4) * 12 + (9 - 9)) / 12))%R in
  (exists name, NOTES !! (57 mod 12) = Some name
                /\ entry.1 = (name ++ pretty (Z.of_nat (57 / 12)))%string)
  /\ entry.2 = (440 * Rpower 2 (IZR (Z.of_nat 57 - 57) / 12))%R.
Proof.
  intros entry.
  destruct (FREQUENCIES_semitones 57 entry eq_refl) as (_ & H1 & H2 & _).
  split; [exact H1|exact H2].
Defined.

Lemma shiftedNote_table (i : nat) (name : string) (o shift : Z) :
  NOTES !! i = Some name -> (0 <= o <= 8)%Z ->
  shiftedNote (name ++ pretty o) shift = (name ++ pretty (o + shift)%Z)%string.
Proof.
  intros Hi Ho.
  assert (Hcases : In o [0; 1; 2; 3; 4; 5; 6; 7; 8]%Z) by (cbn; lia).
  do 12 (destruct i as [|i]; [injection Hi as <-; cbn in Hcases; intuition (subst; reflexivity)|]).
  discriminate.
Qed.

(** A name that starts with a note of the table is not one that objects
    inherit. *)
Lemma note_not_inherited (i : nat) (name rest : string) :
  NOTES !! i = Some name -> (name ++ rest)%string ∉ objectPrototype.
Proof.
  intros Hi Hin. unfold objectPrototype in Hin.
  do 12 (destruct i as [|i];
         [injection Hi as <-; cbn in Hin;
          repeat (apply elem_of_cons in Hin as [Hin|Hin]; [discriminate Hin|]);
          inversion Hin|]).
  discriminate.
Qed.

Lemma tableEntry_shift (i : nat) (o shift : Z) :
  (440 * Rpower 2 (IZR ((o + shift - 4) * 12 + (Z.of_nat i - 9)) / 12))%R
  = (440 * Rpower 2 (IZR ((o - 4) * 12 + (Z.of_nat i - 9)) / 12) * Rpower 2 (IZR shift))%R.
Proof.
  rewrite Rmult_assoc, <- Rpower_plus. do 2 f_equal.
  replace ((o + shift - 4) * 12 + (Z.of_nat i - 9))%Z
    with (((o - 4) * 12 + (Z.of_nat i - 9)) + shift * 12)%Z by lia.
  rewrite plus_IZR, mult_IZR. lra.
Qed.

(** A note of the table played on an engine that is set up is in the map
    afterwards, on a voice with the note's base frequency. *)
Lemma playNote_sounds note settings velocity initialSlide s f :
  wf s -> is_Some (ctx s) -> is_Some (mainGain s) ->
  property FREQUENCIES (shiftedNote note (octave settings)) = Some f ->
  let s' := playNote note settings velocity initialSlide s in
  exists id e,
    Map.get (activeOscillators s') note = Some id
    /\ heap s' !! id = Some e
    /\ baseFreq e = f /\ released e = false.
Proof.
  intros Hwf [c Hc] [g Hg] Hf. cbn zeta.
  destruct (monoMode settings && Nat.ltb 0 (Map.size (activeOscillators s))) eqn:Hm.
  - rewrite (playNote_known note settings velocity initialSlide s c g f) by assumption.
    cbn zeta. rewrite Hm.
    apply andb_true_iff in Hm as [_ Hsize].
    destruct (activeOscillators s) as [|[existingNote id] rest] eqn:Hmap; [discriminate|].
    destruct (live_entry s existingNote id Hwf) as (_ & _ & [e He] & _).
    { rewrite Hmap. cbn. now rewrite String.eqb_refl. }
    destruct (resumeIfSuspended_time s c Hc) as (c1 & Hc1 & _).
    destruct (resumeIfSuspended_voices s) as (Hh1 & Hm1 & _).
    destruct (retarget_fields note settings initialSlide (currentTime c)
                (getBentFrequency s f) f (resumeIfSuspended s) c1 existingNote id rest Hc1)
      as (Hmap' & Hheap' & _); [congruence| |].
    { rewrite <- Hmap. apply Hwf. }
    exists id. eexists. rewrite Hmap', Hheap', Hh1. split_and!.
    + destruct (String.eqb_spec existingNote note) as [->|Hne].
      * cbn. now rewrite String.eqb_refl.
      * apply get_set_eq.
    + rewrite !list_lookup_alter_eq, He. reflexivity.
    + cbn. reflexivity.
    + cbn. reflexivity.
  - destruct (playNote_allocates note settings velocity initialSlide s c g f Hc Hg Hf Hm)
      as (Hheap & Hmap & _).
    exists (length (heap s)). eexists. rewrite Hheap, Hmap. split_and!.
    + apply get_set_eq.
    + apply list_lookup_middle. reflexivity.
    + unfold newEntry. now destruct (patchOscillators _ _ _ _).
    + unfold newEntry. now destruct (patchOscillators _ _ _ _).
Qed.

(** X3.  The octave shift of [playNote], for a note of the table in octave
    [o]: the name looked up is the note in octave [o + settings.octave].
    When that octave is not one of 0 to 8 no voice is allocated and the map
    is left as it is.  When it is, the frequency looked up is the frequency
    of the note itself times [2^settings.octave], and with a context and a
    main gain the voice stored under the name as it was played, not as it
    was shifted, has this base frequency. *)
Theorem playNote_octave_shift (i : nat) (name : string) (o : Z)
  (settings : SynthSettings) (velocity initialSlide : R) (s : AudioService) :
  NOTES !! i = Some name -> (0 <= o <= 8)%Z -> reachable s ->
  let note := (name ++ pretty o)%string in
  let s' := playNote note settings velocity initialSlide s in
  shiftedNote note (octave settings) = (name ++ pretty (o + octave settings)%Z)%string
  /\ (~ (0 <= o + octave settings <= 8)%Z ->
      heap s' = heap s /\ activeOscillators s' = activeOscillators s)
  /\ ((0 <= o + octave settings <= 8)%Z ->
      exists f,
        property FREQUENCIES note = Some f
        /\ property FREQUENCIES (shiftedNote note (octave settings))
           = Some (f * Rpower 2 (IZR (octave settings)))%R
        /\ (is_Some (ctx s) -> is_Some (mainGain s) ->
            exists id e,
              Map.get (activeOscillators s') note = Some id
              /\ heap s' !! id = Some e
              /\ baseFreq e = (f * Rpower 2 (IZR (octave settings)))%R)).
Proof.
  intros Hi Ho Hs note s'. apply reachable_wf in Hs.
  pose proof (shiftedNote_table i name o (octave settings) Hi Ho) as Hshift.
  fold note in Hshift.
  pose proof (table_lookup i name (o + octave settings) Hi) as Hup.
  pose proof (table_lookup i name o Hi) as Hhere.
  rewrite decide_True in Hhere by assumption. fold note in Hhere.
  split_and!; [assumption| |].
  - intros Hout. rewrite decide_False in Hup by assumption.
    rewrite <- Hshift in Hup. subst s'. rewrite playNote_unfold. rewrite Hup.
    destruct (ctx s); [|now split]. destruct (mainGain s); [|now split].
    cbv zeta. rewrite bool_decide_eq_false_2
      by (rewrite Hshift; apply (note_not_inherited i), Hi).
    destruct (resumeIfSuspended_voices s) as (H1 & H2 & _). now split.
  - intros Hin. rewrite decide_True in Hup by assumption.
    rewrite <- Hshift, tableEntry_shift in Hup.
    eexists. split_and!; [exact Hhere|exact Hup|].
    intros Hc Hg.
    destruct (playNote_sounds note settings velocity initialSlide s _ Hs Hc Hg Hup)
      as (id & e & H1 & H2 & H3 & _).
    now exists id, e.
Qed.

Lemma playNote_octave_shift_witness :
  let s' := playNote ("A" ++ pretty 4%Z) INITIAL_SETTINGS 0.4 0.5 ready in
  shiftedNote ("A" ++ pretty 4%Z) (octave INITIAL_SETTINGS)
  = ("A" ++ pretty (4 + octave INITIAL_SETTINGS)%Z)%string
  /\ exists f id e,
      property FREQUENCIES ("A" ++ pretty 4%Z) = Some f
      /\ Map.get (activeOscillators s') ("A" ++ pretty 4%Z) = Some id
      /\ heap s' !! id = Some e
      /\ baseFreq e = (f * Rpower 2 (IZR (octave INITIAL_SETTINGS)))%R.
Proof.
  intros s'.
  destruct (playNote_octave_shift 9 "A" 4 INITIAL_SETTINGS 0.4 0.5 ready eq_refl
              ltac:(lia) reachable_ready) as (Hname & _ & Hin).
  split; [exact Hname|].
  destruct Hin as (f & Hf & _ & Hvoice); [cbn; lia|].
  destruct Hvoice as (id & e & H1 & H2 & H3).
  - exists (newContext running). exact (proj1 ready_fields).
  - eexists. exact (proj1 (proj2 ready_fields)).
  - exists f, id, e. split_and!; [exact Hf|exact H1|exact H2|exact H3].
Defined.

(** ** What voices keep, and what the engine forgets *)

Section Evolution.
  Context {X : Type} (proj : ActiveOscillator -> X).
  Hypothesis proj_bend : forall s now e, proj (bendEntry s now e) = proj e.
  Hypothesis proj_slide :
    forall ev e, proj (with_slideSource (Const.offset ev) e) = proj e.
  Hypothesis proj_retarget :
    forall settings now targetFreq baseFreq e,
      proj (retargetEntry settings now targetFreq baseFreq e) = proj e.
  Hypothesis proj_cancel : forall now e, proj (cancelEntry now e) = proj e.
  Hypothesis proj_release :
    forall now releaseTime e, proj (releaseEntry now releaseTime e) = proj e.
  Hypothesis proj_disconnect : forall e, proj (disconnectEntry e) = proj e.
  Hypothesis proj_released : forall b e, proj (with_released (fun _ => b) e) = proj e.
  Hypothesis proj_broadcast :
    forall settings now e, proj (broadcastEntry settings now e) = proj e.

Lemma evolves_refl s : evolves proj s s.
Proof. split; [eauto | congruence]. Qed.

Lemma evolves_trans s1 s2 s3 :
  evolves proj s1 s2 -> evolves proj s2 s3 -> evolves proj s1 s3.
Proof.
  intros [K1 F1] [K2 F2]. split.
  - intros id e He. destruct (K1 id e He) as (e' & He' & E').
    destruct (K2 id e' He') as (e'' & He'' & E''). exists e''. split; congruence.
  - intros id e'' He'' Hnone. destruct (heap s2 !! id) as [e'|] eqn:He'.
    + destruct (K2 id e' He') as (x & Hx & E). rewrite He'' in Hx. injection Hx as <-.
      rewrite E. now apply (F1 id).
    + now apply (F2 id).
Qed.

Lemma evolves_same s s' : heap s' = heap s -> evolves proj s s'.
Proof. intros E. unfold evolves. rewrite E. split; [eauto | congruence]. Qed.

Lemma evolves_mutate id f s :
  (forall e, proj (f e) = proj e) -> evolves proj s (mutate id f s).
Proof.
  intros Hf. split; cbn.
  - intros j e He. destruct (decide (id = j)) as [->|Hne].
    + exists (f e). now rewrite list_lookup_alter_eq, He.
    + exists e. now rewrite list_lookup_alter_ne.
  - intros j e' He' Hnone. apply lookup_ge_None in Hnone.
    apply lookup_lt_Some in He'. rewrite length_alter in He'. lia.
Qed.

Lemma evolves_forEachEntry f s :
  (forall e, proj (f e) = proj e) -> evolves proj s (forEachEntry f s).
Proof.
  intros Hf. split.
  - intros id e He. now apply forEachEntry_lookup_proj.
  - intros j e' He' Hnone. apply lookup_ge_None in Hnone.
    apply lookup_lt_Some in He'. rewrite forEachEntry_heap in He'. cbn in He'.
    rewrite alterAll_length in He'. lia.
Qed.

Lemma evolves_setPitchBend value s : evolves proj s (setPitchBend value s).
Proof.
  unfold setPitchBend. cbn [ctx set_currentPitchBend].
  destruct (ctx s); [|now apply evolves_same].
  eapply evolves_trans; [|apply evolves_forEachEntry, proj_bend].
  now apply evolves_same.
Qed.

Lemma evolves_updateNoteSlide note slide s :
  evolves proj s (updateNoteSlide note slide s).
Proof.
  unfold updateNoteSlide. destruct (Map.get _ _); [|apply evolves_refl].
  destruct (ctx s); [|apply evolves_refl]. apply evolves_mutate, proj_slide.
Qed.

Lemma evolves_resumeIfSuspended s : evolves proj s (resumeIfSuspended s).
Proof. apply evolves_same, resumeIfSuspended_voices. Qed.

Lemma evolves_retarget note settings initialSlide now targetFreq baseFreq s :
  evolves proj s (retarget note settings initialSlide now targetFreq baseFreq s).
Proof.
  unfold retarget. destruct (Map.first _) as [[existingNote entry]|]; [|apply evolves_refl].
  eapply evolves_trans; [|apply evolves_updateNoteSlide].
  eapply evolves_trans; [apply (evolves_mutate entry), proj_retarget|].
  apply evolves_same. now destruct (negb _).
Qed.

Lemma evolves_allocate note settings velocity initialSlide now targetFreq baseFreq s :
  evolves proj s (allocate note settings velocity initialSlide now targetFreq baseFreq s).
Proof.
  unfold allocate. split; cbn.
  - intros id e He. exists e. split; [|reflexivity]. now apply lookup_app_l_Some.
  - intros id e' He' Hnone. apply lookup_ge_None in Hnone.
    rewrite lookup_app_r in He' by assumption.
    apply list_lookup_singleton_Some in He' as [_ <-]. now eexists _, _, _, _, _, _, _.
Qed.

Lemma evolves_atTypeError settings now s :
  evolves proj s (atTypeError settings now s).
Proof.
  unfold atTypeError. destruct (_ && _); [|apply evolves_refl].
  destruct (Map.first _) as [[? entry]|]; [|apply evolves_refl].
  apply (evolves_mutate entry), proj_cancel.
Qed.

Lemma evolves_playNote note settings velocity initialSlide s :
  evolves proj s (playNote note settings velocity initialSlide s).
Proof.
  rewrite playNote_unfold. destruct (ctx s); [|apply evolves_refl].
  destruct (mainGain s); [|apply evolves_refl]. cbv zeta.
  destruct (property _ _);
    [|case_bool_decide; [|apply evolves_resumeIfSuspended];
      eapply evolves_trans; [apply evolves_resumeIfSuspended|];
      apply evolves_atTypeError].
  destruct (negb _); [apply evolves_resumeIfSuspended|].
  eapply evolves_trans; [apply evolves_resumeIfSuspended|].
  destruct (_ && _); [apply evolves_retarget | apply evolves_allocate].
Qed.

Lemma evolves_stopNote note settings immediate s :
  evolves proj s (stopNote note settings immediate s).
Proof.
  unfold stopNote. destruct (Map.get _ _) as [entry|]; [|apply evolves_refl].
  destruct (ctx s); [|apply evolves_refl].
  destruct (_ && _); [apply evolves_mutate, proj_released|].
  eapply evolves_trans; [apply (evolves_mutate entry), proj_release|].
  now apply evolves_same.
Qed.

Lemma evolves_teardown note entry s : evolves proj s (teardown note entry s).
Proof.
  unfold teardown. eapply evolves_trans; [apply (evolves_mutate entry), proj_disconnect|].
  apply evolves_same. now destruct (sameEntry _ _).
Qed.

Lemma evolves_releaseSustained settings s :
  evolves proj s (releaseSustained settings s).
Proof.
  unfold releaseSustained.
  apply (fold_left_preserves (fun s' => evolves proj s s')); [|apply evolves_refl].
  intros s0 [note id] H0. unfold releaseIfReleased.
  destruct (heap s0 !! id) as [entry|]; [|assumption].
  destruct (released entry); [|assumption].
  eapply evolves_trans; [eassumption | apply evolves_stopNote].
Qed.

Lemma evolves_updateGlobalParams settings s :
  evolves proj s (updateGlobalParams settings s).
Proof.
  unfold updateGlobalParams.
  destruct (ctx s) as [c|]; [|apply evolves_refl].
  destruct (delayNode s) as [dn|]; [|apply evolves_refl].
  destruct (delayFeedbackNode s) as [dfn|]; [|apply evolves_refl].
  match goal with
  | |- evolves _ _ (if ?b then ?a else setPitchBend ?v ?a') =>
      assert (Ha : evolves proj s a)
  end.
  { eapply evolves_trans; [|apply evolves_forEachEntry, proj_broadcast].
    match goal with
    | |- evolves _ _ (set_delayFeedbackNode _ (set_delayNode _ (set_currentSustain _ ?x))) =>
        apply evolves_trans with x; [|now apply evolves_same]
    end.
    destruct (currentSustain s && negb (sustain settings)); [|apply evolves_refl].
    eapply evolves_trans; [|apply evolves_releaseSustained]. now apply evolves_same. }
  destruct (Req_dec_T _ _); [assumption|].
  eapply evolves_trans; [eassumption | apply evolves_setPitchBend].
Qed.

Lemma evolves_stopArp s : evolves proj s (stopArp s).
Proof.
  apply evolves_same. unfold stopArp.
  destruct (arpTimer s); [destruct (handleTruthy _)|]; reflexivity.
Qed.

Lemma evolves_tick settings s : evolves proj s (after (tick settings s)).
Proof.
  unfold tick. destruct (Nat.eqb _ _); [apply evolves_stopArp|].
  assert (H1 : evolves proj s
                 (after (arpPlayNote (activeNotesForArp s !! currentArpIndex s)
                           settings s))).
  { unfold arpPlayNote. destruct (activeNotesForArp s !! currentArpIndex s) as [note|].
    - apply evolves_playNote.
    - destruct (ctx s); [destruct (mainGain s)|]; cbn;
        first [apply evolves_resumeIfSuspended | apply evolves_refl]. }
  destruct (arpPlayNote _ _ _) as [s1|s1]; cbn [after] in *; [|exact H1].
  eapply evolves_trans; [exact H1|]. apply evolves_same.
  now destruct (windowDefined _).
Qed.

Lemma evolves_startArp notes settings s :
  evolves proj s (after (startArp notes settings s)).
Proof.
  unfold startArp. destruct (handleTruthy _); [now apply evolves_same|].
  eapply evolves_trans; [|apply evolves_tick]. now apply evolves_same.
Qed.

Lemma evolves_fire id s : evolves proj s (after (fire id s)).
Proof.
  unfold fire. destruct (List.find _ _) as [t|]; [|apply evolves_refl].
  eapply evolves_trans; [apply (evolves_same s (clearTimeout id s)); reflexivity|].
  destruct (timer_callback t) as [note entry|[note|] settings|settings]; cbn.
  - apply evolves_teardown.
  - apply evolves_stopNote.
  - apply evolves_refl.
  - apply evolves_tick.
Qed.

Lemma evolves_exec op s : evolves proj s (after (exec op s)).
Proof.
  destruct op as [|v|note slide|note settings velocity initialSlide|note settings immediate
                 |settings|notes settings| |id|dt|st]; cbn.
  - apply evolves_same. unfold initResume. now destruct (ctx s).
  - apply evolves_setPitchBend.
  - apply evolves_updateNoteSlide.
  - apply evolves_playNote.
  - apply evolves_stopNote.
  - apply evolves_updateGlobalParams.
  - apply evolves_startArp.
  - apply evolves_stopArp.
  - apply evolves_fire.
  - apply evolves_same. unfold clock. now destruct (ctx s).
  - apply evolves_same. unfold contextState. now destruct (ctx s).
Qed.

Lemma evolves_run ops s : evolves proj s (run ops s).
Proof.
  revert s. induction ops as [|op ops IH]; intros s; [apply evolves_refl|].
  cbn. eapply evolves_trans; [apply evolves_exec | apply IH].
Qed.

End Evolution.

Lemma patchOf_disconnect e : patchOf (disconnectEntry e) = patchOf e.
Proof.
  unfold patchOf. cbn. now rewrite <- list_fmap_compose.
Qed.

Lemma patchOf_retarget settings now targetFreq baseFreq e :
  patchOf (retargetEntry settings now targetFreq baseFreq e) = patchOf e.
Proof. unfold retargetEntry. now destruct (Rgtb _ _). Qed.

Lemma patchOf_evolves ops s : evolves patchOf s (run ops s).
Proof.
  apply evolves_run; try reflexivity.
  - apply patchOf_retarget.
  - apply patchOf_disconnect.
Qed.

(** X4.  Whatever the engine does next, timers coming due included, a voice
    that was allocated stays allocated and keeps the patch it was created
    with: the waveforms of its two oscillators and of its LFO, the detune
    of the second oscillator, the gains of its modulation nodes and the
    connection of its filter.  Retargeting, pitch bend, release and
    teardown change none of them. *)
Theorem sounding_voice_keeps_patch (ops : list Op) (s : AudioService) (id : nat)
  (e : ActiveOscillator) :
  heap s !! id = Some e ->
  exists e', heap (run ops s) !! id = Some e' /\ patchOf e' = patchOf e.
Proof. intros He. now apply (patchOf_evolves ops s). Qed.

Lemma sounding_voice_keeps_patch_witness :
  exists e e',
    heap oneVoice !! 0 = Some e
    /\ heap (run [SetPitchBend 1; StopNote "A4" INITIAL_SETTINGS false; Fire 1] oneVoice) !! 0
       = Some e'
    /\ patchOf e' = patchOf e.
Proof.
  destruct oneVoice_heap as (e & He & _).
  assert (H0 : heap oneVoice !! 0 = Some e) by (rewrite He; reflexivity).
  destruct (sounding_voice_keeps_patch
              [SetPitchBend 1; StopNote "A4" INITIAL_SETTINGS false; Fire 1] oneVoice 0 e H0)
    as (e' & H1 & H2).
  exists e, e'. split_and!; [exact H0|exact H1|exact H2].
Defined.

(** Every voice of a reachable state has its filter connected to its note
    gain, and to nothing else. *)
Lemma reachable_filter_out s id e :
  reachable s -> heap s !! id = Some e -> bq_out (filter e) = [ToNoteGain].
Proof.
  intros (window & ops & ->) He.
  destruct (patchOf_evolves ops (construct window)) as [_ Hnew].
  destruct (Hnew id e He) as (settings & lf & now & t & b & v & sl & E); [reflexivity|].
  apply (f_equal snd) in E. cbn [snd patchOf] in E. rewrite E.
  apply newEntry_graph.
Qed.

Lemma disconnectEntry_connections e :
  connections (disconnectEntry e) = bq_out (filter e).
Proof.
  unfold connections. cbn.
  assert (E : concat (gain_out <$> (GainN.disconnect <$> modGains e)) = []).
  { induction (modGains e); cbn; [reflexivity | assumption]. }
  rewrite E. now rewrite app_nil_r.
Qed.

(** X5.  The teardown of a voice, whatever the key it was scheduled for now
    leads to, leaves of the connections of the voice only the one of its
    filter into its gain node: the gain node is cut off from the outputs,
    the filter itself is not disconnected, and the stop requests of the
    oscillators are what [stopNote] left. *)
Theorem teardown_severs_voice (note : string) (id : nat) (s : AudioService)
  (e : ActiveOscillator) :
  reachable s -> heap s !! id = Some e ->
  exists e',
    heap (teardown note id s) !! id = Some e'
    /\ connections e' = [ToNoteGain]
    /\ gain_out (gain e') = []
    /\ bq_out (filter e') = [ToNoteGain]
    /\ (osc_stop (osc1 e'), osc_stop (osc2 e')) = (osc_stop (osc1 e), osc_stop (osc2 e)).
Proof.
  intros Hs He. exists (disconnectEntry e).
  rewrite teardown_heap, list_lookup_alter_eq, He.
  rewrite disconnectEntry_connections, (reachable_filter_out s id e Hs He).
  split_and!; try reflexivity. cbn. exact (reachable_filter_out s id e Hs He).
Qed.

Lemma teardown_severs_voice_witness :
  exists e',
    heap (teardown "A4" 0 oneVoice) !! 0 = Some e'
    /\ connections e' = [ToNoteGain]
    /\ gain_out (gain e') = [].
Proof.
  destruct oneVoice_heap as (e & He & _).
  assert (H0 : heap oneVoice !! 0 = Some e) by (rewrite He; reflexivity).
  destruct (teardown_severs_voice "A4" 0 oneVoice e reachable_oneVoice H0)
    as (e' & H1 & H2 & H3 & _).
  exists e'. split_and!; [exact H1|exact H2|exact H3].
Defined.

Lemma leavesOrphan_refl id s : leavesOrphan id s s.
Proof. now intros H. Qed.

Lemma leavesOrphan_trans id s1 s2 s3 :
  leavesOrphan id s1 s2 -> leavesOrphan id s2 s3 -> leavesOrphan id s1 s3.
Proof.
  intros H12 H23 H1. destruct (H12 H1) as [H2 E2]. destruct (H23 H2) as [H3 E3].
  split; [assumption | congruence].
Qed.

(** Steps that leave the heap alone and add no reference. *)
Lemma leavesOrphan_same id s s' :
  heap s' = heap s ->
  (activeOscillators s').*2 ⊆ (activeOscillators s).*2 ->
  (forall note, Teardown note id ∈ timer_callback <$> timers s' ->
                Teardown note id ∈ timer_callback <$> timers s) ->
  leavesOrphan id s s'.
Proof.
  intros Hh Hm Ht [Hlt Hun]. unfold orphan. rewrite Hh.
  split; [split|]; [assumption| |reflexivity].
  intros [Hin|[note Hin]]; apply Hun; [left; now apply Hm | right; exists note; now apply Ht].
Qed.

Lemma leavesOrphan_mutate id entry f s :
  entry ∈ (activeOscillators s).*2
  \/ (exists note, Teardown note entry ∈ timer_callback <$> timers s) ->
  leavesOrphan id s (mutate entry f s).
Proof.
  intros Href [Hlt Hun]. assert (Hne : entry <> id) by (intros ->; now apply Hun).
  split; [split|]; cbn.
  - now rewrite length_alter.
  - exact Hun.
  - now apply list_lookup_alter_ne.
Qed.

Lemma leavesOrphan_forEachEntry id f s : leavesOrphan id s (forEachEntry f s).
Proof.
  intros [Hlt Hun]. rewrite forEachEntry_heap. split; [split|]; cbn.
  - now rewrite alterAll_length.
  - exact Hun.
  - apply alterAll_lookup_notin. intros Hin. apply Hun. now left.
Qed.

Lemma get_values {A : Type} (m : list (string * A)) k v :
  Map.get m k = Some v -> v ∈ m.*2.
Proof.
  intros H. apply get_Some_elem in H. apply list_elem_of_fmap. now exists (k, v).
Qed.

Lemma delete_values {A : Type} (m : list (string * A)) k :
  (Map.delete m k).*2 ⊆ m.*2.
Proof.
  intros v Hv. apply list_elem_of_fmap in Hv as ([k' v'] & -> & Hin).
  apply list_elem_of_fmap. exists (k', v'). split; [reflexivity|].
  eapply elem_of_sublist; [eassumption | apply delete_sublist].
Qed.

Lemma leavesOrphan_setPitchBend id value s : leavesOrphan id s (setPitchBend value s).
Proof.
  unfold setPitchBend. cbn [ctx set_currentPitchBend].
  destruct (ctx s); [|now apply leavesOrphan_same].
  eapply leavesOrphan_trans; [|apply leavesOrphan_forEachEntry].
  now apply leavesOrphan_same.
Qed.

Lemma leavesOrphan_updateNoteSlide id note slide s :
  leavesOrphan id s (updateNoteSlide note slide s).
Proof.
  unfold updateNoteSlide. destruct (Map.get _ _) as [entry|] eqn:E; [|apply leavesOrphan_refl].
  destruct (ctx s); [|apply leavesOrphan_refl].
  apply leavesOrphan_mutate. left. eapply get_values, E.
Qed.

Lemma leavesOrphan_resumeIfSuspended id s : leavesOrphan id s (resumeIfSuspended s).
Proof.
  unfold resumeIfSuspended. destruct (ctx s) as [c|]; [|apply leavesOrphan_refl].
  destruct (state c); first [apply leavesOrphan_refl | now apply leavesOrphan_same].
Qed.

Lemma leavesOrphan_retarget id note settings initialSlide now targetFreq baseFreq s :
  leavesOrphan id s (retarget note settings initialSlide now targetFreq baseFreq s).
Proof.
  unfold retarget. destruct (activeOscillators s) as [|[existingNote entry] rest] eqn:Hm;
    [apply leavesOrphan_refl|].
  cbn [Map.first head].
  eapply leavesOrphan_trans; [|apply leavesOrphan_updateNoteSlide].
  eapply leavesOrphan_trans.
  { apply (leavesOrphan_mutate id entry). left. rewrite Hm. cbn. left. }
  apply leavesOrphan_same.
  - now destruct (negb _).
  - destruct (negb _); [|reflexivity].
    cbn [activeOscillators set_activeOscillators set_lastFrequency mutate set_heap].
    rewrite Hm. intros v Hv. apply set_values_elem in Hv as [->|Hv].
    + cbn. left.
    + now apply delete_values in Hv.
  - now destruct (negb _).
Qed.

Lemma leavesOrphan_allocate id note settings velocity initialSlide now targetFreq baseFreq s :
  leavesOrphan id s
    (allocate note settings velocity initialSlide now targetFreq baseFreq s).
Proof.
  intros [Hlt Hun]. unfold allocate. split; [split|]; cbn.
  - rewrite length_app. lia.
  - intros [Hin|Hin]; [|apply Hun; now right].
    apply set_values_elem in Hin as [->|Hin]; [lia|]. apply Hun. now left.
  - now apply lookup_app_l.
Qed.

Lemma leavesOrphan_atTypeError id settings now s :
  leavesOrphan id s (atTypeError settings now s).
Proof.
  unfold atTypeError. destruct (_ && _); [|apply leavesOrphan_refl].
  destruct (activeOscillators s) as [|[existingNote entry] rest] eqn:Hm;
    [apply leavesOrphan_refl|].
  cbn [Map.first head]. apply (leavesOrphan_mutate id entry). left. rewrite Hm. cbn. left.
Qed.

Lemma leavesOrphan_playNote id note settings velocity initialSlide s :
  leavesOrphan id s (playNote note settings velocity initialSlide s).
Proof.
  rewrite playNote_unfold. destruct (ctx s); [|apply leavesOrphan_refl].
  destruct (mainGain s); [|apply leavesOrphan_refl]. cbv zeta.
  destruct (property _ _);
    [|case_bool_decide; [|apply leavesOrphan_resumeIfSuspended];
      eapply leavesOrphan_trans; [apply leavesOrphan_resumeIfSuspended|];
      apply leavesOrphan_atTypeError].
  destruct (negb _); [apply leavesOrphan_resumeIfSuspended|].
  eapply leavesOrphan_trans; [apply leavesOrphan_resumeIfSuspended|].
  destruct (_ && _); [apply leavesOrphan_retarget | apply leavesOrphan_allocate].
Qed.

Lemma leavesOrphan_stopNote id note settings immediate s :
  leavesOrphan id s (stopNote note settings immediate s).
Proof.
  unfold stopNote. destruct (Map.get _ _) as [entry|] eqn:E; [|apply leavesOrphan_refl].
  apply get_values in E.
  destruct (ctx s); [|apply leavesOrphan_refl].
  destruct (_ && _); [apply leavesOrphan_mutate; now left|].
  match goal with
  | |- leavesOrphan _ _ (snd (setTimeout _ _ ?m)) => apply leavesOrphan_trans with m
  end; [apply leavesOrphan_mutate; now left|].
  intros [Hlt Hun]. assert (Hne : entry <> id) by (intros ->; apply Hun; now left).
  unfold orphan, referenced in *. cbn in *.
  split; [split|]; [assumption| |reflexivity].
  intros [Hin|[n Hin]]; [apply Hun; now left|].
  rewrite fmap_app, elem_of_app in Hin. destruct Hin as [Hin|Hin].
  - apply Hun. right. now exists n.
  - cbn in Hin. apply list_elem_of_singleton in Hin. congruence.
Qed.

Lemma leavesOrphan_releaseSustained id settings s :
  leavesOrphan id s (releaseSustained settings s).
Proof.
  unfold releaseSustained.
  apply (fold_left_preserves (fun s' => leavesOrphan id s s')); [|apply leavesOrphan_refl].
  intros s0 [note e] H0. unfold releaseIfReleased.
  destruct (heap s0 !! e) as [entry|]; [|assumption].
  destruct (released entry); [|assumption].
  eapply leavesOrphan_trans; [eassumption | apply leavesOrphan_stopNote].
Qed.

Lemma leavesOrphan_updateGlobalParams id settings s :
  leavesOrphan id s (updateGlobalParams settings s).
Proof.
  unfold updateGlobalParams.
  destruct (ctx s) as [c|]; [|apply leavesOrphan_refl].
  destruct (delayNode s) as [dn|]; [|apply leavesOrphan_refl].
  destruct (delayFeedbackNode s) as [dfn|]; [|apply leavesOrphan_refl].
  match goal with
  | |- leavesOrphan _ _ (if ?b then ?a else setPitchBend ?v ?a') =>
      assert (Ha : leavesOrphan id s a)
  end.
  { eapply leavesOrphan_trans; [|apply leavesOrphan_forEachEntry].
    match goal with
    | |- leavesOrphan _ _ (set_delayFeedbackNode _ (set_delayNode _ (set_currentSustain _ ?x))) =>
        apply leavesOrphan_trans with x; [|now apply leavesOrphan_same]
    end.
    destruct (currentSustain s && negb (sustain settings)); [|apply leavesOrphan_refl].
    eapply leavesOrphan_trans; [|apply leavesOrphan_releaseSustained].
    now apply leavesOrphan_same. }
  destruct (Req_dec_T _ _); [assumption|].
  eapply leavesOrphan_trans; [eassumption | apply leavesOrphan_setPitchBend].
Qed.

Lemma clearTimeout_callbacks id s cb :
  cb ∈ timer_callback <$> timers (clearTimeout id s) -> cb ∈ timer_callback <$> timers s.
Proof.
  cbn. intros H. apply list_elem_of_fmap in H as (t & -> & Ht).
  apply list_elem_of_fmap. exists t. split; [reflexivity|].
  eapply elem_of_sublist; [eassumption | apply filter_sublist].
Qed.

Lemma leavesOrphan_clearTimeout id h s : leavesOrphan id s (clearTimeout h s).
Proof.
  apply leavesOrphan_same; [reflexivity|reflexivity|].
  intros note. apply clearTimeout_callbacks.
Qed.

Lemma leavesOrphan_stopArp id s : leavesOrphan id s (stopArp s).
Proof.
  unfold stopArp. destruct (arpTimer s) as [h|]; [|now apply leavesOrphan_same].
  destruct (handleTruthy _); [|now apply leavesOrphan_same].
  eapply leavesOrphan_trans; [apply (leavesOrphan_clearTimeout id h)|].
  now apply leavesOrphan_same.
Qed.

Lemma leavesOrphan_tick id settings s : leavesOrphan id s (after (tick settings s)).
Proof.
  unfold tick. destruct (Nat.eqb _ _); [apply leavesOrphan_stopArp|].
  assert (H1 : leavesOrphan id s
                 (after (arpPlayNote (activeNotesForArp s !! currentArpIndex s)
                           settings s))).
  { unfold arpPlayNote. destruct (activeNotesForArp s !! currentArpIndex s) as [note|].
    - apply leavesOrphan_playNote.
    - destruct (ctx s); [destruct (mainGain s)|]; cbn;
        first [apply leavesOrphan_resumeIfSuspended | apply leavesOrphan_refl]. }
  destruct (arpPlayNote _ _ _) as [s1|s1]; cbn [after] in *; [|exact H1].
  eapply leavesOrphan_trans; [exact H1|].
  destruct (windowDefined _); cbn [after].
  - apply leavesOrphan_same; [reflexivity|reflexivity|].
    intros n. cbn. rewrite !fmap_app, !elem_of_app. cbn.
    rewrite !list_elem_of_singleton.
    intros [[H|H]|H]; [assumption|discriminate|discriminate].
  - apply leavesOrphan_same; [reflexivity|reflexivity|].
    intros n. cbn. rewrite !fmap_app, !elem_of_app. cbn.
    rewrite !list_elem_of_singleton. intros [H|H]; [assumption|discriminate].
Qed.

Lemma leavesOrphan_startArp id notes settings s :
  leavesOrphan id s (after (startArp notes settings s)).
Proof.
  unfold startArp. destruct (handleTruthy _); [now apply leavesOrphan_same|].
  eapply leavesOrphan_trans; [|apply leavesOrphan_tick]. now apply leavesOrphan_same.
Qed.

Lemma leavesOrphan_fire id h s : leavesOrphan id s (after (fire h s)).
Proof.
  unfold fire. destruct (List.find _ _) as [t|] eqn:Hfind; [|apply leavesOrphan_refl].
  apply find_some in Hfind as [Hin _]. apply list_elem_of_In in Hin.
  destruct (timer_callback t) as [note entry|[note|] settings|settings] eqn:Hcb; cbn.
  - intros Horphan.
    assert (Hne : entry <> id).
    { intros ->. apply Horphan. right. exists note. apply list_elem_of_fmap.
      exists t. now split. }
    revert Horphan. eapply leavesOrphan_trans; [apply (leavesOrphan_clearTimeout id h)|].
    unfold teardown.
    apply leavesOrphan_trans with (mutate entry disconnectEntry (clearTimeout h s)).
    { intros [Hlt Hun]. unfold orphan, referenced in *. cbn in *.
      rewrite length_alter. split; [split|]; [assumption|exact Hun|].
      now apply list_lookup_alter_ne. }
    apply leavesOrphan_same.
    + now destruct (sameEntry _ _).
    + destruct (sameEntry _ _); [|reflexivity]. apply delete_values.
    + now destruct (sameEntry _ _).
  - eapply leavesOrphan_trans; [apply (leavesOrphan_clearTimeout id h)|].
    apply leavesOrphan_stopNote.
  - apply leavesOrphan_clearTimeout.
  - eapply leavesOrphan_trans; [apply (leavesOrphan_clearTimeout id h)|].
    apply leavesOrphan_tick.
Qed.

Lemma leavesOrphan_exec id op s : leavesOrphan id s (after (exec op s)).
Proof.
  destruct op as [|v|note slide|note settings velocity initialSlide|note settings immediate
                 |settings|notes settings| |h|dt|st]; cbn.
  - apply leavesOrphan_same; unfold initResume; now destruct (ctx s).
  - apply leavesOrphan_setPitchBend.
  - apply leavesOrphan_updateNoteSlide.
  - apply leavesOrphan_playNote.
  - apply leavesOrphan_stopNote.
  - apply leavesOrphan_updateGlobalParams.
  - apply leavesOrphan_startArp.
  - apply leavesOrphan_stopArp.
  - apply leavesOrphan_fire.
  - apply leavesOrphan_same; unfold clock; now destruct (ctx s).
  - apply leavesOrphan_same; unfold contextState; now destruct (ctx s).
Qed.

Lemma leavesOrphan_run id ops s : leavesOrphan id s (run ops s).
Proof.
  revert s. induction ops as [|op ops IH]; intros s; [apply leavesOrphan_refl|].
  cbn. eapply leavesOrphan_trans; [apply leavesOrphan_exec | apply IH].
Qed.

Lemma set_values_replaced {A : Type} (m : list (string * A)) k v0 v :
  NoDup m.*2 -> Map.get m k = Some v0 -> v0 ∈ (Map.set m k v).*2 -> v0 = v.
Proof.
  induction m as [|[k0 w] m IH]; cbn; [discriminate|].
  intros Hnd Hget Hin. apply NoDup_cons in Hnd as [Hw Hnd].
  destruct (String.eqb k0 k).
  - injection Hget as ->. cbn in Hin. apply elem_of_cons in Hin as [Hin|Hin]; [assumption|].
    contradiction.
  - cbn in Hin. apply elem_of_cons in Hin as [->|Hin].
    + apply get_values in Hget. contradiction.
    + now apply IH.
Qed.

(** X6.  A note struck again, outside mono mode, while its voice is in the
    map and no teardown of that voice is pending: the key now leads to a
    new voice, and the engine has no reference left to the old one, neither
    in the map nor in a pending teardown.  Whatever is done afterwards, the
    old voice stays on the heap exactly as it was, so it is never released,
    stopped or disconnected. *)
Theorem retriggered_voice_is_stuck (note : string) (settings : SynthSettings)
  (velocity initialSlide : R) (s : AudioService) (id0 : nat) :
  reachable s ->
  monoMode settings = false ->
  Map.get (activeOscillators s) note = Some id0 ->
  (forall n, Teardown n id0 ∉ timer_callback <$> timers s) ->
  is_Some (property FREQUENCIES (shiftedNote note (octave settings))) ->
  let s' := playNote note settings velocity initialSlide s in
  Map.get (activeOscillators s') note = Some (length (heap s))
  /\ id0 < length (heap s)
  /\ ~ referenced id0 s'
  /\ forall ops, heap (run ops s') !! id0 = heap s !! id0
                 /\ ~ referenced id0 (run ops s').
Proof.
  intros Hs Hpoly Hget Hpending [f Hf] s'. apply reachable_wf in Hs.
  destruct (live_entry s note id0 Hs Hget) as (_ & _ & [e0 He0] & [c Hc] & [g Hg]).
  destruct (playNote_allocates note settings velocity initialSlide s c g f Hc Hg Hf)
    as (Hheap & Hmap & _); [now rewrite Hpoly|].
  fold s' in Hheap, Hmap.
  assert (Hlt : id0 < length (heap s)) by (eapply lookup_lt_Some; eassumption).
  assert (Horphan : orphan id0 s').
  { split; [rewrite Hheap, length_app; lia|]. intros [Hin|[n Hin]].
    - rewrite Hmap in Hin.
      apply (set_values_replaced _ note id0) in Hin; [lia|apply Hs|assumption].
    - apply (Hpending n). subst s'.
      pose proof (playNote_scheduling note settings velocity initialSlide s) as E.
      unfold scheduling in E. apply pair_equal_spec in E as [E _].
      apply pair_equal_spec in E as [_ E]. now rewrite <- E. }
  split_and!.
  - rewrite Hmap. apply get_set_eq.
  - assumption.
  - apply Horphan.
  - intros ops. destruct (leavesOrphan_run id0 ops s' Horphan) as [[_ Hun] E].
    split; [|assumption]. rewrite E, Hheap. now apply lookup_app_l.
Qed.

Lemma retriggered_voice_is_stuck_witness :
  let s' := playNote "A4" INITIAL_SETTINGS 0.4 0.5 oneVoice in
  Map.get (activeOscillators s') "A4" = Some (length (heap oneVoice))
  /\ ~ referenced 0 s'
  /\ forall ops, heap (run ops s') !! 0 = heap oneVoice !! 0
                 /\ ~ referenced 0 (run ops s').
Proof.
  intros s'.
  destruct (retriggered_voice_is_stuck "A4" INITIAL_SETTINGS 0.4 0.5 oneVoice 0)
    as (H1 & _ & H2 & H3).
  - exact reachable_oneVoice.
  - reflexivity.
  - rewrite oneVoice_map. reflexivity.
  - intros n. rewrite (proj1 oneVoice_timers). apply not_elem_of_nil.
  - eexists. exact A4_frequency.
  - split_and!; [exact H1|exact H2|exact H3].
Defined.

(** A release, and then its teardown coming due. *)
Lemma stopNote_then_fire note settings immediate s id c :
  wf s -> Map.get (activeOscillators s) note = Some id -> ctx s = Some c ->
  currentSustain s && negb immediate = false ->
  let releaseTime := if immediate then 0.01%R else release settings in
  let released := mutate id (releaseEntry (currentTime c) releaseTime) s in
  timers (stopNote note settings immediate s)
  = timers s
    ++ [{| timer_id := nextTimerId s; timer_delay := (releaseTime + 0.2) * 1000;
           timer_callback := Teardown note id |}]
  /\ fire (nextTimerId s) (stopNote note settings immediate s)
     = Returned (teardown note id (set_nextTimerId (S (nextTimerId s)) released)).
Proof.
  intros Hwf Hget Hc Hrel releaseTime released.
  rewrite (stopNote_releases note settings immediate s id c) by assumption.
  cbn zeta. fold releaseTime. fold released.
  set (due := {| timer_id := nextTimerId s; timer_delay := (releaseTime + 0.2) * 1000;
                 timer_callback := Teardown note id |}).
  split; [reflexivity|].
  unfold fire, setTimeout. cbn [snd timers set_nextTimerId set_timers].
  change (timers released) with (timers s). change (nextTimerId released) with (nextTimerId s).
  fold due.
  assert (Hfind : List.find (fun t => Nat.eqb (timer_id t) (nextTimerId s))
                    (timers s ++ [due]) = Some due).
  { apply (find_fresh_timer (timers s) due). now apply pending_below_next. }
  assert (Hclear : List.filter (fun t => negb (Nat.eqb (timer_id t) (nextTimerId s)))
                     (timers s ++ [due]) = timers s).
  { apply (clear_fresh_timer (timers s) due). now apply pending_below_next. }
  rewrite Hfind. cbn [timer_callback due runCallback]. f_equal. unfold clearTimeout.
  cbn [timers set_nextTimerId set_timers]. rewrite Hclear. reflexivity.
Qed.

Lemma set_absent {A : Type} (m : list (string * A)) k v :
  Map.get m k = None -> Map.set m k v = m ++ [(k, v)].
Proof.
  induction m as [|[k0 w] m IH]; cbn; [reflexivity|].
  destruct (String.eqb k0 k); [discriminate|]. intros H. now rewrite IH.
Qed.

Lemma delete_last {A : Type} (m : list (string * A)) k v :
  Map.get m k = None -> Map.delete (m ++ [(k, v)]) k = m.
Proof.
  induction m as [|[k0 w] m IH]; cbn.
  - now rewrite String.eqb_refl.
  - destruct (String.eqb k0 k); [discriminate|]. intros H. now rewrite IH.
Qed.

Lemma get_last {A : Type} (m : list (string * A)) k v :
  Map.get m k = None -> Map.get (m ++ [(k, v)]) k = Some v.
Proof.
  induction m as [|[k0 w] m IH]; cbn.
  - now rewrite String.eqb_refl.
  - destruct (String.eqb k0 k); [discriminate|]. apply IH.
Qed.

Lemma playNote_currentSustain note settings velocity initialSlide s :
  currentSustain (playNote note settings velocity initialSlide s) = currentSustain s.
Proof.
  rewrite playNote_unfold.
  unfold atTypeError, retarget, allocate, updateNoteSlide, resumeIfSuspended. frame.
Qed.

(** X7.  Note on, note off, teardown.  On a note that is not sounding, with
    the sustain off: [playNote] adds the note to the end of the map with a
    new voice; [stopNote] leaves the map as it is and adds one timer, the
    teardown of that voice due after [(release + 0.2) * 1000] ms; once that
    timer has fired the map and the pending timers are what they were
    before the note on, and the voice, still on the heap, is left with the
    connection of its filter only. *)
Theorem note_on_off_round_trip (note : string) (settings : SynthSettings)
  (velocity initialSlide : R) (s : AudioService) :
  reachable s ->
  is_Some (ctx s) -> is_Some (mainGain s) ->
  is_Some (property FREQUENCIES (shiftedNote note (octave settings))) ->
  monoMode settings && Nat.ltb 0 (Map.size (activeOscillators s)) = false ->
  Map.get (activeOscillators s) note = None ->
  currentSustain s = false ->
  let id := length (heap s) in
  let s1 := playNote note settings velocity initialSlide s in
  let s2 := stopNote note settings false s1 in
  let s3 := after (fire (nextTimerId s) s2) in
  activeOscillators s1 = activeOscillators s ++ [(note, id)]
  /\ activeOscillators s2 = activeOscillators s1
  /\ timers s2
     = timers s
       ++ [{| timer_id := nextTimerId s; timer_delay := (release settings + 0.2) * 1000;
              timer_callback := Teardown note id |}]
  /\ activeOscillators s3 = activeOscillators s
  /\ timers s3 = timers s
  /\ exists e, heap s3 !! id = Some e /\ connections e = [ToNoteGain].
Proof.
  intros Hs [c Hc] [g Hg] [f Hf] Hm Hnone Hsus id s1 s2 s3.
  pose proof (reachable_wf s Hs) as Hwf.
  assert (Hs1 : reachable s1).
  { apply (reachable_step (PlayNote note settings velocity initialSlide) s Hs). }
  pose proof (reachable_wf s1 Hs1) as Hwf1.
  destruct (playNote_allocates note settings velocity initialSlide s c g f Hc Hg Hf Hm)
    as (Hheap & Hmap & _).
  fold s1 in Hheap, Hmap. rewrite set_absent in Hmap by assumption. fold id in Hmap.
  pose proof (playNote_scheduling note settings velocity initialSlide s) as Hsched.
  fold s1 in Hsched. unfold scheduling in Hsched.
  apply pair_equal_spec in Hsched as [Hsched Hnext].
  apply pair_equal_spec in Hsched as [_ Htimers].
  assert (Hget1 : Map.get (activeOscillators s1) note = Some id).
  { rewrite Hmap. now apply get_last. }
  destruct (live_entry s1 note id Hwf1 Hget1) as (_ & _ & [e He] & [c1 Hc1] & _).
  assert (Hsus1 : currentSustain s1 && negb false = false).
  { subst s1. now rewrite playNote_currentSustain, Hsus. }
  destruct (stopNote_then_fire note settings false s1 id c1 Hwf1 Hget1 Hc1 Hsus1)
    as (Ht2 & Hfire).
  fold s2 in Ht2, Hfire. rewrite Hnext, Htimers in Ht2. rewrite Hnext in Hfire.
  assert (Hmap2 : activeOscillators s2 = activeOscillators s1).
  { subst s2. pose proof (stopNote_control note settings false s1) as E.
    unfold control in E. now apply pair_equal_spec in E as [_ E]. }
  split_and!; [assumption|assumption|assumption| | |].
  - subst s3. rewrite Hfire. cbn [after]. rewrite teardown_current by exact Hget1.
    cbn. rewrite Hmap. now apply delete_last.
  - subst s3. rewrite Hfire. cbn [after]. unfold teardown.
    destruct (sameEntry _ _); cbn; congruence.
  - subst s3. rewrite Hfire. cbn [after]. rewrite teardown_heap. cbn.
    rewrite list_lookup_alter_eq, list_lookup_alter_eq, He. cbn. eexists. split; [reflexivity|].
    rewrite disconnectEntry_connections. cbn.
    now apply (reachable_filter_out s1 id e Hs1 He).
Qed.

Lemma note_on_off_round_trip_witness :
  let s1 := playNote "A4" INITIAL_SETTINGS 0.4 0.5 ready in
  let s2 := stopNote "A4" INITIAL_SETTINGS false s1 in
  let s3 := after (fire (nextTimerId ready) s2) in
  activeOscillators s1 = activeOscillators ready ++ [("A4", length (heap ready))]
  /\ activeOscillators s2 = activeOscillators s1
  /\ activeOscillators s3 = activeOscillators ready
  /\ timers s3 = timers ready.
Proof.
  intros s1 s2 s3.
  destruct (note_on_off_round_trip "A4" INITIAL_SETTINGS 0.4 0.5 ready)
    as (H1 & H2 & _ & H3 & H4 & _).
  - exact reachable_ready.
  - exists (newContext running). exact (proj1 ready_fields).
  - eexists. exact (proj1 (proj2 ready_fields)).
  - eexists. exact A4_frequency.
  - reflexivity.
  - reflexivity.
  - reflexivity.
  - split_and!; [exact H1|exact H2|exact H3|exact H4].
Defined.

Lemma stopNote_globals note settings immediate s :
  globals (stopNote note settings immediate s) = globals s.
Proof. unfold stopNote. frame. Qed.

Lemma releaseSustained_globals settings s :
  globals (releaseSustained settings s) = globals s.
Proof.
  unfold releaseSustained.
  apply (fold_left_preserves (fun s' => globals s' = globals s)); [|reflexivity].
  intros s0 [note id] H0. unfold releaseIfReleased.
  destruct (heap s0 !! id) as [entry|]; [|assumption].
  destruct (released entry); [|assumption]. now rewrite stopNote_globals.
Qed.

Lemma setPitchBend_fields value s :
  delayNode (setPitchBend value s) = delayNode s
  /\ delayFeedbackNode (setPitchBend value s) = delayFeedbackNode s
  /\ currentPitchBend (setPitchBend value s) = value
  /\ currentSustain (setPitchBend value s) = currentSustain s.
Proof.
  unfold setPitchBend. cbn [ctx set_currentPitchBend].
  destruct (ctx s); [rewrite forEachEntry_heap|]; now split_and!.
Qed.

Lemma updateGlobalParams_fields (settings : SynthSettings) (s : AudioService)
  (c : AudioContext) (dn : DelayNode) (dfn : GainNode) :
  ctx s = Some c -> delayNode s = Some dn -> delayFeedbackNode s = Some dfn ->
  let s' := updateGlobalParams settings s in
  currentSustain s' = sustain settings
  /\ currentPitchBend s' = pitchBend settings
  /\ activeOscillators s' = activeOscillators s
  /\ delayNode s'
     = Some {| delay_delayTime :=
                 call (SetTargetAtTime (delayTime settings) (currentTime c) 0.1)
                   (delay_delayTime dn) |}
  /\ delayFeedbackNode s'
     = Some (GainN.gain (SetTargetAtTime (delayFeedback settings) (currentTime c) 0.1) dfn)
  /\ (pitchBend settings = currentPitchBend s ->
      forall id e, heap s !! id = Some e ->
        exists e', heap s' !! id = Some e' /\ pitchOf e' = pitchOf e).
Proof.
  intros Hc Hdn Hdfn s'.
  destruct (updateGlobalParams_control settings s c dn dfn Hc Hdn Hdfn) as [_ Hctl].
  fold s' in Hctl. unfold control in Hctl.
  apply pair_equal_spec in Hctl as [Hctl Hmap]. apply pair_equal_spec in Hctl as [_ Hsus].
  subst s'. unfold updateGlobalParams in *. rewrite Hc, Hdn, Hdfn in *.
  set (sA := if currentSustain s && negb (sustain settings) then _ else s) in *.
  assert (HA : globals sA = globals s).
  { subst sA. destruct (_ && _); [|reflexivity]. now rewrite releaseSustained_globals. }
  unfold globals in HA. apply pair_equal_spec in HA as [_ Hpb].
  assert (HE : evolves pitchOf s sA).
  { subst sA. destruct (_ && _); [|apply evolves_refl].
    eapply evolves_trans; [|apply evolves_releaseSustained; reflexivity].
    now apply evolves_same. }
  set (sB := forEachEntry _ _) in *.
  assert (HB : delayNode sB
               = Some {| delay_delayTime :=
                           call (SetTargetAtTime (delayTime settings) (currentTime c) 0.1)
                             (delay_delayTime dn) |}
               /\ delayFeedbackNode sB
                  = Some (GainN.gain
                            (SetTargetAtTime (delayFeedback settings) (currentTime c) 0.1) dfn)
               /\ currentPitchBend sB = currentPitchBend s
               /\ evolves pitchOf s sB).
  { subst sB. split_and!.
    - now rewrite forEachEntry_heap.
    - now rewrite forEachEntry_heap.
    - now rewrite forEachEntry_heap.
    - eapply evolves_trans; [exact HE|].
      eapply evolves_trans; [|apply evolves_forEachEntry; reflexivity].
      now apply evolves_same. }
  destruct HB as (HB1 & HB2 & HB3 & HB4).
  destruct (Req_dec_T (pitchBend settings) (currentPitchBend sB)) as [E|E].
  - split_and!; try assumption; [congruence|]. intros _. apply HB4.
  - destruct (setPitchBend_fields (pitchBend settings) sB) as (F1 & F2 & F3 & F4).
    rewrite F1, F2, F3. split_and!; try assumption; try reflexivity.
    intros E'. congruence.
Qed.

(** X8.  [updateGlobalParams] with the context and the delay nodes present:
    afterwards [currentSustain] and [currentPitchBend] are those of the
    settings, the map is the same, the delay time and the delay feedback
    each got one [setTargetAtTime(value, now, 0.1)], and when the bend of
    the settings is the one already stored no voice has its oscillator
    frequencies touched. *)
Theorem updateGlobalParams_syncs (settings : SynthSettings) (s : AudioService)
  (c : AudioContext) (dn : DelayNode) (dfn : GainNode) :
  ctx s = Some c -> delayNode s = Some dn -> delayFeedbackNode s = Some dfn ->
  let s' := updateGlobalParams settings s in
  currentSustain s' = sustain settings
  /\ currentPitchBend s' = pitchBend settings
  /\ activeOscillators s' = activeOscillators s
  /\ delayNode s'
     = Some {| delay_delayTime :=
                 call (SetTargetAtTime (delayTime settings) (currentTime c) 0.1)
                   (delay_delayTime dn) |}
  /\ delayFeedbackNode s'
     = Some (GainN.gain (SetTargetAtTime (delayFeedback settings) (currentTime c) 0.1) dfn)
  /\ (pitchBend settings = currentPitchBend s ->
      forall id e, heap s !! id = Some e ->
        exists e', heap s' !! id = Some e' /\ pitchOf e' = pitchOf e).
Proof. apply updateGlobalParams_fields. Qed.

Lemma oneVoice_delay :
  exists dn dfn, delayNode oneVoice = Some dn /\ delayFeedbackNode oneVoice = Some dfn.
Proof. destruct oneVoice_allocated as [f ->]. eexists _, _. split; reflexivity. Qed.

Lemma updateGlobalParams_syncs_witness :
  let s' := updateGlobalParams INITIAL_SETTINGS oneVoice in
  currentSustain s' = sustain INITIAL_SETTINGS
  /\ currentPitchBend s' = pitchBend INITIAL_SETTINGS
  /\ activeOscillators s' = activeOscillators oneVoice.
Proof.
  intros s'.
  destruct oneVoice_delay as (dn & dfn & Hdn & Hdfn).
  destruct (updateGlobalParams_syncs INITIAL_SETTINGS oneVoice (newContext running) dn dfn
              oneVoice_ctx Hdn Hdfn)
    as (H1 & H2 & H3 & _).
  split_and!; [exact H1|exact H2|exact H3].
Defined.

Lemma silent_same s s' :
  ctx s' = ctx s -> mainGain s' = mainGain s -> delayNode s' = delayNode s ->
  delayFeedbackNode s' = delayFeedbackNode s -> heap s' = heap s ->
  activeOscillators s' = activeOscillators s -> silent s -> silent s'.
Proof. unfold silent. intros -> -> -> -> -> ->. tauto. Qed.

Lemma silent_playNote note settings velocity initialSlide s :
  silent s -> playNote note settings velocity initialSlide s = s.
Proof. intros (Hc & _). rewrite playNote_unfold. now rewrite Hc. Qed.

Lemma silent_stopNote note settings immediate s :
  silent s -> stopNote note settings immediate s = s.
Proof. intros (Hc & _). unfold stopNote. rewrite Hc. now destruct (Map.get _ _). Qed.

Lemma silent_stopArp s : silent s -> silent (stopArp s).
Proof.
  apply silent_same; unfold stopArp;
    (destruct (arpTimer s); [destruct (handleTruthy _)|]; reflexivity).
Qed.

Lemma silent_tick settings s : silent s -> silent (after (tick settings s)).
Proof.
  intros H. destruct (activeNotesForArp s) as [|n l] eqn:Hseq.
  - unfold tick. rewrite Hseq. cbn. now apply silent_stopArp.
  - rewrite tick_headless; [|apply H|now rewrite Hseq]. cbn [after].
    revert H. now apply silent_same.
Qed.

Lemma silent_teardown note entry s : silent s -> silent (teardown note entry s).
Proof.
  intros (Hc & Hg & Hdn & Hdfn & Hh & Hm). unfold teardown.
  cbn [mutate activeOscillators set_heap]. rewrite Hm. cbn [Map.get property sameEntry].
  unfold silent. cbn. rewrite Hh. now split_and!.
Qed.

Lemma silent_exec op s : silent s -> silent (after (exec op s)).
Proof.
  intros H.
  destruct op as [|v|note slide|note settings velocity initialSlide|note settings immediate
                 |settings|notes settings| |h|dt|st];
    cbn [exec]; rewrite ?after_playNoteCall; cbn [after].
  - unfold initResume. destruct H as (Hc & H). rewrite Hc. now split.
  - unfold setPitchBend. cbn [ctx set_currentPitchBend].
    destruct H as (Hc & H). rewrite Hc. now split.
  - unfold updateNoteSlide. destruct H as (Hc & H). rewrite Hc.
    destruct (Map.get _ _); now split.
  - now rewrite silent_playNote.
  - now rewrite silent_stopNote.
  - unfold updateGlobalParams. destruct H as (Hc & H). rewrite Hc. now split.
  - unfold startArp. destruct (handleTruthy _).
    + revert H. now apply silent_same.
    + apply silent_tick. revert H. now apply silent_same.
  - now apply silent_stopArp.
  - unfold fire. destruct (List.find _ _) as [t|]; [|assumption].
    assert (Hcl : silent (clearTimeout h s)) by (revert H; now apply silent_same).
    destruct (timer_callback t) as [note entry|[note|] settings|settings]; cbn.
    + now apply silent_teardown.
    + now rewrite silent_stopNote.
    + assumption.
    + now apply silent_tick.
  - unfold clock. destruct H as (Hc & H). rewrite Hc. now split.
  - unfold contextState. destruct H as (Hc & H). rewrite Hc. now split.
Qed.

(** X9.  Where there is no [window] the engine never gets an audio side:
    after any history of operations it has no context, no main gain, no
    delay nodes, no voice and an empty map. *)
Theorem headless_engine_stays_silent (ops : list Op) :
  let s := run ops (construct None) in
  ctx s = None /\ mainGain s = None /\ delayNode s = None /\ delayFeedbackNode s = None
  /\ heap s = [] /\ activeOscillators s = [].
Proof.
  cbn zeta. change (silent (run ops (construct None))).
  assert (H : silent (construct None)) by (now split_and!).
  revert H. generalize (construct None).
  induction ops as [|op ops IH]; intros s H; [assumption|].
  cbn. apply IH. now apply silent_exec.
Qed.

Lemma newEntry_slide settings lastFrequency now targetFreq baseFreq velocity initialSlide :
  automation
    (cs_offset
       (slideSource
          (newEntry settings lastFrequency now targetFreq baseFreq velocity initialSlide)))
  = [SetValueAtTime initialSlide now].
Proof. unfold newEntry. now destruct (patchOscillators _ _ _ _). Qed.

(** X10.  The key slide of a new voice.  [playNote] sets the slide source to
    [initialSlide] and connects it to one gain node, the last of the
    modulation gains, after those of the matrix, whose gain is the scale of
    [settings.keySlideTarget] and whose output is the parameter of that
    target; [updateNoteSlide] on the note then appends
    [setTargetAtTime(slide, now, 0.01)] to the offset of the slide source
    and changes no other voice. *)
Theorem key_slide_path (note : string) (settings : SynthSettings)
  (velocity initialSlide slide : R) (s : AudioService) (c : AudioContext) :
  reachable s ->
  ctx s = Some c -> is_Some (mainGain s) ->
  is_Some (property FREQUENCIES (shiftedNote note (octave settings))) ->
  monoMode settings && Nat.ltb 0 (Map.size (activeOscillators s)) = false ->
  let now := currentTime c in
  let s1 := playNote note settings velocity initialSlide s in
  let s2 := updateNoteSlide note slide s1 in
  let k := length (omap (routeGain now) (modMatrix settings)) in
  exists e expressionGain,
    heap s2 !! length (heap s) = Some e
    /\ automation (cs_offset (slideSource e))
       = [SetValueAtTime initialSlide now; SetTargetAtTime slide now 0.01]
    /\ cs_out (slideSource e) = [ToModGain k]
    /\ modGains e !! k = Some expressionGain
    /\ length (modGains e) = S k
    /\ automation (gain_gain expressionGain)
       = [SetValueAtTime (slideScale (keySlideTarget settings)) now]
    /\ gain_out expressionGain = [slideTarget (keySlideTarget settings)]
    /\ (forall j, j <> length (heap s) -> heap s2 !! j = heap s1 !! j).
Proof.
  intros Hs Hc [g Hg] [f Hf] Hm now s1 s2 k.
  destruct (playNote_allocates note settings velocity initialSlide s c g f Hc Hg Hf Hm)
    as (Hheap & Hmap & _).
  fold s1 in Hheap, Hmap. fold now in Hheap.
  set (e1 := newEntry settings (lastFrequency s) now (getBentFrequency s f) f velocity
               initialSlide) in *.
  assert (Hget : Map.get (activeOscillators s1) note = Some (length (heap s))).
  { rewrite Hmap. apply get_set_eq. }
  assert (Hs1 : reachable s1).
  { apply (reachable_step (PlayNote note settings velocity initialSlide) s Hs). }
  destruct (live_entry s1 note _ (reachable_wf s1 Hs1) Hget) as (_ & _ & _ & [c1 Hc1] & _).
  assert (Htime : currentTime c1 = now).
  { assert (E : ctx s1 = ctx (resumeIfSuspended s)).
    { subst s1. rewrite (playNote_known note settings velocity initialSlide s c g f)
        by assumption.
      cbn zeta. rewrite Hm. reflexivity. }
    destruct (resumeIfSuspended_time s c Hc) as (c' & Hc' & Ht). unfold now. congruence. }
  assert (Hs2 : heap s2
                = alter (with_slideSource
                           (Const.offset (SetTargetAtTime slide now 0.01)))
                    (length (heap s)) (heap s1)).
  { subst s2. unfold updateNoteSlide. now rewrite Hget, Hc1, Htime. }
  destruct (newEntry_graph settings (lastFrequency s) now (getBentFrequency s f) f velocity
              initialSlide) as (Hmg & _ & _ & Hout & _).
  fold e1 in Hmg, Hout. fold k in Hout.
  eexists _, _. rewrite Hs2, Hheap. split_and!.
  - rewrite list_lookup_alter_eq, list_lookup_middle by reflexivity. reflexivity.
  - cbn. unfold e1. now rewrite newEntry_slide.
  - exact Hout.
  - cbn. rewrite Hmg. fold k. apply list_lookup_middle. reflexivity.
  - cbn. rewrite Hmg, length_app. fold k. cbn. lia.
  - reflexivity.
  - reflexivity.
  - intros j Hj. now apply list_lookup_alter_ne.
Qed.

Lemma key_slide_path_witness :
  let s1 := playNote "A4" INITIAL_SETTINGS 0.4 0.5 ready in
  let s2 := updateNoteSlide "A4" 0.9 s1 in
  exists e,
    heap s2 !! length (heap ready) = Some e
    /\ automation (cs_offset (slideSource e))
       = [SetValueAtTime 0.5 (currentTime (newContext running));
          SetTargetAtTime 0.9 (currentTime (newContext running)) 0.01].
Proof.
  intros s1 s2.
  destruct (key_slide_path "A4" INITIAL_SETTINGS 0.4 0.5 0.9 ready (newContext running))
    as (e & g & H1 & H2 & _).
  - exact reachable_ready.
  - exact (proj1 ready_fields).
  - eexists. exact (proj1 (proj2 ready_fields)).
  - eexists. exact A4_frequency.
  - reflexivity.
  - exists e. split; [exact H1|exact H2].
Defined.

Lemma newEntry_pitch settings lastFrequency now targetFreq baseFreq velocity initialSlide :
  let e := newEntry settings lastFrequency now targetFreq baseFreq velocity initialSlide in
  let calls :=
    if Rgtb (glide settings) 0 && truthy lastFrequency
    then [SetValueAtTime (default targetFreq lastFrequency) now;
          ExponentialRampToValueAtTime targetFreq (now + glide settings)]
    else [SetValueAtTime targetFreq now] in
  automation (osc_frequency (osc1 e)) = calls
  /\ automation (osc_frequency (osc2 e)) = calls.
Proof.
  cbn zeta. unfold newEntry, patchOscillators.
  destruct (patchCategory settings); destruct (Rgtb (glide settings) 0 && truthy lastFrequency);
    now split.
Qed.

Lemma retarget_ctx note settings initialSlide now targetFreq baseFreq s :
  ctx (retarget note settings initialSlide now targetFreq baseFreq s) = ctx s.
Proof. unfold retarget, updateNoteSlide. frame. Qed.

Lemma playNote_time note settings velocity initialSlide s c :
  ctx s = Some c ->
  exists c', ctx (playNote note settings velocity initialSlide s) = Some c'
             /\ currentTime c' = currentTime c.
Proof.
  intros Hc. destruct (resumeIfSuspended_time s c Hc) as (c' & Hc' & Ht).
  rewrite playNote_unfold. rewrite Hc. destruct (mainGain s); [|eauto]. cbv zeta.
  destruct (property _ _);
    [|case_bool_decide; [|eauto];
      destruct (atTypeError_fields settings (currentTime c) (resumeIfSuspended s))
        as (_ & _ & E & _); rewrite E; eauto].
  destruct (negb _); [eauto|].
  destruct (_ && _); [rewrite retarget_ctx; eauto|]. unfold allocate. cbn. eauto.
Qed.

Lemma playNote_lastFrequency note settings velocity initialSlide s f :
  wf s -> is_Some (ctx s) -> is_Some (mainGain s) ->
  property FREQUENCIES (shiftedNote note (octave settings)) = Some f ->
  lastFrequency (playNote note settings velocity initialSlide s)
  = Some (getBentFrequency s f).
Proof.
  intros Hwf [c Hc] [g Hg] Hf.
  destruct (monoMode settings && Nat.ltb 0 (Map.size (activeOscillators s))) eqn:Hm.
  - rewrite (playNote_known note settings velocity initialSlide s c g f) by assumption.
    cbn zeta. rewrite Hm.
    destruct (activeOscillators s) as [|[existingNote id] rest] eqn:Hmap;
      [now rewrite andb_false_r in Hm|].
    destruct (resumeIfSuspended_time s c Hc) as (c1 & Hc1 & _).
    destruct (resumeIfSuspended_voices s) as (_ & Hm1 & _).
    apply (retarget_fields note settings initialSlide (currentTime c)
             (getBentFrequency s f) f (resumeIfSuspended s) c1 existingNote id rest Hc1);
      [congruence|].
    rewrite <- Hmap. apply Hwf.
  - now apply (playNote_allocates note settings velocity initialSlide s c g f).
Qed.

(** X11.  Glide, outside mono mode.  [lastFrequency] is the bent frequency
    of the last note played.  The oscillators of the voice of the next note
    start at that frequency and ramp exponentially to the bent frequency of
    their own note over [settings.glide] seconds when the glide is
    positive, and are set to their own frequency at once when it is not. *)
Theorem glide_starts_at_last_pitch (first note : string)
  (settings0 settings : SynthSettings) (velocity0 slide0 velocity initialSlide : R)
  (s : AudioService) (c : AudioContext) (f0 f : R) :
  reachable s ->
  ctx s = Some c -> is_Some (mainGain s) ->
  property FREQUENCIES (shiftedNote first (octave settings0)) = Some f0 ->
  property FREQUENCIES (shiftedNote note (octave settings)) = Some f ->
  monoMode settings = false ->
  let now := currentTime c in
  let bend := Rpower 2 (currentPitchBend s * 2 / 12) in
  let s1 := playNote first settings0 velocity0 slide0 s in
  let s2 := playNote note settings velocity initialSlide s1 in
  lastFrequency s1 = Some (f0 * bend)%R
  /\ lastFrequency s2 = Some (f * bend)%R
  /\ exists e,
      heap s2 !! length (heap s1) = Some e
      /\ ((0 < glide settings)%R ->
          automation (osc_frequency (osc1 e))
          = [SetValueAtTime (f0 * bend) now;
             ExponentialRampToValueAtTime (f * bend) (now + glide settings)]
          /\ automation (osc_frequency (osc2 e))
             = [SetValueAtTime (f0 * bend) now;
                ExponentialRampToValueAtTime (f * bend) (now + glide settings)])
      /\ ((glide settings <= 0)%R ->
          automation (osc_frequency (osc1 e)) = [SetValueAtTime (f * bend) now]
          /\ automation (osc_frequency (osc2 e)) = [SetValueAtTime (f * bend) now]).
Proof.
  intros Hs Hc Hg Hf0 Hf Hpoly now bend s1 s2.
  pose proof (reachable_wf s Hs) as Hwf.
  assert (Hs1 : reachable s1).
  { apply (reachable_step (PlayNote first settings0 velocity0 slide0) s Hs). }
  pose proof (reachable_wf s1 Hs1) as Hwf1.
  assert (Hlast1 : lastFrequency s1 = Some (f0 * bend)%R).
  { subst s1. rewrite (playNote_lastFrequency first settings0 velocity0 slide0 s f0); eauto. }
  destruct (playNote_sounds first settings0 velocity0 slide0 s f0 Hwf) as (id & _ & Hget & _);
    eauto.
  fold s1 in Hget.
  destruct (live_entry s1 first id Hwf1 Hget) as (_ & _ & _ & [c1 Hc1] & [g1 Hg1]).
  assert (Hbend1 : currentPitchBend s1 = currentPitchBend s).
  { subst s1. rewrite playNote_unfold.
    unfold atTypeError, retarget, allocate, updateNoteSlide, resumeIfSuspended. frame. }
  assert (Htime : currentTime c1 = now).
  { destruct (playNote_time first settings0 velocity0 slide0 s c Hc) as (c' & E1 & E2).
    fold s1 in E1. unfold now. congruence. }
  destruct (playNote_allocates note settings velocity initialSlide s1 c1 g1 f Hc1 Hg1 Hf)
    as (Hheap & _ & Hlast2); [now rewrite Hpoly|].
  fold s2 in Hheap, Hlast2.
  assert (Hbent : getBentFrequency s1 f = (f * bend)%R).
  { unfold getBentFrequency. now rewrite Hbend1. }
  rewrite Hbent, Htime, Hlast1 in Hheap. rewrite Hbent in Hlast2.
  split_and!; [assumption|assumption|].
  eexists. split; [rewrite Hheap; apply list_lookup_middle; reflexivity|].
  match goal with
  | |- context [newEntry ?a ?b ?c ?d ?e ?f ?g] =>
      pose proof (newEntry_pitch a b c d e f g) as Hp
  end.
  cbn zeta in Hp. cbn [truthy default] in Hp.
  assert (Hpos : (0 < f0 * bend)%R).
  { apply Rmult_lt_0_compat; [eapply FREQUENCIES_positive; eassumption|].
    unfold bend, Rpower. apply exp_pos. }
  rewrite (Rtruthy_positive _ Hpos), andb_true_r in Hp.
  split.
  - intros Hglide. now rewrite (Rgtb_true _ _ Hglide) in Hp.
  - intros Hglide. now rewrite (Rgtb_false _ _ Hglide) in Hp.
Qed.

Lemma A5_frequency :
  property FREQUENCIES (shiftedNote "A5" 0) = Some (440 * Rpower 2 (12 / 12))%R.
Proof. reflexivity. Qed.

Lemma glide_starts_at_last_pitch_witness :
  let s1 := playNote "A4" INITIAL_SETTINGS 0.4 0.5 ready in
  let s2 := playNote "A5" INITIAL_SETTINGS 0.4 0.5 s1 in
  let bend := Rpower 2 (currentPitchBend ready * 2 / 12) in
  lastFrequency s1 = Some (440 * Rpower 2 (0 / 12) * bend)%R
  /\ lastFrequency s2 = Some (440 * Rpower 2 (12 / 12) * bend)%R.
Proof.
  intros s1 s2 bend.
  destruct (glide_starts_at_last_pitch "A4" "A5" INITIAL_SETTINGS INITIAL_SETTINGS
              0.4 0.5 0.4 0.5 ready (newContext running)
              (440 * Rpower 2 (0 / 12))%R (440 * Rpower 2 (12 / 12))%R)
    as (H1 & H2 & _).
  - exact reachable_ready.
  - exact (proj1 ready_fields).
  - eexists. exact (proj1 (proj2 ready_fields)).
  - exact A4_frequency.
  - exact A5_frequency.
  - reflexivity.
  - split; [exact H1|exact H2].
Defined.

(** ** The arpeggiator: one loop, and how it ends *)

Lemma NoDup_timer_ids (ts : list Timer) (t1 t2 : Timer) :
  NoDup (timer_id <$> ts) -> t1 ∈ ts -> t2 ∈ ts -> timer_id t1 = timer_id t2 -> t1 = t2.
Proof.
  induction ts as [|t ts IH]; cbn; intros Hnd H1 H2 E; [inversion H1|].
  apply NoDup_cons in Hnd as [Ht Hnd].
  apply elem_of_cons in H1 as [->|H1], H2 as [->|H2]; [reflexivity| | |now apply IH].
  - exfalso. apply Ht. rewrite E. apply list_elem_of_fmap. now exists t2.
  - exfalso. apply Ht. rewrite <- E. apply list_elem_of_fmap. now exists t1.
Qed.

(** X12.  At most one tick of the arpeggiator is ever pending, and its
    handle is the one kept in [arpTimer]: starts, stops, ticks and restarts
    in any order never leave two loops running. *)
Theorem arpeggiator_single_tick (s : AudioService) (t1 t2 : Timer) :
  reachable s ->
  t1 ∈ timers s -> t2 ∈ timers s ->
  isTick t1 = true -> isTick t2 = true ->
  t1 = t2 /\ arpTimer s = Some (timer_id t1).
Proof.
  intros Hs H1 H2 T1 T2. pose proof (reachable_oneTick s Hs) as Hone.
  apply reachable_wf in Hs. unfold oneTick in Hone. rewrite Forall_forall in Hone.
  pose proof (Hone t1 H1 T1) as E1. pose proof (Hone t2 H2 T2) as E2.
  split; [|assumption].
  apply (NoDup_timer_ids (timers s)); [apply Hs|assumption|assumption|congruence].
Qed.

Lemma reachable_startArp notes settings s :
  reachable s -> reachable (after (startArp notes settings s)).
Proof. exact (reachable_step (StartArp notes settings) s). Qed.

Lemma ticked_fields settings note s :
  arpTimer (ticked settings note s) = Some (S (nextTimerId s))
  /\ currentArpIndex (ticked settings note s)
     = (currentArpIndex s + 1) mod length (activeNotesForArp s)
  /\ activeNotesForArp (ticked settings note s) = activeNotesForArp s.
Proof.
  destruct (playNote_scheduling_fields note settings 0.3 0.5 s) as (_ & H2 & _).
  unfold ticked, setTimeout. cbn. now rewrite H2.
Qed.

Lemma playNote_mainGain note settings velocity initialSlide s :
  mainGain (playNote note settings velocity initialSlide s) = mainGain s.
Proof.
  rewrite playNote_unfold.
  unfold atTypeError, retarget, allocate, updateNoteSlide, resumeIfSuspended. frame.
Qed.

Lemma ticked_audio settings note s :
  is_Some (ctx s) -> is_Some (mainGain s) ->
  is_Some (ctx (ticked settings note s)) /\ is_Some (mainGain (ticked settings note s)).
Proof.
  intros [c Hc] Hg. unfold ticked, setTimeout. cbn.
  destruct (playNote_time note settings 0.3 0.5 s c Hc) as (c' & Hc' & _).
  split; [now exists c'|].
  now rewrite playNote_mainGain.
Qed.

(** A start while the arpeggiator runs stores the sorted notes, and that is
    all. *)
Lemma startArp_while_running notes settings' settings sequence index id s :
  arpRunning settings sequence index s -> arpTimer s = Some id ->
  handleTruthy (Some id) = true ->
  after (startArp notes settings' s) = set_activeNotesForArp (sortNotes notes) s
  /\ arpRunning settings (sortNotes notes) index (after (startArp notes settings' s))
  /\ arpTimer (after (startArp notes settings' s)) = Some id
  /\ ctx (after (startArp notes settings' s)) = ctx s
  /\ mainGain (after (startArp notes settings' s)) = mainGain s.
Proof.
  intros (_ & Hi & Hrun) Hid Ht.
  assert (E : after (startArp notes settings' s)
              = set_activeNotesForArp (sortNotes notes) s).
  { unfold startArp. cbn [arpTimer set_activeNotesForArp]. now rewrite Hid, Ht. }
  rewrite E. split_and!; try reflexivity; try assumption.
  split_and!; [reflexivity|exact Hi|exact Hrun].
Qed.

Lemma arpStarted_fields :
  reachable arpStarted
  /\ arpRunning INITIAL_SETTINGS triad 1 arpStarted
  /\ arpTimer arpStarted = Some 2
  /\ timers arpStarted
     = [{| timer_id := 1; timer_delay := 60 / arpRate INITIAL_SETTINGS * 0.8 * 1000;
           timer_callback := ArpNoteOff (Some "C4") INITIAL_SETTINGS |};
        pendingTick INITIAL_SETTINGS 2]
  /\ is_Some (ctx arpStarted) /\ is_Some (mainGain arpStarted).
Proof.
  assert (E : arpStarted = ticked INITIAL_SETTINGS "C4" (set_activeNotesForArp triad ready)).
  { unfold arpStarted.
    change (startArp triad INITIAL_SETTINGS ready)
      with (tick INITIAL_SETTINGS (set_activeNotesForArp (sortNotes triad) ready)).
    rewrite triad_sorted.
    rewrite (tick_plays INITIAL_SETTINGS (set_activeNotesForArp triad ready) "C4");
      [reflexivity|reflexivity|now eexists|].
    apply indexObject_own_ne. now eexists. }
  assert (Ht : timers arpStarted
               = [{| timer_id := 1;
                     timer_delay := 60 / arpRate INITIAL_SETTINGS * 0.8 * 1000;
                     timer_callback := ArpNoteOff (Some "C4") INITIAL_SETTINGS |};
                  pendingTick INITIAL_SETTINGS 2]).
  { rewrite E, ticked_timers. reflexivity. }
  destruct (ticked_fields INITIAL_SETTINGS "C4" (set_activeNotesForArp triad ready))
    as (Hh & Hi & Hn).
  destruct (ticked_audio INITIAL_SETTINGS "C4" (set_activeNotesForArp triad ready))
    as (Hc & Hg).
  { exists (newContext running). reflexivity. }
  { eexists. reflexivity. }
  rewrite <- E in Hh, Hi, Hn, Hc, Hg.
  split_and!.
  - exact (reachable_startArp triad INITIAL_SETTINGS ready reachable_ready).
  - split_and!; [exact Hn|exact Hi|].
    exists 2. split; [exact Hh|]. rewrite Ht. reflexivity.
  - exact Hh.
  - exact Ht.
  - exact Hc.
  - exact Hg.
Qed.

Lemma arpeggiator_single_tick_witness : arpTimer arpStarted = Some 2.
Proof.
  destruct arpStarted_fields as (Hr & _ & _ & Ht & _).
  apply (arpeggiator_single_tick arpStarted
           (pendingTick INITIAL_SETTINGS 2) (pendingTick INITIAL_SETTINGS 2)).
  - exact Hr.
  - rewrite Ht. apply (list_elem_of_lookup_2 _ 1). reflexivity.
  - rewrite Ht. apply (list_elem_of_lookup_2 _ 1). reflexivity.
  - reflexivity.
  - reflexivity.
Defined.

Lemma stopArp_handle s id : arpTimer (stopArp s) = Some id -> arpTimer s = Some id.
Proof.
  unfold stopArp. destruct (arpTimer s) as [h|] eqn:E; [|cbn; congruence].
  destruct (handleTruthy _); cbn; congruence.
Qed.

(** The handle of the arpeggiator is never 0. *)
Lemma arpTimer_positive s id : reachable s -> arpTimer s = Some id -> 0 < id.
Proof.
  intros (window & ops & ->). revert id.
  assert (G : forall s0, wf s0 -> (forall id, arpTimer s0 = Some id -> 0 < id) ->
                         forall id, arpTimer (run ops s0) = Some id -> 0 < id).
  { induction ops as [|op ops IH]; intros s0 Hwf H; [exact H|].
    cbn. apply IH; [now apply wf_exec|].
    assert (Hext : forall s', extends s0 s' -> forall id, arpTimer s' = Some id -> 0 < id).
    { intros s' [Ha _] id. unfold arpState in Ha. apply pair_equal_spec in Ha as [Ha _].
      apply pair_equal_spec in Ha as [Ha _]. rewrite Ha. apply H. }
    assert (Htick : forall settings s1, wf s1 ->
              (forall id, arpTimer s1 = Some id -> 0 < id) ->
              forall id, arpTimer (after (tick settings s1)) = Some id -> 0 < id).
    { intros settings s1 Hwf1 H1 id. unfold tick. destruct (Nat.eqb _ _).
      - intros Hid. apply stopArp_handle in Hid. now apply H1.
      - assert (E : arpTimer (after (arpPlayNote (activeNotesForArp s1 !! currentArpIndex s1)
                                       settings s1)) = arpTimer s1).
        { unfold arpPlayNote.
          destruct (activeNotesForArp s1 !! currentArpIndex s1) as [n|].
          - apply playNote_scheduling_fields.
          - destruct (ctx s1); [destruct (mainGain s1)|]; cbn; try reflexivity.
            pose proof (resumeIfSuspended_scheduling s1) as E. unfold scheduling in E.
            apply pair_equal_spec in E as [E _]. apply pair_equal_spec in E as [E _].
            apply pair_equal_spec in E as [E _]. now apply pair_equal_spec in E as [E _]. }
        destruct (arpPlayNote _ _ _) as [s2|s2]; cbn [after] in *;
          [|rewrite E; apply H1].
        destruct (windowDefined _); cbn; [intros [= <-]; lia|].
        rewrite E. apply H1. }
    pose proof (extends_exec op s0) as Hx.
    destruct op as [|bend|note slide|note settings velocity initialSlide
                   |note settings immediate|settings|notes settings| |h|dt|st];
      try (now apply Hext).
    - cbn [exec]. unfold startArp. destruct (handleTruthy _); [exact H|].
      apply Htick; [now apply wf_set_activeNotesForArp | exact H].
    - cbn. intros id Hid. apply stopArp_handle in Hid. now apply H.
    - cbn [exec]. unfold fire. destruct (List.find _ _) as [t|]; [|exact H].
      destruct (timer_callback t) as [note entry|[note|] settings|settings];
        cbn [runCallback after].
      + intros id. pose proof (teardown_arpState note entry (clearTimeout h s0)) as E.
        unfold arpState in E. apply pair_equal_spec in E as [E _].
        apply pair_equal_spec in E as [E _]. rewrite E. apply H.
      + intros id. pose proof (stopNote_arpState note settings false (clearTimeout h s0)) as E.
        unfold arpState in E. apply pair_equal_spec in E as [E _].
        apply pair_equal_spec in E as [E _]. rewrite E. apply H.
      + exact H.
      + apply Htick; [now apply wf_clearTimeout | exact H]. }
  apply G; [apply wf_construct | discriminate].
Qed.

Lemma schedulesAfter_refl s : schedulesAfter s s.
Proof. split_and!; [reflexivity|lia|auto]. Qed.

Lemma schedulesAfter_trans s1 s2 s3 :
  schedulesAfter s1 s2 -> schedulesAfter s2 s3 -> schedulesAfter s1 s3.
Proof.
  intros (A1 & B1 & C1) (A2 & B2 & C2). split_and!; [congruence|lia|].
  intros t Ht. destruct (C2 t Ht) as [H|H]; [|right; lia]. now apply C1.
Qed.

Lemma schedulesAfter_same s s' : scheduling s' = scheduling s -> schedulesAfter s s'.
Proof.
  unfold scheduling. intros E. apply pair_equal_spec in E as [E H5].
  apply pair_equal_spec in E as [E H4]. apply pair_equal_spec in E as [E _].
  apply pair_equal_spec in E as [H1 _].
  split_and!; [assumption|lia|]. intros t. rewrite H4. auto.
Qed.

Lemma schedulesAfter_setTimeout cb ms s : schedulesAfter s (snd (setTimeout cb ms s)).
Proof.
  split_and!; cbn; [reflexivity|lia|]. intros t Ht. apply elem_of_app in Ht as [Ht|Ht]; [auto|].
  apply list_elem_of_singleton in Ht as ->. cbn. right. lia.
Qed.

Lemma schedulesAfter_clearTimeout id s : schedulesAfter s (clearTimeout id s).
Proof.
  split_and!; cbn; [reflexivity|lia|]. intros t Ht. left.
  eapply elem_of_sublist; [eassumption | apply filter_sublist].
Qed.

Lemma schedulesAfter_stopNote note settings immediate s :
  schedulesAfter s (stopNote note settings immediate s).
Proof.
  unfold stopNote. destruct (Map.get _ _) as [entry|]; [|apply schedulesAfter_refl].
  destruct (ctx s); [|apply schedulesAfter_refl].
  destruct (_ && _); [now apply schedulesAfter_same|].
  eapply schedulesAfter_trans; [|apply schedulesAfter_setTimeout].
  now apply schedulesAfter_same.
Qed.

Lemma schedulesAfter_teardown note entry s : schedulesAfter s (teardown note entry s).
Proof.
  apply schedulesAfter_same. unfold teardown. now destruct (sameEntry _ _).
Qed.

Lemma schedulesAfter_forEachEntry f s : schedulesAfter s (forEachEntry f s).
Proof. apply schedulesAfter_same. now rewrite forEachEntry_heap. Qed.

Lemma schedulesAfter_setPitchBend value s : schedulesAfter s (setPitchBend value s).
Proof.
  unfold setPitchBend. cbn [ctx set_currentPitchBend].
  destruct (ctx s); [|now apply schedulesAfter_same].
  eapply schedulesAfter_trans; [|apply schedulesAfter_forEachEntry].
  now apply schedulesAfter_same.
Qed.

Lemma schedulesAfter_releaseSustained settings s :
  schedulesAfter s (releaseSustained settings s).
Proof.
  unfold releaseSustained.
  apply (fold_left_preserves (fun s' => schedulesAfter s s')); [|apply schedulesAfter_refl].
  intros s0 [note id] H0. unfold releaseIfReleased.
  destruct (heap s0 !! id) as [entry|]; [|assumption].
  destruct (released entry); [|assumption].
  eapply schedulesAfter_trans; [eassumption | apply schedulesAfter_stopNote].
Qed.

Lemma schedulesAfter_updateGlobalParams settings s :
  schedulesAfter s (updateGlobalParams settings s).
Proof.
  unfold updateGlobalParams.
  destruct (ctx s) as [c|]; [|apply schedulesAfter_refl].
  destruct (delayNode s) as [dn|]; [|apply schedulesAfter_refl].
  destruct (delayFeedbackNode s) as [dfn|]; [|apply schedulesAfter_refl].
  match goal with
  | |- schedulesAfter _ (if ?b then ?a else setPitchBend ?v ?a') =>
      assert (Ha : schedulesAfter s a)
  end.
  { eapply schedulesAfter_trans; [|apply schedulesAfter_forEachEntry].
    match goal with
    | |- schedulesAfter _ (set_delayFeedbackNode _ (set_delayNode _ (set_currentSustain _ ?x))) =>
        apply schedulesAfter_trans with x; [|now apply schedulesAfter_same]
    end.
    destruct (currentSustain s && negb (sustain settings)); [|apply schedulesAfter_refl].
    eapply schedulesAfter_trans; [|apply schedulesAfter_releaseSustained].
    now apply schedulesAfter_same. }
  destruct (Req_dec_T _ _); [assumption|].
  eapply schedulesAfter_trans; [eassumption | apply schedulesAfter_setPitchBend].
Qed.

Lemma handleInv_after s s' : wf s -> schedulesAfter s s' -> handleInv s -> handleInv s'.
Proof.
  intros Hwf (A & B & C) H id Hid. rewrite A in Hid. destruct (H id Hid) as [Hlt Htick].
  split; [lia|]. intros t Ht E. destruct (C t Ht) as [Hold|Hnew]; [now apply Htick|lia].
Qed.

Lemma handleInv_stopArp s : wf s -> handleInv s -> handleInv (stopArp s).
Proof.
  intros Hwf H id Hid. pose proof (stopArp_handle s id Hid) as Hid'.
  destruct (H id Hid') as [Hlt Htick]. unfold stopArp in *. rewrite Hid' in *.
  destruct (handleTruthy _); [discriminate|]. cbn. now split.
Qed.

Lemma handleInv_tick settings s :
  wf s -> handleInv s -> handleInv (after (tick settings s)).
Proof.
  intros Hwf H. unfold tick. destruct (Nat.eqb _ _); [now apply handleInv_stopArp|].
  assert (Hsched : forall note s0, wf s0 ->
            handleInv
              (set_arpTimer (Some (nextTimerId (snd (setTimeout (ArpNoteOff note settings)
                                                   (60 / arpRate settings * 0.8 * 1000) s0))))
                 (snd (setTimeout (ArpTick settings) (60 / arpRate settings * 1000)
                         (set_currentArpIndex
                            ((currentArpIndex s0 + 1) mod length (activeNotesForArp s0))
                            (snd (setTimeout (ArpNoteOff note settings)
                                    (60 / arpRate settings * 0.8 * 1000) s0))))))).
  { intros note s0 Hwf0 id. cbn. intros [= <-]. split; [lia|].
    intros t Ht E. rewrite <- app_assoc in Ht. apply elem_of_app in Ht as [Ht|Ht].
    - pose proof (pending_below_next s0 Hwf0) as Hp. rewrite Forall_forall in Hp.
      specialize (Hp t Ht). lia.
    - apply elem_of_cons in Ht as [->|Ht]; [cbn in E; lia|].
      apply list_elem_of_singleton in Ht as ->. reflexivity. }
  assert (H1 : handleInv (after (arpPlayNote (activeNotesForArp s !! currentArpIndex s)
                                   settings s))).
  { apply (handleInv_after s); [assumption| |assumption]. apply schedulesAfter_same.
    unfold arpPlayNote. destruct (activeNotesForArp s !! currentArpIndex s) as [n|].
    - apply playNote_scheduling.
    - destruct (ctx s); [destruct (mainGain s)|]; cbn; try reflexivity.
      apply resumeIfSuspended_scheduling. }
  pose proof (wf_arpPlayNote (activeNotesForArp s !! currentArpIndex s) settings s Hwf)
    as Hwf1.
  destruct (arpPlayNote _ _ _) as [s1|s1]; cbn [after] in *; [|exact H1].
  destruct (windowDefined _); cbn [after].
  - exact (Hsched _ s1 Hwf1).
  - apply (handleInv_after
             (snd (setTimeout (ArpNoteOff (activeNotesForArp s !! currentArpIndex s)
                                 settings) (60 / arpRate settings * 0.8 * 1000) s1))).
    + now apply wf_setTimeout.
    + split_and!; [reflexivity|cbn; lia|intros t Ht; left; exact Ht].
    + apply (handleInv_after s1); [assumption|apply schedulesAfter_setTimeout|assumption].
Qed.

Lemma handleInv_exec op s : wf s -> handleInv s -> handleInv (after (exec op s)).
Proof.
  intros Hwf H.
  destruct op as [|bend|note slide|note settings velocity initialSlide
                 |note settings immediate|settings|notes settings| |h|dt|st];
    cbn [exec after].
  - apply (handleInv_after s); [assumption| |assumption]. apply schedulesAfter_same.
    unfold initResume. now destruct (ctx s).
  - apply (handleInv_after s); [assumption|apply schedulesAfter_setPitchBend|assumption].
  - apply (handleInv_after s); [assumption| |assumption].
    apply schedulesAfter_same, updateNoteSlide_scheduling.
  - apply (handleInv_after s); [assumption| |assumption].
    apply schedulesAfter_same, playNote_scheduling.
  - apply (handleInv_after s); [assumption|apply schedulesAfter_stopNote|assumption].
  - apply (handleInv_after s); [assumption|apply schedulesAfter_updateGlobalParams|assumption].
  - unfold startArp. destruct (handleTruthy _); [exact H|].
    apply handleInv_tick; [now apply wf_set_activeNotesForArp | exact H].
  - now apply handleInv_stopArp.
  - unfold fire. destruct (List.find _ _) as [t|]; [|exact H].
    assert (Hcl : handleInv (clearTimeout h s)).
    { apply (handleInv_after s); [assumption|apply schedulesAfter_clearTimeout|assumption]. }
    pose proof (wf_clearTimeout h s Hwf) as Hwfc.
    destruct (timer_callback t) as [note entry|[note|] settings|settings];
      cbn [runCallback after].
    + apply (handleInv_after (clearTimeout h s));
        [assumption|apply schedulesAfter_teardown|assumption].
    + apply (handleInv_after (clearTimeout h s));
        [assumption|apply schedulesAfter_stopNote|assumption].
    + exact Hcl.
    + now apply handleInv_tick.
  - apply (handleInv_after s); [assumption| |assumption]. apply schedulesAfter_same.
    unfold clock. now destruct (ctx s).
  - apply (handleInv_after s); [assumption| |assumption]. apply schedulesAfter_same.
    unfold contextState. now destruct (ctx s).
Qed.

Lemma reachable_handleInv s : reachable s -> handleInv s.
Proof.
  intros (window & ops & ->).
  assert (G : forall s0, wf s0 -> handleInv s0 -> handleInv (run ops s0)).
  { induction ops as [|op ops IH]; intros s0 Hwf H; [exact H|].
    cbn. apply IH; [now apply wf_exec | now apply handleInv_exec]. }
  apply G; [apply wf_construct | discriminate].
Qed.

Lemma extends_arpStopped s s' : extends s s' -> arpStopped s -> arpStopped s'.
Proof.
  intros Hext [Hid Hno]. split; [|now apply (extends_noTick s)].
  destruct Hext as [Ha _]. unfold arpState in Ha. apply pair_equal_spec in Ha as [Ha _].
  apply pair_equal_spec in Ha as [Ha _]. congruence.
Qed.

Lemma arpStopped_exec op s : notStart op -> arpStopped s -> arpStopped (after (exec op s)).
Proof.
  intros Hop H. pose proof (extends_exec op s) as Hx.
  destruct op as [|bend|note slide|note settings velocity initialSlide
                 |note settings immediate|settings|notes settings| |h|dt|st];
    try (now apply (extends_arpStopped s)).
  - cbn. destruct H as [Hid Hno]. unfold stopArp. rewrite Hid. now split.
  - cbn [exec]. unfold fire. destruct (List.find _ _) as [t|] eqn:Hfind; [|exact H].
    apply find_some in Hfind as [Hin _]. apply list_elem_of_In in Hin.
    assert (Hcl : arpStopped (clearTimeout h s)).
    { destruct H as [Hid Hno]. split; [exact Hid | now apply noTick_clearTimeout]. }
    destruct H as [_ Hno]. unfold noTick in Hno. rewrite Forall_forall in Hno.
    specialize (Hno t Hin). unfold isTick in Hno.
    destruct (timer_callback t) as [note entry|[note|] settings|settings];
      cbn [runCallback after]; [| | |discriminate].
    + exact (extends_arpStopped _ _ (extends_teardown note entry _) Hcl).
    + exact (extends_arpStopped _ _ (extends_stopNote note settings false _) Hcl).
    + exact Hcl.
Qed.

Lemma stopArp_fields s :
  heap (stopArp s) = heap s /\ activeOscillators (stopArp s) = activeOscillators s
  /\ activeNotesForArp (stopArp s) = activeNotesForArp s
  /\ currentArpIndex (stopArp s) = 0.
Proof.
  unfold stopArp. destruct (arpTimer s); [destruct (handleTruthy _)|]; now split_and!.
Qed.

(** Clearing the timer of the handle takes the pending tick away, and
    nothing else. *)
Lemma clear_handle s id :
  reachable s -> arpTimer s = Some id ->
  timers (clearTimeout id s) = List.filter (fun t => negb (isTick t)) (timers s).
Proof.
  intros Hs Hid. pose proof (reachable_oneTick s Hs) as Hone.
  pose proof (reachable_handleInv s Hs id Hid) as [_ Hinv].
  unfold oneTick in Hone. rewrite Forall_forall in Hone.
  cbn. apply filter_ext_in. intros t Ht. apply list_elem_of_In in Ht. f_equal.
  destruct (Nat.eqb_spec (timer_id t) id) as [E|E].
  - symmetry. now apply Hinv.
  - destruct (isTick t) eqn:Tt; [|reflexivity].
    specialize (Hone t Ht Tt). congruence.
Qed.

Lemma noTick_filter s :
  noTick s -> List.filter (fun t => negb (isTick t)) (timers s) = timers s.
Proof.
  unfold noTick. induction 1 as [|t ts Ht _ IH]; cbn; [reflexivity|].
  now rewrite Ht, IH.
Qed.

Lemma handleTruthy_positive id : 0 < id -> handleTruthy (Some id) = true.
Proof. intros H. cbn. destruct (Nat.eqb_spec id 0); [lia | reflexivity]. Qed.

(** X13.  [stopArp] stops the loop for good.  It clears the handle, resets
    the index, keeps the sequence, the voices and the map, and removes the
    pending tick and nothing else from the timers (the note-off of the note
    that is sounding stays pending).  Until the next [startArp], whatever
    else is done and whichever timers fire, no tick is pending and the
    handle stays clear. *)
Theorem stopArp_stops_the_loop (s : AudioService) :
  reachable s ->
  let s' := stopArp s in
  arpTimer s' = None
  /\ currentArpIndex s' = 0
  /\ activeNotesForArp s' = activeNotesForArp s
  /\ heap s' = heap s /\ activeOscillators s' = activeOscillators s
  /\ timers s' = List.filter (fun t => negb (isTick t)) (timers s)
  /\ forall ops, Forall notStart ops ->
       arpTimer (run ops s') = None /\ noTick (run ops s').
Proof.
  intros Hs s'. pose proof (reachable_oneTick s Hs) as Hone.
  pose proof (reachable_wf s Hs) as Hwf.
  destruct (stopArp_fields s) as (Hh & Hm & Hseq & Hidx).
  assert (Hno : noTick s') by now apply oneTick_stopArp.
  assert (H : arpTimer s' = None
              /\ timers s' = List.filter (fun t => negb (isTick t)) (timers s)).
  { subst s'. unfold stopArp in *. destruct (arpTimer s) as [id|] eqn:E.
    - rewrite (handleTruthy_positive id (arpTimer_positive s id Hs E)) in *.
      split; [reflexivity|]. now apply clear_handle.
    - split; [exact E|]. cbn. symmetry. now apply noTick_filter. }
  destruct H as [Hid Ht].
  split_and!; try assumption.
  intros ops Hops.
  assert (H0 : arpStopped s') by now split.
  revert H0. generalize s'. induction Hops as [|op ops Hop _ IH]; intros s0 H0; [exact H0|].
  cbn. apply IH. now apply arpStopped_exec.
Qed.

Lemma stopArp_stops_the_loop_witness :
  arpTimer (stopArp arpStarted) = None
  /\ timers (stopArp arpStarted)
     = List.filter (fun t => negb (isTick t)) (timers arpStarted)
  /\ forall ops, Forall notStart ops ->
       arpTimer (run ops (stopArp arpStarted)) = None
       /\ noTick (run ops (stopArp arpStarted)).
Proof.
  destruct (stopArp_stops_the_loop arpStarted (proj1 arpStarted_fields))
    as (H1 & _ & _ & _ & _ & H2 & H3).
  split_and!; [exact H1|exact H2|exact H3].
Defined.

Lemma set_currentArpIndex_same s : set_currentArpIndex (currentArpIndex s) s = s.
Proof. now destruct s. Qed.

(** The pending tick of a running arpeggiator coming due. *)
Lemma fire_tick settings sequence index s id :
  arpRunning settings sequence index s -> arpTimer s = Some id ->
  fire id s = tick settings (clearTimeout id s).
Proof.
  intros (_ & _ & id' & Hid' & Hfind) Hid. rewrite Hid in Hid'. injection Hid' as <-.
  unfold fire. now rewrite Hfind.
Qed.

Lemma filter_idem {A : Type} (p : A -> bool) (l : list A) :
  List.filter p (List.filter p l) = List.filter p l.
Proof.
  induction l as [|a l IH]; cbn; [reflexivity|].
  destruct (p a) eqn:E; cbn; [rewrite E; now f_equal | exact IH].
Qed.

(** X14.  [startArp] with no notes.  On a stopped arpeggiator it stores the
    empty sequence, sets the index to 0 and schedules nothing; where the
    engine has its audio context the index was 0 already, so that the
    sequence is all that changes.  On a running one it replaces the
    sequence and returns; the tick that was pending then finds the sequence
    empty and stops the arpeggiator: handle cleared, index 0, no tick
    pending, voices and map untouched. *)
Theorem empty_sequence_stops_arpeggiator (settings : SynthSettings) (s : AudioService) :
  reachable s ->
  (arpTimer s = None ->
   startArp [] settings s
   = Returned (set_currentArpIndex 0 (set_activeNotesForArp [] s))
   /\ (is_Some (ctx s) ->
       startArp [] settings s = Returned (set_activeNotesForArp [] s)))
  /\ (forall running sequence index id,
        arpRunning running sequence index s -> arpTimer s = Some id ->
        let s1 := after (startArp [] settings s) in
        let s2 := after (fire id s1) in
        s1 = set_activeNotesForArp [] s
        /\ fire id s1 = Returned s2
        /\ arpTimer s2 = None /\ currentArpIndex s2 = 0 /\ noTick s2
        /\ timers s2 = List.filter (fun t => negb (isTick t)) (timers s)
        /\ heap s2 = heap s /\ activeOscillators s2 = activeOscillators s).
Proof.
  intros Hs. pose proof (reachable_wf s Hs) as Hwf. split.
  - intros Hidle.
    assert (E : startArp [] settings s
                = Returned (set_currentArpIndex 0 (set_activeNotesForArp [] s))).
    { unfold startArp. cbn [arpTimer set_activeNotesForArp]. rewrite Hidle.
      cbn [handleTruthy]. unfold tick.
      cbn [activeNotesForArp set_activeNotesForArp length Nat.eqb].
      unfold stopArp. cbn [arpTimer set_activeNotesForArp]. rewrite Hidle.
      reflexivity. }
    split; [exact E|]. intros Hctx. rewrite E. f_equal.
    rewrite <- (wf_idle s Hwf Hidle Hctx) at 1.
    apply (set_currentArpIndex_same (set_activeNotesForArp [] s)).
  - intros running sequence index id Hrun Hid s1 s2.
    pose proof (arpTimer_positive s id Hs Hid) as Hpos.
    assert (E1 : s1 = set_activeNotesForArp [] s).
    { subst s1. unfold startArp. cbn [arpTimer set_activeNotesForArp]. rewrite Hid.
      now rewrite (handleTruthy_positive id Hpos). }
    assert (Hrun1 : arpRunning running [] index s1).
    { rewrite E1. destruct Hrun as (_ & Hidx & Hrest). now split_and!. }
    assert (Hs1 : reachable s1).
    { apply (reachable_step (StartArp [] settings) s Hs). }
    assert (Hid1 : arpTimer s1 = Some id) by now rewrite E1.
    assert (E2 : fire id s1
                 = Returned (set_currentArpIndex 0 (set_arpTimer None
                                                      (clearTimeout id (clearTimeout id s1))))).
    { rewrite (fire_tick running [] index s1 id Hrun1 Hid1). unfold tick.
      replace (activeNotesForArp (clearTimeout id s1)) with (@nil string)
        by now rewrite E1.
      cbn [length Nat.eqb]. unfold stopArp.
      cbn [arpTimer clearTimeout set_timers]. rewrite Hid1.
      now rewrite (handleTruthy_positive id Hpos). }
    subst s2. rewrite E2. cbn [after].
    split_and!; try reflexivity; try assumption.
    + unfold noTick. cbn. apply filter_Forall.
      pose proof (oneTick_clear_handle id s1 (reachable_oneTick s1 Hs1) Hid1) as H.
      exact H.
    + cbn [timers set_currentArpIndex set_arpTimer].
      pose proof (clear_handle s1 id Hs1 Hid1) as H1.
      assert (H2 : timers (clearTimeout id (clearTimeout id s1))
                   = timers (clearTimeout id s1)).
      { cbn. apply filter_idem. }
      rewrite H2, H1. now rewrite E1.
    + now rewrite E1.
    + now rewrite E1.
Qed.

Lemma empty_sequence_stops_arpeggiator_witness :
  let s1 := after (startArp [] INITIAL_SETTINGS arpStarted) in
  let s2 := after (fire 2 s1) in
  s1 = set_activeNotesForArp [] arpStarted
  /\ fire 2 s1 = Returned s2
  /\ arpTimer s2 = None /\ noTick s2.
Proof.
  intros s1 s2.
  destruct arpStarted_fields as (Hr & Hrun & Hh & _).
  destruct (empty_sequence_stops_arpeggiator INITIAL_SETTINGS arpStarted Hr) as [_ H].
  destruct (H INITIAL_SETTINGS triad 1 2 Hrun Hh) as (H1 & H2 & H3 & _ & H4 & _).
  split_and!; [exact H1|exact H2|exact H3|exact H4].
Defined.

(** Where there is no [window] the index need not be 0 when the handle is
    clear: a start on two notes raises with the index moved to 1, and an
    empty start then resets it. *)
Lemma empty_start_resets_index :
  let s := after (startArp ["C4"; "E4"] INITIAL_SETTINGS headless) in
  reachable s /\ arpTimer s = None /\ currentArpIndex s = 1
  /\ startArp [] INITIAL_SETTINGS s
     = Returned (set_currentArpIndex 0 (set_activeNotesForArp [] s))
  /\ currentArpIndex (set_activeNotesForArp [] s) = 1.
Proof.
  intros s.
  assert (Hr : reachable s).
  { apply reachable_startArp. now exists None, []. }
  assert (E : startArp ["C4"; "E4"] INITIAL_SETTINGS headless
              = Threw
                  (set_currentArpIndex 1
                     (snd (setTimeout (ArpNoteOff (Some "C4") INITIAL_SETTINGS)
                             (60 / arpRate INITIAL_SETTINGS * 0.8 * 1000)
                             (set_activeNotesForArp ["C4"; "E4"] headless))))).
  { change (startArp ["C4"; "E4"] INITIAL_SETTINGS headless)
      with (tick INITIAL_SETTINGS (set_activeNotesForArp (sortNotes ["C4"; "E4"]) headless)).
    change (sortNotes ["C4"; "E4"]) with ["C4"; "E4"].
    now rewrite tick_headless. }
  assert (Hid : arpTimer s = None) by (unfold s; now rewrite E).
  assert (Hidx : currentArpIndex s = 1) by (unfold s; now rewrite E).
  split_and!; [exact Hr|exact Hid|exact Hidx| |exact Hidx].
  unfold startArp. cbn [arpTimer set_activeNotesForArp]. rewrite Hid.
  cbn [handleTruthy]. unfold tick.
  cbn [activeNotesForArp set_activeNotesForArp length Nat.eqb].
  unfold stopArp. cbn [arpTimer set_activeNotesForArp]. now rewrite Hid.
Qed.

(** *** The engine with and without a [window] *)

















(** *** How a tick of the running loop can end *)

(** The pending tick comes due with the index past the end of a non-empty
    sequence. *)
Lemma stale_tick settings sequence index id s :
  reachable s ->
  arpRunning settings sequence index s -> arpTimer s = Some id ->
  sequence <> [] -> length sequence <= index ->
  is_Some (ctx s) -> is_Some (mainGain s) ->
  exists s',
    fire id s = Threw s'
    /\ arpTimer s' = Some id
    /\ noTick s'
    /\ timers s' = List.filter (fun t => negb (isTick t)) (timers s)
    /\ heap s' = heap s /\ activeOscillators s' = activeOscillators s
    /\ currentArpIndex s' = index
    /\ forall notes settings',
         startArp notes settings' s' = Returned (set_activeNotesForArp (sortNotes notes) s').
Proof.
  intros Hs Hrun Hid Hne Hstale [c Hc] [g Hg].
  pose proof (arpTimer_positive s id Hs Hid) as Hpos.
  pose proof Hrun as (Hseq & Hidx & _).
  exists (resumeIfSuspended (clearTimeout id s)).
  assert (E : fire id s = Threw (resumeIfSuspended (clearTimeout id s))).
  { rewrite (fire_tick settings sequence index s id Hrun Hid). unfold tick.
    cbn [activeNotesForArp currentArpIndex clearTimeout set_timers].
    rewrite Hseq, Hidx.
    destruct (Nat.eqb_spec (length sequence) 0) as [E0|_].
    { destruct sequence; [congruence | discriminate]. }
    rewrite (proj2 (lookup_ge_None sequence index) Hstale).
    unfold arpPlayNote. cbn [ctx mainGain clearTimeout set_timers]. now rewrite Hc, Hg. }
  pose proof (resumeIfSuspended_scheduling (clearTimeout id s)) as Hsched.
  unfold scheduling in Hsched.
  apply pair_equal_spec in Hsched as [Hsched _].
  apply pair_equal_spec in Hsched as [Hsched Htimers].
  apply pair_equal_spec in Hsched as [Hsched Hindex].
  apply pair_equal_spec in Hsched as [Hhandle _].
  destruct (resumeIfSuspended_voices (clearTimeout id s)) as (Hheap & Hmap & _).
  assert (Hid' : arpTimer (resumeIfSuspended (clearTimeout id s)) = Some id).
  { rewrite Hhandle. exact Hid. }
  split_and!; try assumption.
  - unfold noTick. rewrite Htimers.
    exact (oneTick_clear_handle id s (reachable_oneTick s Hs) Hid).
  - rewrite Htimers. now apply clear_handle.
  - now rewrite Hindex.
  - intros notes settings'. unfold startArp.
    cbn [arpTimer set_activeNotesForArp]. rewrite Hid'.
    now rewrite (handleTruthy_positive id Hpos).
Qed.




(** X15.  A tick whose index is past the end of a non-empty sequence (the
    sequence was replaced by a shorter one while the arpeggiator ran)
    raises, [playNote] being handed [undefined].  No voice is allocated and
    no next tick is scheduled, but [arpTimer] keeps the handle of the tick
    that fired: from then on every [startArp] only stores its notes and
    returns, with no tick pending. *)
Theorem stale_index_raises_and_halts (settings : SynthSettings) (sequence : list string)
  (index id : nat) (s : AudioService) :
  reachable s ->
  arpRunning settings sequence index s -> arpTimer s = Some id ->
  sequence <> [] -> length sequence <= index ->
  is_Some (ctx s) -> is_Some (mainGain s) ->
  exists s',
    fire id s = Threw s'
    /\ arpTimer s' = Some id
    /\ noTick s'
    /\ timers s' = List.filter (fun t => negb (isTick t)) (timers s)
    /\ heap s' = heap s /\ activeOscillators s' = activeOscillators s
    /\ currentArpIndex s' = index
    /\ forall notes settings',
         startArp notes settings' s' = Returned (set_activeNotesForArp (sortNotes notes) s').
Proof.
  intros Hs Hrun Hid Hne Hstale Hc Hg.
  now apply (stale_tick settings sequence index id s).
Qed.

Lemma stale_index_raises_and_halts_witness :
  let s := after (startArp ["C4"] INITIAL_SETTINGS arpStarted) in
  exists s',
    fire 2 s = Threw s'
    /\ arpTimer s' = Some 2
    /\ noTick s'
    /\ forall notes settings',
         startArp notes settings' s' = Returned (set_activeNotesForArp (sortNotes notes) s').
Proof.
  intros s.
  destruct arpStarted_fields as (Hr & Hrun & Hh & _ & Hc & Hg).
  destruct (startArp_while_running ["C4"] INITIAL_SETTINGS INITIAL_SETTINGS triad 1 2
              arpStarted Hrun Hh eq_refl) as (_ & Hrun' & Hh' & Hc' & Hg').
  destruct (stale_index_raises_and_halts INITIAL_SETTINGS (sortNotes ["C4"]) 1 2 s)
    as (s' & H1 & H2 & H3 & _ & _ & _ & _ & H4).
  - exact (reachable_startArp ["C4"] INITIAL_SETTINGS arpStarted Hr).
  - exact Hrun'.
  - exact Hh'.
  - discriminate.
  - cbn. lia.
  - unfold s. rewrite Hc'. exact Hc.
  - unfold s. rewrite Hg'. exact Hg.
  - exists s'. split_and!; [exact H1|exact H2|exact H3|exact H4].
Defined.






(** Ascending by code units is not ascending by pitch. *)
Lemma sortNotes_not_by_pitch :
  sortNotes ["C4"; "A4"] = ["A4"; "C4"] /\ sortNotes ["C4"; "C#4"] = ["C#4"; "C4"].
Proof. split; reflexivity. Qed.




(** ** The gesture effect and the XY pad: what they write *)

Lemma clamp_bounds lo hi x : (lo <= hi)%R -> (lo <= Rmax lo (Rmin hi x) <= hi)%R.
Proof.
  intros H. split; [apply Rmax_l|]. apply Rmax_lub; [assumption | apply Rmin_l].
Qed.

Lemma applyRoute_frame g next r : gestureFrame (applyRoute g next r) = gestureFrame next.
Proof.
  unfold applyRoute. destruct (negb _); [reflexivity|]. now destruct (destination r).
Qed.

Lemma applyRoute_sustain g next r : sustain (applyRoute g next r) = sustain next.
Proof.
  unfold applyRoute. destruct (negb _); [reflexivity|]. now destruct (destination r).
Qed.

(** X16.  What one tick of the gesture effect writes.  The sustain becomes
    whether an active hand shows the pincer; patch, envelope, detune, LFO
    rate, delay time, arpeggiator, octave, pitch bend, glide, mono mode,
    matrix, key slide target and the gesture switch are never written; a
    destination no gesture route leads to keeps its setting; and with the
    gesture switch off the effect changes nothing. *)
Theorem gesture_tick_frame (g : GestureState) (prev : SynthSettings) :
  let next := gestureUpdate g prev in
  sustain next
  = (active (leftHand g) && isPincer (leftHand g))
    || (active (rightHand g) && isPincer (rightHand g))
  /\ gestureFrame next = gestureFrame prev
  /\ (forall d,
        Forall (fun r => gestureSourced r = true -> destination r <> d) (modMatrix prev) ->
        destinationSetting d next = destinationSetting d prev)
  /\ forall settings, gestureControlEnabled settings = false ->
       gestureEffect (Some g) settings prev = prev.
Proof.
  cbn zeta. unfold gestureUpdate.
  set (next0 := assign_sustain _ prev).
  assert (G : forall rs n,
             sustain (fold_left (applyRoute g) rs n) = sustain n
             /\ gestureFrame (fold_left (applyRoute g) rs n) = gestureFrame n).
  { induction rs as [|r rs IH]; intros n; [now split|]. cbn [fold_left].
    destruct (IH (applyRoute g n r)) as [-> ->].
    now rewrite applyRoute_sustain, applyRoute_frame. }
  destruct (G (modMatrix prev) next0) as [-> ->].
  split_and!; [reflexivity|reflexivity| |].
  - intros d Hd. rewrite (routes_elsewhere g d (modMatrix prev) Hd next0).
    now destruct d.
  - intros settings Hoff. unfold gestureEffect. now rewrite Hoff.
Qed.

Lemma applyRoute_range g next r d :
  destinationSetting d (applyRoute g next r) = destinationSetting d next
  \/ within (knobRange d) (destinationSetting d (applyRoute g next r)).
Proof.
  unfold applyRoute. destruct (negb _); [now left|].
  destruct (destination r), d; cbn; try (now left); right; apply clamp_bounds; lra.
Qed.

(** X17.  A setting the gesture effect writes lands in the range of its knob
    (cutoff 50 to 10000, resonance 0.1 to 10, reverb 0 to 1, delay feedback
    0 to 0.9), whatever the hand positions and the amounts of the routes;
    so a tick never takes a setting out of the range of its knob. *)
Theorem gesture_tick_ranges (g : GestureState) (prev : SynthSettings)
  (d : ModDestination) :
  let next := gestureUpdate g prev in
  (destinationSetting d next = destinationSetting d prev
   \/ within (knobRange d) (destinationSetting d next))
  /\ (within (knobRange d) (destinationSetting d prev) ->
      within (knobRange d) (destinationSetting d next)).
Proof.
  cbn zeta. unfold gestureUpdate. set (next0 := assign_sustain _ prev).
  assert (E0 : destinationSetting d next0 = destinationSetting d prev) by now destruct d.
  assert (G : forall rs n,
             destinationSetting d (fold_left (applyRoute g) rs n) = destinationSetting d n
             \/ within (knobRange d) (destinationSetting d (fold_left (applyRoute g) rs n))).
  { induction rs as [|r rs IH]; intros n; [now left|]. cbn [fold_left].
    destruct (IH (applyRoute g n r)) as [E|H]; [|now right].
    rewrite E. apply applyRoute_range. }
  destruct (G (modMatrix prev) next0) as [E|H].
  - rewrite E, E0. split; [now left | trivial].
  - split; [now right | intros _; exact H].
Qed.

Lemma applyTarget_written t val s :
  targetSetting t (applyTarget t val s) = scaled (targetRange t) val.
Proof. destruct t; cbn; try reflexivity; f_equal; lra. Qed.

Lemma applyTarget_other t t' val s :
  t <> t' -> targetSetting t' (applyTarget t val s) = targetSetting t' s.
Proof. destruct t, t'; cbn; congruence. Qed.

Lemma applyTarget_frame t val s : padFrame (applyTarget t val s) = padFrame s.
Proof. now destruct t. Qed.

Lemma scaled_within range val :
  (0 <= val <= 1)%R ->
  match range with Some (lo, hi) => (lo <= hi)%R | None => True end ->
  within range (scaled range val).
Proof. intros Hv. destruct range as [[lo hi]|]; cbn; [nra | trivial]. Qed.

(** X18.  A pointer anywhere over or outside an XY pad of positive size
    gives a value with both coordinates between 0 and 1.  The update stores
    that value, leaves the two targets and every setting that is not one of
    them as they were, and writes the target of y, and that of x when it is
    another one, as the coordinate mapped linearly onto the range of the
    target's knob; when both axes have the same target the y coordinate
    wins.  No setting leaves the range of its knob. *)
Theorem xy_pad_writes_in_range (settings prev : AppSettings) (rect : DOMRect)
  (clientX clientY : R) :
  (0 < rect_width rect)%R -> (0 < rect_height rect)%R ->
  let val := updateValue rect clientX clientY in
  let next := onValueChange settings val prev in
  let tx := xyPadXTarget settings in
  let ty := xyPadYTarget settings in
  (0 <= pad_x val <= 1)%R /\ (0 <= pad_y val <= 1)%R
  /\ xyPadValue next = val
  /\ (xyPadXTarget next, xyPadYTarget next) = (xyPadXTarget prev, xyPadYTarget prev)
  /\ padFrame (synth next) = padFrame (synth prev)
  /\ targetSetting ty (synth next) = scaled (targetRange ty) (pad_y val)
  /\ (tx <> ty -> targetSetting tx (synth next) = scaled (targetRange tx) (pad_x val))
  /\ (forall t, t <> tx -> t <> ty ->
        targetSetting t (synth next) = targetSetting t (synth prev))
  /\ forall t, within (targetRange t) (targetSetting t (synth prev)) ->
               within (targetRange t) (targetSetting t (synth next)).
Proof.
  intros _ _ val next tx ty.
  assert (Hx : (0 <= pad_x val <= 1)%R) by (apply clamp_bounds; lra).
  assert (Hy : (0 <= pad_y val <= 1)%R) by (apply clamp_bounds; lra).
  subst next. unfold onValueChange, handleXYChange. cbn [synth xyPadValue xyPadXTarget xyPadYTarget].
  fold tx ty.
  assert (Hother : forall t, t <> tx -> t <> ty ->
            targetSetting t (applyTarget ty (pad_y val) (applyTarget tx (pad_x val) (synth prev)))
            = targetSetting t (synth prev)).
  { intros t H1 H2. rewrite !applyTarget_other by congruence. reflexivity. }
  split_and!.
  - apply Hx.
  - apply Hx.
  - apply Hy.
  - apply Hy.
  - reflexivity.
  - reflexivity.
  - now rewrite !applyTarget_frame.
  - apply applyTarget_written.
  - intros Hne. rewrite applyTarget_other by congruence. apply applyTarget_written.
  - exact Hother.
  - intros t Hprev. destruct (decide (t = ty)) as [->|Hty].
    { rewrite applyTarget_written. apply scaled_within; [assumption|].
      destruct ty; cbn; trivial; lra. }
    rewrite applyTarget_other by congruence.
    destruct (decide (t = tx)) as [->|Htx].
    { rewrite applyTarget_written. apply scaled_within; [assumption|].
      destruct tx; cbn; trivial; lra. }
    now rewrite applyTarget_other by congruence.
Qed.

Lemma xy_pad_writes_in_range_witness :
  let settings :=
    {| synth := INITIAL_SETTINGS; xyPadXTarget := XY_Cutoff; xyPadYTarget := XY_Resonance;
       xyPadValue := {| pad_x := 0.5; pad_y := 0.5 |} |} in
  let rect := {| rect_left := 0; rect_top := 0; rect_width := 200; rect_height := 100 |} in
  let val := updateValue rect 50 25 in
  let next := onValueChange settings val settings in
  (0 <= pad_x val <= 1)%R /\ (0 <= pad_y val <= 1)%R
  /\ xyPadValue next = val
  /\ targetSetting XY_Resonance (synth next) = scaled (targetRange XY_Resonance) (pad_y val)
  /\ targetSetting XY_Cutoff (synth next) = scaled (targetRange XY_Cutoff) (pad_x val).
Proof.
  intros settings rect val next.
  destruct (xy_pad_writes_in_range settings settings rect 50 25)
    as (H & H0 & H1 & _ & _ & H2 & Hx & _).
  - cbn. lra.
  - cbn. lra.
  - split_and!; [apply H|apply H|apply H0|apply H0|exact H1|exact H2|].
    apply Hx. discriminate.
Defined.

(** X19.  The page buttons: from a page between 0 and 7 both lead to a page
    between 0 and 7, each undoes the other, next wraps from the last page
    to the first and previous from the first to the last, and eight steps
    forward come back to the same page. *)
Theorem page_navigation_wraps (p : Z) :
  (0 <= p < totalPages)%Z ->
  (0 <= nextPage p < totalPages)%Z
  /\ (0 <= prevPage p < totalPages)%Z
  /\ prevPage (nextPage p) = p
  /\ nextPage (prevPage p) = p
  /\ nextPage (totalPages - 1) = 0%Z
  /\ prevPage 0 = (totalPages - 1)%Z
  /\ Nat.iter 8 nextPage p = p.
Proof.
  unfold totalPages. intros H.
  assert (Hc : In p [0; 1; 2; 3; 4; 5; 6; 7]%Z) by (cbn; lia).
  cbn in Hc. intuition (subst; now vm_compute).
Qed.

Lemma page_navigation_wraps_witness :
  nextPage (totalPages - 1) = 0%Z /\ prevPage 0 = (totalPages - 1)%Z
  /\ prevPage (nextPage 7) = 7%Z.
Proof.
  destruct (page_navigation_wraps 7) as (_ & _ & H1 & _ & H2 & H3 & _).
  - unfold totalPages. lia.
  - split_and!; [exact H2|exact H3|exact H1].
Defined.

(** ** The keyboard *)

Lemma indexOf_lookup (l : list string) (k : nat) (x : string) :
  NoDup l -> l !! k = Some x -> indexOf l x = Some k.
Proof.
  revert k. induction l as [|y l IH]; intros k Hnd Hk; [discriminate|].
  apply NoDup_cons in Hnd as [Hy Hnd]. destruct k as [|k]; cbn in *.
  - injection Hk as ->. now rewrite String.eqb_refl.
  - destruct (String.eqb_spec y x) as [->|_].
    + exfalso. apply Hy. eapply list_elem_of_lookup_2, Hk.
    + now rewrite (IH k).
Qed.

Lemma indexOf_absent (l : list string) (x : string) : x ∉ l -> indexOf l x = None.
Proof.
  induction l as [|y l IH]; [reflexivity|]. rewrite not_elem_of_cons. intros [Hne Hx]. cbn.
  destruct (String.eqb_spec y x); [congruence|]. now rewrite IH.
Qed.

Lemma tableNames_truthy name : name ∈ tableNames -> strTruthy name = true.
Proof.
  intros H. apply tableNames_elem in H as (n & o & Hn & _ & ->).
  unfold NOTES in Hn.
  repeat (apply elem_of_cons in Hn as [->|Hn]; [reflexivity|]). inversion Hn.
Qed.

(** The name [n] places further in the table, or the root past its end. *)
Lemma chord_member k n root :
  objectKeys FREQUENCIES !! k = Some root ->
  let x := orElse (objectKeys FREQUENCIES !! (k + n)) root in
  (k + n < 108 -> tableNames !! (k + n) = Some x)
  /\ (108 <= k + n -> x = root).
Proof.
  intros Hk x. subst x. unfold objectKeys. rewrite FREQUENCIES_keys. split.
  - intros Hlt. destruct (tableNames !! (k + n)) as [name|] eqn:Hn.
    2:{ apply lookup_ge_None in Hn. change (length tableNames) with 108 in Hn. lia. }
    cbn. rewrite tableNames_truthy; [reflexivity|]. eapply list_elem_of_lookup_2, Hn.
  - intros Hge. rewrite (proj2 (lookup_ge_None tableNames (k + n))); [reflexivity|].
    change (length tableNames) with 108. lia.
Qed.

(** X20.  [getChordNotes].  Without chord mode, or for a name that is not in
    the frequency table, the chord is the note alone.  For the note at
    place [k] of the table, whose names are in insertion order the twelve
    notes of octave 0, then those of octave 1, and so on to octave 8, it
    is the note, the name four places further and the name seven places
    further; at the top of the table, where there is no such place, the
    root stands in for the missing name. *)
Theorem chord_is_major_triad (root : string) :
  getChordNotes false root = [root]
  /\ (property FREQUENCIES root = None -> getChordNotes true root = [root])
  /\ objectKeys FREQUENCIES = tableNames
  /\ forall k,
       objectKeys FREQUENCIES !! k = Some root ->
       exists third fifth,
         getChordNotes true root = [root; third; fifth]
         /\ (k + 4 < 108 -> objectKeys FREQUENCIES !! (k + 4) = Some third)
         /\ (108 <= k + 4 -> third = root)
         /\ (k + 7 < 108 -> objectKeys FREQUENCIES !! (k + 7) = Some fifth)
         /\ (108 <= k + 7 -> fifth = root).
Proof.
  split; [reflexivity|]. split; [|split; [reflexivity|]].
  - intros Hnone. unfold getChordNotes. cbn [negb].
    rewrite indexOf_absent; [reflexivity|]. now apply (get_None_keys FREQUENCIES).
  - intros k Hk. unfold getChordNotes. cbn [negb].
    rewrite (indexOf_lookup _ k root).
    2:{ unfold objectKeys. rewrite FREQUENCIES_keys. apply tableNames_NoDup. }
    2:{ exact Hk. }
    destruct (chord_member k 4 root Hk) as [H4 H4'].
    destruct (chord_member k 7 root Hk) as [H7 H7'].
    eexists _, _. split; [reflexivity|]. now split_and!.
Qed.

(** The chord on C4 is C4, E4 and G4; on A8 the third and the fifth fall
    past the end of the table, and the chord is A8 three times. *)
Lemma chord_is_major_triad_witness :
  getChordNotes true "C4" = ["C4"; "E4"; "G4"]
  /\ getChordNotes true "A8" = ["A8"; "A8"; "A8"].
Proof.
  destruct (chord_is_major_triad "C4") as (_ & _ & _ & H).
  destruct (H 48 eq_refl) as (third & fifth & E & H3 & _ & H5 & _).
  specialize (H3 ltac:(lia)). specialize (H5 ltac:(lia)).
  injection H3 as <-. injection H5 as <-.
  destruct (chord_is_major_triad "A8") as (_ & _ & _ & H').
  destruct (H' 105 eq_refl) as (third' & fifth' & E' & _ & H3' & _ & H5').
  rewrite (H3' ltac:(lia)), (H5' ltac:(lia)) in E'.
  split; [exact E|exact E'].
Defined.

Lemma startOne_fold settings slide notes k :
  exists extra,
    activeNotes (fold_left (startOne settings slide) notes k) = activeNotes k ++ extra
    /\ (forall x, x ∈ extra <-> x ∈ notes /\ x ∉ activeNotes k)
    /\ activeNotesRef (fold_left (startOne settings slide) notes k) = activeNotesRef k
    /\ engine (fold_left (startOne settings slide) notes k)
       = if negb (arpEnabled settings)
         then fold_left (fun s n => playNote n settings 0.4 slide s) notes (engine k)
         else engine k.
Proof.
  revert k. induction notes as [|n notes IH]; intros k.
  - exists []. cbn. rewrite app_nil_r. split_and!; try reflexivity.
    + intros x. split; [inversion 1 | intros [H _]; inversion H].
    + now destruct (negb _).
  - cbn [fold_left]. destruct (IH (startOne settings slide k n)) as (extra & E & Hx & Hr & He).
    cbn [activeNotes startOne activeNotesRef engine] in E, Hx, Hr, He.
    rewrite E, Hr, He. unfold StringSet.add, StringSet.has in *.
    case_bool_decide as Hn.
    + exists extra. split_and!; [reflexivity| |reflexivity|now destruct (negb _)].
      intros x. rewrite Hx, elem_of_cons. split; [tauto|].
      intros [[->|H] Hnot]; [contradiction | tauto].
    + exists (n :: extra). rewrite <- app_assoc. split_and!;
        [reflexivity| |reflexivity|now destruct (negb _)].
      intros x. rewrite !elem_of_cons, Hx, elem_of_app, list_elem_of_singleton.
      split.
      * intros [->|[H1 H2]]; [tauto|]. split; [tauto|]. intros H3. apply H2. now left.
      * intros [[->|H1] H2]; [now left|].
        destruct (decide (x = n)) as [->|Hne]; [now left|]. right. split; [assumption|].
        intros [H|H]; [contradiction | congruence].
Qed.

Lemma endOne_fold settings notes k :
  activeNotes (fold_left (endOne settings) notes k)
  = List.filter (fun y => negb (bool_decide (y ∈ notes))) (activeNotes k)
  /\ activeNotesRef (fold_left (endOne settings) notes k) = activeNotesRef k
  /\ engine (fold_left (endOne settings) notes k)
     = if negb (arpEnabled settings)
       then fold_left (fun s n => stopNote n settings false s) notes (engine k)
       else engine k.
Proof.
  revert k. induction notes as [|n notes IH]; intros k.
  - cbn. split_and!; [|reflexivity|now destruct (negb _)].
    induction (activeNotes k) as [|y l IHl]; [reflexivity|]. cbn.
    rewrite bool_decide_eq_false_2 by inversion 1. cbn. now f_equal.
  - cbn [fold_left]. destruct (IH (endOne settings k n)) as (E & Hr & He).
    cbn [activeNotes endOne activeNotesRef engine] in E, Hr, He.
    rewrite E, Hr, He. split_and!; [|reflexivity|now destruct (negb _)].
    unfold StringSet.delete. clear.
    induction (activeNotes k) as [|y l IHl]; [reflexivity|]. cbn.
    destruct (String.eqb_spec y n) as [->|Hne]; cbn.
    + rewrite bool_decide_eq_true_2 by left. cbn. exact IHl.
    + destruct (bool_decide (y ∈ notes)) eqn:Hy.
      * apply bool_decide_eq_true in Hy. rewrite bool_decide_eq_true_2 by now right.
        cbn. exact IHl.
      * apply bool_decide_eq_false in Hy. rewrite bool_decide_eq_false_2.
        -- cbn. now f_equal.
        -- rewrite elem_of_cons. intros [?|?]; congruence.
Qed.

Lemma filter_all {A : Type} (p : A -> bool) (l : list A) :
  Forall (fun x => p x = true) l -> List.filter p l = l.
Proof. induction 1 as [|x l Hx _ IH]; cbn; [reflexivity|]. now rewrite Hx, IH. Qed.

Lemma filter_none {A : Type} (p : A -> bool) (l : list A) :
  Forall (fun x => p x = false) l -> List.filter p l = [].
Proof. induction 1 as [|x l Hx _ IH]; cbn; [reflexivity|]. now rewrite Hx. Qed.

(** A name of the table, shifted, is no name that objects inherit. *)
Lemma tableName_not_inherited name shift :
  name ∈ tableNames -> indexObject FREQUENCIES (shiftedNote name shift) <> Inherited.
Proof.
  intros H. apply tableNames_elem in H as (n & o & Hn & Ho & ->).
  apply list_elem_of_lookup_1 in Hn as [i Hi].
  rewrite (shiftedNote_table i n o shift Hi Ho). intros E.
  apply indexObject_inherited in E as [_ E]. exact (note_not_inherited i n _ Hi E).
Qed.

(** The notes of a chord are the root and names of the table. *)
Lemma chord_notes chordMode note n :
  n ∈ getChordNotes chordMode note -> n = note \/ n ∈ tableNames.
Proof.
  unfold getChordNotes. destruct (negb chordMode).
  { intros H. apply list_elem_of_singleton in H. now left. }
  destruct (indexOf _ _) as [k|].
  2:{ intros H. apply list_elem_of_singleton in H. now left. }
  assert (Hmember : forall m, orElse (objectKeys FREQUENCIES !! m) note = note
                              \/ orElse (objectKeys FREQUENCIES !! m) note ∈ tableNames).
  { intros m. unfold orElse. destruct (objectKeys FREQUENCIES !! m) as [x|] eqn:Hx;
      [|now left]. destruct (strTruthy x); [|now left]. right.
    unfold objectKeys in Hx. rewrite FREQUENCIES_keys in Hx.
    eapply list_elem_of_lookup_2, Hx. }
  intros H. apply elem_of_cons in H as [->|H]; [now left|].
  apply elem_of_cons in H as [->|H]; [apply Hmember|].
  apply list_elem_of_singleton in H as ->. apply Hmember.
Qed.

(** Where [playNote] returns on every note, the updater is the loop of
    [startOne]. *)
Lemma startNotes_returns settings slide notes k :
  arpEnabled settings = true
  \/ ctx (engine k) = None \/ mainGain (engine k) = None
  \/ Forall (fun n => indexObject FREQUENCIES (shiftedNote n (octave settings))
                      <> Inherited) notes ->
  startNotes settings slide notes k = Handled (fold_left (startOne settings slide) notes k).
Proof.
  revert k. induction notes as [|n notes IH]; intros k H; [reflexivity|].
  cbn [startNotes fold_left].
  destruct (arpEnabled settings) eqn:Harp; cbn [negb].
  { apply IH. now left. }
  assert (E : playNoteCall n settings 0.4 slide (engine k)
              = Returned (playNote n settings 0.4 slide (engine k))
              /\ (ctx (engine k) = None \/ mainGain (engine k) = None ->
                  playNote n settings 0.4 slide (engine k) = engine k)).
  { destruct H as [H|[H|[H|H]]]; [discriminate| | |].
    - unfold playNote, playNoteCall. rewrite H. now split.
    - unfold playNote, playNoteCall. rewrite H. now destruct (ctx (engine k)).
    - apply Forall_cons in H as [H _]. split; [now apply playNoteCall_returns|].
      intros [Hc|Hg]; unfold playNote, playNoteCall; [now rewrite Hc|].
      rewrite Hg. now destruct (ctx (engine k)). }
  destruct E as [E Hsame]. rewrite E.
  assert (Hone : startOne settings slide k n
                 = {| activeNotes := StringSet.add (activeNotes k) n;
                      activeNotesRef := activeNotesRef k;
                      engine := playNote n settings 0.4 slide (engine k) |}).
  { unfold startOne. now rewrite Harp. }
  rewrite <- Hone. apply IH.
  destruct H as [H|[H|[H|H]]]; [discriminate| | |].
  - right. left. rewrite Hone. cbn. rewrite Hsame; auto.
  - right. right. left. rewrite Hone. cbn. rewrite Hsame; auto.
  - right. right. right. now apply Forall_cons in H as [_ H].
Qed.

Lemma startNotes_named settings slide notes k :
  startNotes settings slide notes k <> NotAName.
Proof.
  revert k. induction notes as [|n notes IH]; intros k; [discriminate|].
  cbn [startNotes]. destruct (negb _); [|apply IH].
  destruct (playNoteCall _ _ _ _ _); [apply IH|discriminate].
Qed.

(** X21.  The note handlers of the keyboard.  [handleNoteStart] runs to
    its end when the arpeggiator is enabled, when the engine has no audio
    context or no main gain, or when the shifted name of the note is not
    one that every object inherits.  After it the active notes are those
    there were and the notes of the chord; after [handleNoteEnd] on the
    same key they are those there were less the notes of the chord, so a
    key that was pressed when none of its chord notes was active leaves
    the set as it found it.  With the arpeggiator enabled neither touches
    the engine; otherwise the first plays each note of the chord in order
    with velocity 0.4 and the second stops each of them, without
    [immediate].  In the remaining case the chord is the note alone,
    [playNote] raises on it, and no set of active notes comes back. *)
Theorem keyboard_note_handlers (settings : SynthSettings) (chordMode : bool)
  (note : string) (slide : R) (k : Keyboard) :
  let chord := getChordNotes chordMode note in
  (arpEnabled settings = true
   \/ ctx (engine k) = None \/ mainGain (engine k) = None
   \/ indexObject FREQUENCIES (shiftedNote note (octave settings)) <> Inherited ->
   exists started,
     handleNoteStart settings chordMode note slide k = Handled started
     /\ let ended := handleNoteEnd settings chordMode note started in
        (forall n, n ∈ activeNotes started <-> n ∈ activeNotes k \/ n ∈ chord)
        /\ (forall n, n ∈ activeNotes ended <-> n ∈ activeNotes k /\ n ∉ chord)
        /\ ((forall n, n ∈ chord -> n ∉ activeNotes k) ->
            activeNotes ended = activeNotes k)
        /\ (arpEnabled settings = true ->
            engine started = engine k /\ engine ended = engine k)
        /\ (arpEnabled settings = false ->
            engine started
            = fold_left (fun s n => playNote n settings 0.4 slide s) chord (engine k)
            /\ engine ended
               = fold_left (fun s n => stopNote n settings false s) chord
                   (engine started)))
  /\ (forall c,
        arpEnabled settings = false ->
        ctx (engine k) = Some c -> is_Some (mainGain (engine k)) ->
        indexObject FREQUENCIES (shiftedNote note (octave settings)) = Inherited ->
        chord = [note]
        /\ handleNoteStart settings chordMode note slide k
           = Raised (atTypeError settings (currentTime c)
                       (resumeIfSuspended (engine k)))).
Proof.
  intros chord. split.
  - intros Hreturns.
    set (started := fold_left (startOne settings slide) chord k).
    exists started. split.
    { unfold handleNoteStart. apply startNotes_returns.
      destruct Hreturns as [H|[H|[H|H]]]; [now left|now right; left|now right; right; left|].
      right. right. right. apply Forall_forall. intros n Hn.
      apply chord_notes in Hn as [->|Hn]; [exact H|now apply tableName_not_inherited]. }
    intros ended.
    destruct (startOne_fold settings slide chord k) as (extra & E1 & Hx & _ & He1).
    destruct (endOne_fold settings chord started) as (E2 & _ & He2).
    change (fold_left (startOne settings slide) chord k) with started in E1, He1.
    change (fold_left (endOne settings) chord started) with ended in E2, He2.
    assert (Hended : activeNotes ended
                     = List.filter (fun y => negb (bool_decide (y ∈ chord)))
                         (activeNotes k)).
    { rewrite E2, E1, List.filter_app, (filter_none _ extra), app_nil_r; [reflexivity|].
      apply Forall_forall. intros x Hin. apply Hx in Hin as [Hin _].
      now rewrite bool_decide_eq_true_2. }
    split_and!.
    + intros n. rewrite E1, elem_of_app, Hx.
      destruct (decide (n ∈ activeNotes k)); tauto.
    + intros n. rewrite Hended, list_elem_of_In, filter_In, <- list_elem_of_In.
      rewrite negb_true_iff, bool_decide_eq_false. tauto.
    + intros Hfresh. rewrite Hended. apply filter_all, Forall_forall. intros x Hin.
      rewrite negb_true_iff, bool_decide_eq_false. intros Hc. now apply (Hfresh x).
    + intros Harp. rewrite He2, He1, Harp. now split.
    + intros Harp. rewrite He2, He1, Harp. now split.
  - intros c Harp Hc Hg Hi.
    assert (Hchord : chord = [note]).
    { subst chord. unfold getChordNotes. destruct (negb chordMode); [reflexivity|].
      rewrite indexOf_absent; [reflexivity|]. unfold objectKeys.
      rewrite FREQUENCIES_keys. intros Hin.
      exact (tableName_not_inherited note (octave settings) Hin Hi). }
    split; [exact Hchord|]. unfold handleNoteStart. fold chord. rewrite Hchord.
    cbn [startNotes]. rewrite Harp. cbn [negb].
    now rewrite (playNoteCall_inherited note settings 0.4 slide (engine k) c Hc Hg Hi).
Qed.

(** C4 in chord mode on the engine with A4 sounding: C4, E4 and G4 join
    the active notes.  The name constructor instead: [playNote] raises. *)
Lemma keyboard_note_handlers_witness :
  let k := {| activeNotes := []; activeNotesRef := []; engine := oneVoice |} in
  (exists started,
      handleNoteStart INITIAL_SETTINGS true "C4" 0.5 k = Handled started
      /\ forall n, n ∈ activeNotes started <-> n ∈ ["C4"; "E4"; "G4"])
  /\ handleNoteStart INITIAL_SETTINGS true "constructor" 0.5 k
     = Raised (atTypeError INITIAL_SETTINGS (currentTime (newContext running))
                 (resumeIfSuspended oneVoice)).
Proof.
  intros k.
  destruct (keyboard_note_handlers INITIAL_SETTINGS true "C4" 0.5 k) as [Hreturns _].
  destruct (keyboard_note_handlers INITIAL_SETTINGS true "constructor" 0.5 k)
    as [_ Hraises].
  split.
  - destruct Hreturns as (started & E & Hin & _).
    { right. right. right. apply indexObject_own_ne. now eexists. }
    exists started. split; [exact E|]. intros n. rewrite (Hin n).
    change (getChordNotes true "C4") with ["C4"; "E4"; "G4"].
    split; [intros [H|H]; [inversion H|exact H]|now right].
  - exact (proj2 (Hraises (newContext running) eq_refl oneVoice_ctx oneVoice_mainGain
                    eq_refl)).
Defined.

(** The notes of the computer keyboard are names of the table, in octaves
    3 and 4. *)
Lemma KEY_MAP_notes key note :
  property KEY_MAP key = Some note ->
  exists i name o, NOTES !! i = Some name /\ (3 <= o <= 4)%Z
                   /\ note = (name ++ pretty o)%string.
Proof.
  intros H. apply (get_Some_elem KEY_MAP) in H. unfold KEY_MAP in H.
  repeat (apply elem_of_cons in H as [[= _ ->]|H];
          [first [ now exists 0, "C", 3%Z | now exists 1, "C#", 3%Z | now exists 2, "D", 3%Z
                 | now exists 3, "D#", 3%Z | now exists 4, "E", 3%Z | now exists 5, "F", 3%Z
                 | now exists 6, "F#", 3%Z | now exists 7, "G", 3%Z | now exists 8, "G#", 3%Z
                 | now exists 9, "A", 3%Z | now exists 10, "A#", 3%Z | now exists 11, "B", 3%Z
                 | now exists 0, "C", 4%Z | now exists 1, "C#", 4%Z | now exists 2, "D", 4%Z
                 | now exists 3, "D#", 4%Z | now exists 4, "E", 4%Z | now exists 5, "F", 4%Z
                 | now exists 6, "F#", 4%Z | now exists 7, "G", 4%Z | now exists 8, "G#", 4%Z
                 | now exists 9, "A", 4%Z | now exists 10, "A#", 4%Z | now exists 11, "B", 4%Z ]|]).
  inversion H.
Qed.

Lemma lowerChar_idem c : lowerChar (lowerChar c) = lowerChar c.
Proof. destruct c as [[] [] [] [] [] [] [] []]; reflexivity. Qed.

Lemma toLowerCase_idem s : toLowerCase (toLowerCase s) = toLowerCase s.
Proof. induction s as [|c s IH]; cbn; [reflexivity|]. now rewrite lowerChar_idem, IH. Qed.

(** The names objects inherit that a lowered key can be. *)
Lemma lowered_inherited key :
  indexObject KEY_MAP (toLowerCase key) = Inherited
  <-> toLowerCase key = "constructor" \/ toLowerCase key = "__proto__".
Proof.
  split.
  - intros H. apply indexObject_inherited in H as [_ Hin].
    pose proof (toLowerCase_idem key) as Hidem. unfold objectPrototype in Hin.
    repeat (apply elem_of_cons in Hin as [Hin|Hin];
            [first [ now left | now right
                   | rewrite Hin in Hidem; discriminate Hidem ]|]).
    inversion Hin.
  - intros [-> | ->]; reflexivity.
Qed.

(** X22.  The computer keyboard.  A repeated key-down does nothing; a key
    for which [KEY_MAP] has nothing, after lowering the case, does nothing
    on the way down or up.  For the two keys whose lowered name every
    object inherits, constructor and __proto__, what [KEY_MAP] gives is
    not a note name, and the listeners go on with it.  A key of the map
    starts its note with slide 0.5 unless the note is already in the ref
    of active notes, and ends it on the way up.  Every note of [KEY_MAP]
    is in the frequency table, and still is after an octave shift of -3 to
    4; the keys of the map are distinct and every key drawn on the screen
    has its note in the table. *)
Theorem keyboard_keys_play_table_notes (key : string) (settings : SynthSettings)
  (chordMode : bool) (k : Keyboard) :
  onKeyDown settings chordMode true key k = Handled k
  /\ (indexObject KEY_MAP (toLowerCase key) = Undefined ->
      onKeyDown settings chordMode false key k = Handled k
      /\ onKeyUp settings chordMode key k = Handled k)
  /\ (toLowerCase key = "constructor" \/ toLowerCase key = "__proto__" <->
      onKeyDown settings chordMode false key k = NotAName)
  /\ (toLowerCase key = "constructor" \/ toLowerCase key = "__proto__" <->
      onKeyUp settings chordMode key k = NotAName)
  /\ (forall note,
        indexObject KEY_MAP (toLowerCase key) = Own note ->
        is_Some (property FREQUENCIES note)
        /\ ((-3 <= octave settings <= 4)%Z ->
            is_Some (property FREQUENCIES (shiftedNote note (octave settings))))
        /\ (note ∈ activeNotesRef k ->
            onKeyDown settings chordMode false key k = Handled k)
        /\ (note ∉ activeNotesRef k ->
            onKeyDown settings chordMode false key k
            = handleNoteStart settings chordMode note 0.5 k
            /\ exists started,
                 handleNoteStart settings chordMode note 0.5 k = Handled started)
        /\ onKeyUp settings chordMode key k
           = Handled (handleNoteEnd settings chordMode note k))
  /\ NoDup KEY_MAP.*1
  /\ Forall (fun note => is_Some (property FREQUENCIES note)) screenNotes.
Proof.
  split_and!.
  - reflexivity.
  - intros Hnone. unfold onKeyDown, onKeyUp. now rewrite Hnone.
  - rewrite <- lowered_inherited. unfold onKeyDown. cbn [negb].
    destruct (indexObject KEY_MAP (toLowerCase key)) as [note| |];
      [|tauto|split; discriminate].
    split; [discriminate|]. destruct (_ && _); [|discriminate].
    intros E. now apply startNotes_named in E.
  - rewrite <- lowered_inherited. unfold onKeyUp.
    destruct (indexObject KEY_MAP (toLowerCase key)) as [note| |];
      [|tauto|split; discriminate].
    split; [discriminate|]. now destruct (strTruthy _).
  - intros note Hown.
    assert (Hnote : property KEY_MAP (toLowerCase key) = Some note).
    { unfold indexObject in Hown. destruct (property KEY_MAP _); [congruence|].
      now case_bool_decide. }
    destruct (KEY_MAP_notes _ _ Hnote) as (i & name & o & Hi & Ho & ->).
    assert (Htruthy : strTruthy (name ++ pretty o) = true).
    { apply tableNames_truthy, tableNames_elem. exists name, o.
      split_and!; [eapply list_elem_of_lookup_2, Hi|lia|lia|reflexivity]. }
    unfold onKeyDown, onKeyUp. rewrite Hown, Htruthy. cbn [andb].
    split_and!.
    + rewrite (table_lookup i name o Hi). rewrite decide_True by lia. eauto.
    + intros Hoct. rewrite (shiftedNote_table i name o (octave settings) Hi) by lia.
      rewrite (table_lookup i name _ Hi). rewrite decide_True by lia. eauto.
    + intros Hin. unfold StringSet.has. now rewrite bool_decide_eq_true_2.
    + intros Hin. unfold StringSet.has. rewrite bool_decide_eq_false_2 by exact Hin.
      cbn [negb]. split; [reflexivity|]. eexists. unfold handleNoteStart.
      apply startNotes_returns. right. right. right. apply Forall_forall.
      intros n Hn. apply tableName_not_inherited.
      apply chord_notes in Hn as [->|Hn]; [|exact Hn].
      apply tableNames_elem. exists name, o.
      split_and!; [eapply list_elem_of_lookup_2, Hi|lia|lia|reflexivity].
    + reflexivity.
  - vm_compute. apply (bool_decide_unpack _). vm_compute. reflexivity.
  - unfold screenNotes. repeat constructor; cbn; eauto.
Qed.

(** ** The matrix editor and the pitch wheel *)

Lemma sameCell_spec src dst r : sameCell src dst r = true <-> cell r = (src, dst).
Proof.
  unfold sameCell, cell. rewrite andb_true_iff, !bool_decide_eq_true.
  split; [intros [-> ->]; reflexivity | intros [= -> ->]; now split].
Qed.

Lemma sameCell_false src dst r : sameCell src dst r = false <-> cell r <> (src, dst).
Proof.
  rewrite <- sameCell_spec. destruct (sameCell src dst r); split; congruence.
Qed.

Lemma find_skip {A : Type} (p : A -> bool) (l1 l2 : list A) (x : A) :
  p x = false -> List.find p (l1 ++ x :: l2) = List.find p (l1 ++ l2).
Proof.
  intros Hx. induction l1 as [|a l1 IH]; cbn; [now rewrite Hx|].
  destruct (p a); [reflexivity | exact IH].
Qed.

Lemma find_first {A : Type} (p : A -> bool) (l1 l2 : list A) :
  Forall (fun a => p a = false) l1 -> List.find p (l1 ++ l2) = List.find p l2.
Proof. induction 1 as [|a l1 Ha _ IH]; cbn; [reflexivity|]. now rewrite Ha. Qed.

Lemma findIndex_first {A : Type} (p : A -> bool) (l1 l2 : list A) (x : A) :
  Forall (fun a => p a = false) l1 -> p x = true ->
  findIndex p (l1 ++ x :: l2) = Some (length l1).
Proof.
  intros H Hx. induction H as [|a l1 Ha _ IH]; cbn; [now rewrite Hx|].
  now rewrite Ha, IH.
Qed.

Lemma findIndex_none {A : Type} (p : A -> bool) (l : list A) :
  Forall (fun a => p a = false) l -> findIndex p l = None.
Proof. induction 1 as [|a l Ha _ IH]; cbn; [reflexivity|]. now rewrite Ha, IH. Qed.

Lemma not_cell routes src dst :
  ((src, dst) ∉ cell <$> routes) <-> Forall (fun r => sameCell src dst r = false) routes.
Proof.
  rewrite Forall_forall. split.
  - intros H r Hr. apply sameCell_false. intros E. apply H. rewrite <- E.
    apply list_elem_of_fmap. now exists r.
  - intros H Hin. apply list_elem_of_fmap in Hin as (r & E & Hr).
    specialize (H r Hr). apply sameCell_false in H. congruence.
Qed.

(** Where the route of a cell is in a list with one route a cell at most. *)
Lemma cell_split routes src dst :
  NoDup (cell <$> routes) ->
  ((src, dst) ∉ cell <$> routes)
  \/ exists before r after,
       routes = before ++ r :: after /\ cell r = (src, dst)
       /\ ((src, dst) ∉ cell <$> before) /\ ((src, dst) ∉ cell <$> after).
Proof.
  induction routes as [|r routes IH]; intros Hnd; [left; inversion 1|].
  cbn in Hnd. apply NoDup_cons in Hnd as [Hr Hnd].
  destruct (decide (cell r = (src, dst))) as [E|E].
  - right. exists [], r, routes. split_and!; [reflexivity|assumption|inversion 1|].
    now rewrite <- E.
  - destruct (IH Hnd) as [Habs|(before & r' & after & -> & E' & Hb & Ha)].
    + left. cbn. rewrite not_elem_of_cons. split; [congruence | assumption].
    + right. exists (r :: before), r', after. split_and!; try assumption; [reflexivity|].
      cbn. rewrite not_elem_of_cons. split; [congruence | assumption].
Qed.

Lemma Rtruthy_amount a : (if Rtruthy a then a else 0%R) = a.
Proof. unfold Rtruthy. now destruct (Req_dec_T a 0). Qed.

Lemma getAmount_absent routes src dst :
  (src, dst) ∉ cell <$> routes -> getAmount routes src dst = 0%R.
Proof.
  intros H. apply not_cell in H. unfold getAmount.
  rewrite <- (app_nil_r routes), (find_first _ routes [] H). reflexivity.
Qed.

Lemma getAmount_at before r after src dst :
  (src, dst) ∉ cell <$> before -> cell r = (src, dst) ->
  getAmount (before ++ r :: after) src dst = amount r.
Proof.
  intros Hb Hr. apply not_cell in Hb. unfold getAmount.
  rewrite (find_first _ before _ Hb). cbn.
  rewrite (proj2 (sameCell_spec src dst r) Hr). apply Rtruthy_amount.
Qed.

Lemma getAmount_skip before r after src dst :
  cell r <> (src, dst) ->
  getAmount (before ++ r :: after) src dst = getAmount (before ++ after) src dst.
Proof.
  intros Hr. unfold getAmount. now rewrite find_skip by now apply sameCell_false.
Qed.

Lemma filter_skip {A : Type} (p : A -> bool) (l1 l2 : list A) (x : A) :
  p x = false -> List.filter p (l1 ++ x :: l2) = List.filter p (l1 ++ l2).
Proof. intros Hx. rewrite !List.filter_app. cbn. now rewrite Hx. Qed.

(** What [handleCellChange] returns, by cases. *)
Lemma handleCellChange_absent routes src dst a :
  (src, dst) ∉ cell <$> routes ->
  handleCellChange routes src dst a
  = if Req_dec_T a 0 then routes
    else routes ++ [{| source := src; destination := dst; amount := a |}].
Proof.
  intros H. apply not_cell in H. unfold handleCellChange.
  now rewrite (findIndex_none _ routes H).
Qed.

Lemma handleCellChange_present before r after src dst a :
  (src, dst) ∉ cell <$> before -> cell r = (src, dst) ->
  handleCellChange (before ++ r :: after) src dst a
  = if Req_dec_T a 0 then before ++ after
    else before ++ {| source := src; destination := dst; amount := a |} :: after.
Proof.
  intros Hb Hr. apply not_cell in Hb. unfold handleCellChange.
  rewrite (findIndex_first _ before after r Hb) by now apply sameCell_spec.
  destruct (Req_dec_T a 0).
  - apply delete_middle.
  - rewrite <- (Nat.add_0_r (length before)). now rewrite insert_app_r.
Qed.

(** X23.  The cells of the modulation matrix, on a list of routes with at
    most one route for each cell.  After [handleCellChange src dst a] the
    amount shown in the cell is [a] and the amount of every other cell is
    what it was; there is still at most one route for each cell; the other
    routes keep their order; amount 0 removes the route of the cell; and a
    cell that had no route gets its route at the end of the list. *)
Theorem modMatrix_cell_round_trip (routes : list ModRoute) (src : ModSource)
  (dst : ModDestination) (a : R) :
  NoDup (cell <$> routes) ->
  let routes' := handleCellChange routes src dst a in
  getAmount routes' src dst = a
  /\ (forall src' dst', (src', dst') <> (src, dst) ->
        getAmount routes' src' dst' = getAmount routes src' dst')
  /\ NoDup (cell <$> routes')
  /\ List.filter (fun r => negb (sameCell src dst r)) routes'
     = List.filter (fun r => negb (sameCell src dst r)) routes
  /\ (a = 0%R -> (src, dst) ∉ cell <$> routes')
  /\ (a <> 0%R -> (src, dst) ∉ cell <$> routes ->
      routes' = routes ++ [{| source := src; destination := dst; amount := a |}]).
Proof.
  intros Hnd. cbn zeta.
  set (new := {| source := src; destination := dst; amount := a |}).
  assert (Hnew : cell new = (src, dst)) by reflexivity.
  assert (Hself : negb (sameCell src dst new) = false).
  { apply negb_false_iff. now apply sameCell_spec. }
  destruct (cell_split routes src dst Hnd) as [Habs|(before & r & after & -> & Hr & Hb & Ha)].
  - rewrite (handleCellChange_absent routes src dst a Habs). fold new.
    destruct (Req_dec_T a 0) as [->|Hne].
    + split_and!.
      * now apply getAmount_absent.
      * reflexivity.
      * assumption.
      * reflexivity.
      * intros _. exact Habs.
      * intros H. now destruct H.
    + split_and!.
      * now rewrite (getAmount_at routes new []).
      * intros src' dst' H. rewrite getAmount_skip by (rewrite Hnew; congruence).
        now rewrite app_nil_r.
      * rewrite fmap_app. apply NoDup_app. split_and!; [assumption| |apply NoDup_singleton].
        intros x Hx Hx'. cbn in Hx'. apply list_elem_of_singleton in Hx'. subst x.
        now rewrite Hnew in Hx.
      * rewrite List.filter_app. cbn. rewrite Hself. now rewrite app_nil_r.
      * intros H. contradiction.
      * reflexivity.
  - rewrite (handleCellChange_present before r after src dst a Hb Hr). fold new.
    assert (Hr' : negb (sameCell src dst r) = false).
    { apply negb_false_iff. now apply sameCell_spec. }
    rewrite fmap_app in Hnd. cbn in Hnd.
    assert (Hnd' : NoDup (cell <$> before ++ after)).
    { rewrite fmap_app. apply NoDup_app in Hnd as (N1 & N2 & N3).
      apply NoDup_cons in N3 as [N3 N4]. apply NoDup_app. split_and!; try assumption.
      intros x Hx Hx'. apply (N2 x Hx). now right. }
    destruct (Req_dec_T a 0) as [->|Hne].
    + split_and!.
      * apply getAmount_absent. rewrite fmap_app, elem_of_app. tauto.
      * intros src' dst' H. now rewrite getAmount_skip by (rewrite Hr; congruence).
      * assumption.
      * now rewrite filter_skip.
      * intros _. rewrite fmap_app, elem_of_app. tauto.
      * intros H. now destruct H.
    + split_and!.
      * now apply getAmount_at.
      * intros src' dst' H. rewrite !getAmount_skip; [reflexivity| |]; congruence.
      * rewrite fmap_app. cbn. rewrite Hnew, <- Hr. exact Hnd.
      * now rewrite !filter_skip.
      * intros H. contradiction.
      * intros _ Habs. exfalso. apply Habs. rewrite fmap_app, elem_of_app. right.
        rewrite <- Hr. left.
Qed.

Lemma modMatrix_cell_round_trip_witness :
  let routes := modMatrix INITIAL_SETTINGS in
  let routes' := handleCellChange routes LFO Pitch 0.25 in
  getAmount routes' LFO Pitch = 0.25%R
  /\ NoDup (cell <$> routes')
  /\ List.filter (fun r => negb (sameCell LFO Pitch r)) routes'
     = List.filter (fun r => negb (sameCell LFO Pitch r)) routes.
Proof.
  intros routes routes'.
  destruct (modMatrix_cell_round_trip routes LFO Pitch 0.25) as (H1 & _ & H2 & H3 & _).
  - apply (bool_decide_unpack _). reflexivity.
  - split_and!; [exact H1|exact H2|exact H3].
Defined.

(** X24.  The pitch wheel, on a wheel of positive height.  The value handed
    on a pointer move is between -1 and 1, 0 at the centre and 1 from
    [height / 2.2] above it; once the settings carrying it have reached an
    initialised engine the bend in force is that value, so every frequency
    the engine bends stays within two semitones of its base.  Letting go of
    the wheel hands 0, and the bent frequency is the base frequency again. *)
Theorem pitch_wheel_bends_two_semitones (rect : DOMRect) (clientY : R)
  (settings : SynthSettings) (s : AudioService) :
  (0 < rect_height rect)%R ->
  is_Some (ctx s) -> is_Some (delayNode s) -> is_Some (delayFeedbackNode s) ->
  let v := wheelValue rect clientY in
  let s' := updateGlobalParams (assign_pitchBend v settings) s in
  (-1 <= v <= 1)%R
  /\ currentPitchBend s' = v
  /\ (forall baseFreq, (0 < baseFreq)%R ->
        (baseFreq * Rpower 2 (-2 / 12) <= getBentFrequency s' baseFreq
         <= baseFreq * Rpower 2 (2 / 12))%R)
  /\ (clientY = (rect_top rect + rect_height rect / 2)%R -> v = 0%R)
  /\ ((clientY <= rect_top rect + rect_height rect / 22)%R -> v = 1%R)
  /\ forall baseFreq,
       getBentFrequency (updateGlobalParams (assign_pitchBend 0 settings) s') baseFreq
       = baseFreq.
Proof.
  intros Hh [c Hc] [dn Hdn] [dfn Hdfn] v s'.
  assert (Hv : (-1 <= v <= 1)%R) by (apply clamp_bounds; lra).
  destruct (updateGlobalParams_fields (assign_pitchBend v settings) s c dn dfn Hc Hdn Hdfn)
    as (_ & Hpb & _ & Hdn' & Hdfn' & _).
  fold s' in Hpb, Hdn', Hdfn'. cbn [pitchBend assign_pitchBend] in Hpb.
  split_and!.
  - apply Hv.
  - apply Hv.
  - exact Hpb.
  - intros baseFreq Hpos. unfold getBentFrequency. rewrite Hpb. split.
    + apply Rmult_le_compat_l; [lra|]. apply Rle_Rpower; lra.
    + apply Rmult_le_compat_l; [lra|]. apply Rle_Rpower; lra.
  - intros ->. unfold v, wheelValue.
    replace (rect_top rect + rect_height rect / 2 - (rect_top rect + rect_height rect / 2))%R
      with 0%R by lra.
    unfold Rdiv at 1. rewrite Rmult_0_l. rewrite Rmin_right by lra. apply Rmax_right. lra.
  - intros Htop. unfold v, wheelValue.
    assert (1 <= (rect_top rect + rect_height rect / 2 - clientY) / (rect_height rect / 2.2))%R.
    { apply Rmult_le_reg_r with (rect_height rect / 2.2)%R; [lra|].
      unfold Rdiv at 2. rewrite Rmult_assoc, Rinv_l by lra. lra. }
    rewrite Rmin_left by assumption. apply Rmax_right. lra.
  - intros baseFreq.
    assert (Hc' : exists c', ctx s' = Some c').
    { destruct (updateGlobalParams_control (assign_pitchBend v settings) s c dn dfn Hc Hdn Hdfn)
        as [E _]. fold s' in E. rewrite E, Hc. eauto. }
    destruct Hc' as [c' Hc'].
    destruct (updateGlobalParams_fields (assign_pitchBend 0 settings) s' c' _ _ Hc' Hdn' Hdfn')
      as (_ & Hpb0 & _).
    cbn [pitchBend assign_pitchBend] in Hpb0. unfold getBentFrequency. rewrite Hpb0.
    replace (0 * 2 / 12)%R with 0%R by lra. rewrite Rpower_O by lra. lra.
Qed.

Lemma pitch_wheel_bends_two_semitones_witness :
  let rect := {| rect_left := 0; rect_top := 0; rect_width := 40; rect_height := 110 |} in
  let v := wheelValue rect 0 in
  let s' := updateGlobalParams (assign_pitchBend v INITIAL_SETTINGS) ready in
  v = 1%R /\ currentPitchBend s' = v.
Proof.
  intros rect v s'.
  destruct (pitch_wheel_bends_two_semitones rect 0 INITIAL_SETTINGS ready)
    as (_ & H2 & _ & _ & H1 & _).
  - cbn. lra.
  - eexists. reflexivity.
  - eexists. reflexivity.
  - eexists. reflexivity.
  - split; [|exact H2]. apply H1. cbn. lra.
Defined.
